(** * Vectorised backtesting engine: a shallow embedding

    The development follows [src/backtest/engine.py],
    [src/backtest/metrics.py], [src/strategies/base.py],
    [src/strategies/ema_cross.py], [src/indicators/technical.py] and
    the signal record of [src/models/signal.py].

    Numbers.  Python floats are modelled by [float]: exact rationals
    together with the two infinities and NaN.  Arithmetic follows IEEE 754
    for the special values (x/0, inf-inf, 0*inf, comparisons with NaN);
    rounding, overflow and the sign of zero are not modelled.  Prices and
    the engine's three settings are finite, hence rationals; signals are
    integers.

    Libraries.  The two transcendental functions the code calls ([**]
    with a fractional exponent and [np.sqrt]) are an interface, [Libm].
    The sort of [DataFrame.sort_values] is an interface too, [Pandas],
    with the order and the permutation pandas promises as [PandasSpec].

    Exceptions.  A function that can raise returns an [option]; [None]
    is the raised exception, which [grid_search] catches per combination.

    The file has two parts: the model, then the lemmas and the theorems
    about it. *)

From Stdlib Require Import String Ascii.
From Stdlib Require Import QArith ZArith List Bool Lia Lra Psatz.
From Stdlib Require Import Permutation Sorted Qabs Qround Qpower DecimalString.
Import ListNotations.

(* ================================================================== *)
(** ** Floats *)
(* ================================================================== *)

Inductive float : Type :=
| Fin (q : Q)
| PInf
| NInf
| NaN.

Declare Scope float_scope.
Delimit Scope float_scope with F.
Bind Scope float_scope with float.

Definition of_Z (z : Z) : float := Fin (inject_Z z).

Definition isnan (x : float) : bool :=
  match x with NaN => true | _ => false end.

Definition is_finite (x : float) : Prop :=
  match x with Fin _ => True | _ => False end.

(** Sign of a float that is not NaN ([Eq] for zero). *)
Definition sign (x : float) : comparison :=
  match x with
  | Fin q => q ?= 0
  | PInf => Gt
  | NInf => Lt
  | NaN => Eq
  end.

Definition inf_of (c : comparison) : float :=
  match c with Gt => PInf | Lt => NInf | Eq => NaN end.

Definition sign_mul (a b : comparison) : comparison :=
  match a, b with
  | Eq, _ | _, Eq => Eq
  | Gt, Gt | Lt, Lt => Gt
  | _, _ => Lt
  end.

Definition fopp (x : float) : float :=
  match x with
  | Fin q => Fin (- q)
  | PInf => NInf
  | NInf => PInf
  | NaN => NaN
  end.

Definition fabs (x : float) : float :=
  match x with
  | Fin q => Fin (Qabs q)
  | PInf | NInf => PInf
  | NaN => NaN
  end.

Definition fadd (x y : float) : float :=
  match x, y with
  | NaN, _ | _, NaN => NaN
  | Fin a, Fin b => Fin (a + b)
  | PInf, NInf | NInf, PInf => NaN
  | PInf, _ | _, PInf => PInf
  | NInf, _ | _, NInf => NInf
  end.

Definition fsub (x y : float) : float :=
  match x, y with
  | NaN, _ | _, NaN => NaN
  | Fin a, Fin b => Fin (a - b)
  | PInf, PInf | NInf, NInf => NaN
  | PInf, _ | _, NInf => PInf
  | NInf, _ | _, PInf => NInf
  end.

Definition fmul (x y : float) : float :=
  match x, y with
  | NaN, _ | _, NaN => NaN
  | Fin a, Fin b => Fin (a * b)
  | _, _ => inf_of (sign_mul (sign x) (sign y))
  end.

Definition fdiv (x y : float) : float :=
  match x, y with
  | NaN, _ | _, NaN => NaN
  | Fin a, Fin b => if Qeq_bool b 0 then inf_of (a ?= 0) else Fin (a / b)
  | Fin _, _ => Fin 0
  | _, Fin b => match b ?= 0 with Lt => fopp x | _ => x end
  | _, _ => NaN
  end.

(** Comparisons are those of IEEE 754: every ordered comparison with NaN
    is false, and [!=] with NaN is true. *)
Definition flt (x y : float) : bool :=
  match x, y with
  | NaN, _ | _, NaN => false
  | Fin a, Fin b => match a ?= b with Lt => true | _ => false end
  | NInf, NInf | PInf, _ | _, NInf => false
  | _, _ => true
  end.

Definition fgt (x y : float) : bool := flt y x.

Definition feqb (x y : float) : bool :=
  match x, y with
  | Fin a, Fin b => Qeq_bool a b
  | PInf, PInf | NInf, NInf => true
  | _, _ => false
  end.

Definition fne (x y : float) : bool := negb (feqb x y).

(** Equality of floats as values: rationals are compared by [Qeq]. *)
Definition feq (x y : float) : Prop :=
  match x, y with
  | Fin a, Fin b => a == b
  | PInf, PInf | NInf, NInf | NaN, NaN => True
  | _, _ => False
  end.

Infix "+" := fadd : float_scope.
Infix "-" := fsub : float_scope.
Infix "*" := fmul : float_scope.
Infix "/" := fdiv : float_scope.
Infix "==" := feq (at level 70, no associativity) : float_scope.

(** The part of the C library the metrics rely on. *)
Class Libm : Type := {
  fpow : float -> float -> float;
  fsqrt : float -> float
}.

(* ================================================================== *)
(** ** Series (pandas / numpy operations used by the code) *)
(* ================================================================== *)

Definition Series := list float.

Fixpoint zip_with {A B C : Type} (f : A -> B -> C) (l1 : list A) (l2 : list B)
  : list C :=
  match l1, l2 with
  | a :: r1, b :: r2 => f a b :: zip_with f r1 r2
  | _, _ => []
  end.

(** [s.shift(1)]: every value moves one place down, the first is missing. *)
Definition shift1 (s : Series) : Series :=
  match s with
  | [] => []
  | _ :: _ => NaN :: removelast s
  end.

(** [s.diff()] is [s - s.shift(1)]. *)
Definition diff (s : Series) : Series := zip_with fsub s (shift1 s).

(** [s.pct_change()] is [s / s.shift(1) - 1]; the forward fill pandas
    applies first only touches missing prices. *)
Definition pct_change (s : Series) : Series :=
  map (fun x => (x - Fin 1)%F) (zip_with fdiv s (shift1 s)).

Definition fillna (v : float) (s : Series) : Series :=
  map (fun x => if isnan x then v else x) s.

Definition dropna (s : Series) : Series :=
  filter (fun x => negb (isnan x)) s.

(** [s.cumprod()]: a missing value stays missing and is skipped by the
    running product. *)
Fixpoint cumprod_from (acc : option float) (s : Series) : Series :=
  match s with
  | [] => []
  | x :: r =>
      if isnan x then NaN :: cumprod_from acc r
      else
        let a := match acc with None => x | Some p => (p * x)%F end in
        a :: cumprod_from (Some a) r
  end.

Definition cumprod (s : Series) : Series := cumprod_from None s.

(** Reductions skip missing values. *)
Definition prod (s : Series) : float :=
  fold_left fmul (dropna s) (Fin 1).

Definition sum (s : Series) : float :=
  fold_left fadd (dropna s) (Fin 0).

Definition count (s : Series) : nat := length (dropna s).

Definition of_nat (n : nat) : float := of_Z (Z.of_nat n).

Definition mean (s : Series) : float := (sum s / of_nat (count s))%F.

(** [s.std()]: sample standard deviation (ddof = 1), missing with fewer
    than two observations. *)
Definition std `{Libm} (s : Series) : float :=
  let n := count s in
  if (n <? 2)%nat then NaN
  else
    let m := mean s in
    let sq := map (fun x => ((x - m) * (x - m))%F) (dropna s) in
    fsqrt (fold_left fadd sq (Fin 0) / of_nat (n - 1))%F.

(** numpy's [maximum] and [minimum] propagate NaN. *)
Definition np_maximum (a b : float) : float :=
  if isnan a || isnan b then NaN else if flt a b then b else a.

Definition np_minimum (a b : float) : float :=
  if isnan a || isnan b then NaN else if flt b a then b else a.

Fixpoint accumulate (f : float -> float -> float) (acc : float) (s : Series)
  : Series :=
  match s with
  | [] => []
  | x :: r => let a := f acc x in a :: accumulate f a r
  end.

(** [np.maximum.accumulate(a)]. *)
Definition maximum_accumulate (s : Series) : Series :=
  match s with
  | [] => []
  | x :: r => x :: accumulate np_maximum x r
  end.

(** [a.min()]; numpy raises on an empty array. *)
Definition np_min (s : Series) : option float :=
  match s with
  | [] => None
  | x :: r => Some (fold_left np_minimum r x)
  end.

(** [(mask).sum()] on a boolean series. *)
Definition count_true (l : list bool) : nat :=
  length (filter (fun b => b) l).

(* ================================================================== *)
(** ** Data model *)
(* ================================================================== *)

(** One OHLCV bar; [timestamp] is the frame's index. *)
Record Bar : Type := {
  timestamp : Z;
  open : Q;
  high : Q;
  low : Q;
  close : Q;
  volume : Q
}.

(** A row of the frame a strategy returns: the bar and its signal. *)
Record SignalBar : Type := {
  bar : Bar;
  signal : Z
}.

Definition DataFrame := list Bar.
Definition SignalFrame := list SignalBar.

(** [df["close"]] and [df["signal"]] as float series. *)
Definition close_column (df : DataFrame) : Series :=
  map (fun b => Fin (close b)) df.

Definition result_close (df : SignalFrame) : Series :=
  map (fun r => Fin (close (bar r))) df.

Definition result_signal (df : SignalFrame) : list Z := map signal df.

Definition to_series (signals : list Z) : Series := map of_Z signals.

(** Parameter values and keyword dictionaries (insertion ordered). *)
Inductive pval : Type :=
| PInt (z : Z)
| PFloat (q : Q)
| PBool (b : bool).

Definition dict := list (string * pval).

Fixpoint dict_get (d : dict) (k : string) : option pval :=
  match d with
  | [] => None
  | (k', v) :: r => if String.eqb k k' then Some v else dict_get r k
  end.

(* ================================================================== *)
(** ** metrics.py *)
(* ================================================================== *)

Record BacktestMetrics : Type := {
  total_return : float;
  annual_return : float;
  sharpe_ratio : float;
  max_drawdown : float;
  win_rate : float;
  total_trades : Z;
  profit_factor : float;
  avg_trade_return : float
}.

(** The record returned for an empty return series; the last two fields
    take the dataclass defaults. *)
Definition zero_metrics : BacktestMetrics :=
  {| total_return := Fin 0; annual_return := Fin 0; sharpe_ratio := Fin 0;
     max_drawdown := Fin 0; win_rate := Fin 0; total_trades := 0%Z;
     profit_factor := Fin 0; avg_trade_return := Fin 0 |}.

(** [(equity - peak) / peak] with [peak = np.maximum.accumulate(equity)]. *)
Definition drawdown (equity : Series) : Series :=
  let peak := maximum_accumulate equity in
  zip_with fdiv (zip_with fsub equity peak) peak.

(** [int((signals.diff().fillna(0) != 0).sum())]. *)
Definition count_position_changes (signals : list Z) : Z :=
  let position_changes := fillna (Fin 0) (diff (to_series signals)) in
  Z.of_nat (count_true (map (fun x => fne x (Fin 0)) position_changes)).

(** The blocks of [calculate_metrics], in the order of the source; each
    takes the return series after [dropna]. *)

(** Total return: [(1 + returns).prod() - 1]. *)
Definition total_return_of (returns : Series) : float :=
  (prod (map (fadd (Fin 1)) returns) - Fin 1)%F.

(** Annualised return, with [days = len(returns)]. *)
Definition annual_return_of `{Libm} (returns : Series) : float :=
  let total_return := total_return_of returns in
  let days := length returns in
  if (0 <? days)%nat && fgt total_return (Fin (-1))
  then (fpow (Fin 1 + total_return) (of_Z 365 / of_nat days) - Fin 1)%F
  else Fin 0.

(** Volatility and Sharpe ratio. *)
Definition volatility_of `{Libm} (returns : Series) : float :=
  (std returns * fsqrt (of_Z 365))%F.

Definition sharpe_ratio_of `{Libm} (returns : Series) : float :=
  let volatility := volatility_of returns in
  if fgt volatility (Fin 0) then (annual_return_of returns / volatility)%F
  else Fin 0.

(** Maximum drawdown: [drawdown.min()]. *)
Definition max_drawdown_of (equity : Series) : option float :=
  np_min (drawdown equity).

(** Number of trades. *)
Definition total_trades_of (signals : option (list Z)) (returns : Series)
  : Z :=
  match signals with
  | Some signals => count_position_changes signals
  | None => Z.of_nat (count_true (map (fun r => fne r (Fin 0)) returns))
  end.

(** Win rate. *)
Definition winning_returns (returns : Series) : Series :=
  filter (fun r => fgt r (Fin 0)) returns.

Definition losing_returns (returns : Series) : Series :=
  filter (fun r => flt r (Fin 0)) returns.

Definition win_rate_of (returns : Series) : float :=
  let total_trading_days :=
    (length (winning_returns returns) + length (losing_returns returns))%nat in
  if (0 <? total_trading_days)%nat
  then (of_nat (length (winning_returns returns)) / of_nat total_trading_days)%F
  else Fin 0.

(** Profit factor. *)
Definition total_gains (returns : Series) : float :=
  if (0 <? length (winning_returns returns))%nat
  then sum (winning_returns returns) else Fin 0.

Definition total_losses (returns : Series) : float :=
  if (0 <? length (losing_returns returns))%nat
  then fabs (sum (losing_returns returns)) else Fin 0.

Definition profit_factor_of (returns : Series) : float :=
  if fgt (total_losses returns) (Fin 0)
  then (total_gains returns / total_losses returns)%F
  else PInf.

(** Average return of the bars with a non-zero return. *)
Definition avg_trade_return_of (returns : Series) : float :=
  if existsb (fun r => fne r (Fin 0)) returns
  then mean (filter (fun r => fne r (Fin 0)) returns)
  else Fin 0.

(** [calculate_metrics(returns, equity_curve, signals)]; [None] stands for
    a raised exception ([min] of an empty drawdown array). *)
Definition calculate_metrics `{Libm}
  (returns : Series) (equity_curve : Series) (signals : option (list Z))
  : option BacktestMetrics :=
  let returns := dropna returns in
  if (length returns =? 0)%nat then Some zero_metrics
  else
    match max_drawdown_of equity_curve with
    | None => None
    | Some max_drawdown =>
        Some {| total_return := total_return_of returns;
                annual_return := annual_return_of returns;
                sharpe_ratio := sharpe_ratio_of returns;
                max_drawdown := max_drawdown;
                win_rate := win_rate_of returns;
                total_trades := total_trades_of signals returns;
                profit_factor := profit_factor_of returns;
                avg_trade_return := avg_trade_return_of returns |}
    end.

(** [calculate_hodl_return(df)]. *)
Definition calculate_hodl_return (df : DataFrame) : float :=
  if (length df <? 2)%nat then Fin 0
  else
    match df, rev df with
    | first :: _, last_bar :: _ =>
        (Fin (close last_bar) / Fin (close first) - Fin 1)%F
    | _, _ => Fin 0
    end.

(* ================================================================== *)
(** ** strategies/base.py *)
(* ================================================================== *)

(** A strategy instance: its name, its [params] property and
    [calculate]; [None] stands for a raised exception. *)
Record Strategy : Type := {
  name : string;
  params : dict;
  calculate : DataFrame -> option SignalFrame
}.

(** A strategy class is called with keyword arguments. *)
Definition StrategyClass := dict -> option Strategy.

(* ================================================================== *)
(** ** engine.py *)
(* ================================================================== *)

Record BacktestResult : Type := {
  strategy_name : string;
  result_params : dict;
  metrics : BacktestMetrics;
  hodl_return : float;
  equity_curve : Series;
  signals : list Z;
  result_df : SignalFrame
}.

(** One row of the tables built from [BacktestResult.summary()]. *)
Record Summary : Type := {
  summary_strategy : string;
  summary_params : dict;
  summary_metrics : BacktestMetrics;
  summary_hodl_return : float
}.

Definition summary (r : BacktestResult) : Summary :=
  {| summary_strategy := strategy_name r;
     summary_params := result_params r;
     summary_metrics := metrics r;
     summary_hodl_return := hodl_return r |}.

Record BacktestEngine : Type := {
  fee_rate : Q;
  slippage : Q;
  initial_capital : Q
}.

Definition total_cost (e : BacktestEngine) : Q := fee_rate e + slippage e.

(** [position_changes = signals.diff().fillna(0).abs()]. *)
Definition position_changes (signals : Series) : Series :=
  map fabs (fillna (Fin 0) (diff signals)).

(** [strategy_returns] before and after [fillna(0)] (lines 83-91). *)
Definition raw_strategy_returns (e : BacktestEngine)
  (close_s : Series) (signals : Series) : Series :=
  let returns := pct_change close_s in
  zip_with fsub
    (zip_with fmul returns (shift1 signals))
    (map (fun pc => (pc * Fin (total_cost e))%F) (position_changes signals)).

Definition strategy_returns (e : BacktestEngine)
  (close_s : Series) (signals : Series) : Series :=
  fillna (Fin 0) (raw_strategy_returns e close_s signals).

(** [initial_capital * (1 + strategy_returns).cumprod()]. *)
Definition equity_of (e : BacktestEngine) (strategy_returns : Series)
  : Series :=
  map (fmul (Fin (initial_capital e)))
      (cumprod (map (fadd (Fin 1)) strategy_returns)).

(** [BacktestEngine.run]. *)
Definition run `{Libm} (e : BacktestEngine) (df : DataFrame) (strategy : Strategy)
  : option BacktestResult :=
  match calculate strategy df with
  | None => None
  | Some result =>
      let sigs := result_signal result in
      let strategy_returns :=
        strategy_returns e (result_close result) (to_series sigs) in
      let equity := equity_of e strategy_returns in
      match calculate_metrics strategy_returns equity (Some sigs) with
      | None => None
      | Some m =>
          Some {| strategy_name := name strategy;
                  result_params := params strategy;
                  metrics := m;
                  hodl_return := calculate_hodl_return df;
                  equity_curve := equity;
                  signals := sigs;
                  result_df := result |}
      end
  end.

(** Columns a result table can be sorted by.  The table has the columns
    of [summary()]: the strategy name, the keys of [params], the eight
    metrics and [hodl_return]; only its numeric columns are modelled, and
    parameter names are taken to differ from the fixed column names. *)
Inductive Column : Type :=
| col_total_return
| col_annual_return
| col_sharpe_ratio
| col_max_drawdown
| col_win_rate
| col_total_trades
| col_profit_factor
| col_avg_trade_return
| col_hodl_return
| col_param (key : string).

Definition pval_float (v : pval) : float :=
  match v with
  | PInt z => of_Z z
  | PFloat q => Fin q
  | PBool b => if b then Fin 1 else Fin 0
  end.

(** The cell of a row in a column; a key the row lacks reads as NaN. *)
Definition cell (c : Column) (row : Summary) : float :=
  match c with
  | col_total_return => total_return (summary_metrics row)
  | col_annual_return => annual_return (summary_metrics row)
  | col_sharpe_ratio => sharpe_ratio (summary_metrics row)
  | col_max_drawdown => max_drawdown (summary_metrics row)
  | col_win_rate => win_rate (summary_metrics row)
  | col_total_trades => of_Z (total_trades (summary_metrics row))
  | col_profit_factor => profit_factor (summary_metrics row)
  | col_avg_trade_return => avg_trade_return (summary_metrics row)
  | col_hodl_return => summary_hodl_return row
  | col_param key =>
      match dict_get (summary_params row) key with
      | Some v => pval_float v
      | None => NaN
      end
  end.

Definition has_key (d : dict) (k : string) : bool :=
  match dict_get d k with Some _ => true | None => false end.

(** [sort_by in results_df.columns]. *)
Definition in_columns (c : Column) (table : list Summary) : bool :=
  match c with
  | col_param key => existsb (fun row => has_key (summary_params row) key) table
  | _ => match table with [] => false | _ => true end
  end.

(** [DataFrame.sort_values(by, ascending=False)] with pandas' default
    sorting algorithm, taken as an interface: the code passes no [kind],
    and the default is not one of the stable ones. *)
Class Pandas : Type := {
  sort_values_desc : (Summary -> float) -> list Summary -> list Summary
}.

(** Descending order with missing values last ([na_position="last"]). *)
Definition key_ge (x y : float) : bool :=
  match x, y with
  | _, NaN => true
  | NaN, _ => false
  | _, _ => negb (flt x y)
  end.

Definition key_order (key : Summary -> float) (a b : Summary) : Prop :=
  key_ge (key a) (key b) = true.

Definition sorted_desc (key : Summary -> float) (l : list Summary) : Prop :=
  StronglySorted (key_order key) l.

(** What pandas promises of a sort. *)
Class PandasSpec (P : Pandas) : Prop := {
  sort_values_perm : forall key l, Permutation l (sort_values_desc key l);
  sort_values_sorted : forall key l, sorted_desc key (sort_values_desc key l)
}.

(** [itertools.product] of the value lists: the last position varies
    fastest. *)
Fixpoint product {A : Type} (lists : list (list A)) : list (list A) :=
  match lists with
  | [] => [[]]
  | l :: rest =>
      flat_map (fun x => map (cons x) (product rest)) l
  end.

(** One iteration of the loop of [grid_search]: the rows it appends. *)
Definition grid_row `{Libm} (e : BacktestEngine) (df : DataFrame)
  (strategy_class : StrategyClass) (kwargs : dict) : list Summary :=
  match strategy_class kwargs with
  | None => []
  | Some strategy =>
      match run e df strategy with
      | None => []
      | Some result => [summary result]
      end
  end.

Definition grid_combinations (param_grid : list (string * list pval))
  : list dict :=
  let param_names := map fst param_grid in
  let param_values := map snd param_grid in
  map (fun values => combine param_names values) (product param_values).

Definition grid_results `{Libm} (e : BacktestEngine) (df : DataFrame)
  (strategy_class : StrategyClass) (param_grid : list (string * list pval))
  : list Summary :=
  flat_map (grid_row e df strategy_class) (grid_combinations param_grid).

(** [BacktestEngine.grid_search]. *)
Definition grid_search `{Libm} `{Pandas} (e : BacktestEngine) (df : DataFrame)
  (strategy_class : StrategyClass) (param_grid : list (string * list pval))
  (sort_by : Column) : list Summary :=
  let results := grid_results e df strategy_class param_grid in
  match results with
  | [] => []
  | _ :: _ =>
      if in_columns sort_by results
      then sort_values_desc (cell sort_by) results
      else results
  end.

(** [int(x)] on a float: truncation towards zero. *)
Definition py_int (x : Q) : Z := Z.quot (Qnum x) (Z.pos (Qden x)).

(** Python slice bounds: a negative index counts from the end. *)
Definition slice_bound (n : nat) (k : Z) : nat :=
  if (k <? 0)%Z then Z.to_nat (Z.of_nat n + k) else Z.to_nat k.

Definition iloc_to {A : Type} (k : Z) (l : list A) : list A :=
  firstn (slice_bound (length l) k) l.

Definition iloc_from {A : Type} (k : Z) (l : list A) : list A :=
  skipn (slice_bound (length l) k) l.

(** The parameter columns of a table, in order of first appearance. *)
Fixpoint add_keys (cols : list string) (d : dict) : list string :=
  match d with
  | [] => cols
  | (k, _) :: r =>
      if existsb (String.eqb k) cols then add_keys cols r
      else add_keys (cols ++ [k]) r
  end.

Definition param_columns (table : list Summary) : list string :=
  fold_left (fun cols row => add_keys cols (summary_params row)) table [].

(** [int(v) if isinstance(v, float) and v == int(v) else v]. *)
Definition restore_int (v : pval) : pval :=
  match v with
  | PFloat q => if Qeq_bool q (inject_Z (py_int q)) then PInt (py_int q) else v
  | _ => v
  end.

(** The dictionary comprehension of [walk_forward] over
    [best_row.items()]: the columns that are keys of the grid, with the
    value the best row has there.  A column the best row lacks holds NaN,
    on which [int] raises.  Only the parameter columns are visited: the
    keys of a grid are taken to differ from the fixed column names. *)
Fixpoint best_params_of (cols : list string) (grid_keys : list string)
  (best_row : Summary) : option dict :=
  match cols with
  | [] => Some []
  | k :: rest =>
      if existsb (String.eqb k) grid_keys then
        match dict_get (summary_params best_row) k with
        | None => None
        | Some v =>
            match best_params_of rest grid_keys best_row with
            | None => None
            | Some d => Some ((k, restore_int v) :: d)
            end
        end
      else best_params_of rest grid_keys best_row
  end.

Record WalkForwardReport : Type := {
  train_period : Z * Z;
  test_period : Z * Z;
  best_params : dict;
  train_sharpe : float;
  train_return : float;
  test_result : BacktestResult
}.

Inductive WalkForward : Type :=
| wf_error (msg : string)
| wf_report (r : WalkForwardReport).

(** First and last index value of a frame; [index[0]] raises on an empty
    one. *)
Definition period (df : DataFrame) : option (Z * Z) :=
  match df, rev df with
  | first :: _, last_bar :: _ => Some (timestamp first, timestamp last_bar)
  | _, _ => None
  end.

(** [BacktestEngine.walk_forward]; [None] stands for a raised exception.
    The product [len(df) * train_ratio] is taken exactly. *)
Definition walk_forward `{Libm} `{Pandas} (e : BacktestEngine) (df : DataFrame)
  (strategy_class : StrategyClass) (param_grid : list (string * list pval))
  (train_ratio : Q) : option WalkForward :=
  let split_idx := py_int (inject_Z (Z.of_nat (length df)) * train_ratio) in
  let train_df := iloc_to split_idx df in
  let test_df := iloc_from split_idx df in
  let train_results :=
    grid_search e train_df strategy_class param_grid col_sharpe_ratio in
  match train_results with
  | [] => Some (wf_error "No valid results in training period")
  | best_row :: _ =>
      match best_params_of (param_columns train_results)
                           (map fst param_grid) best_row with
      | None => None
      | Some best =>
          match strategy_class best with
          | None => None
          | Some strategy =>
              match run e test_df strategy with
              | None => None
              | Some test =>
                  match period train_df, period test_df with
                  | Some trp, Some tep =>
                      Some (wf_report
                        {| train_period := trp;
                           test_period := tep;
                           best_params := best;
                           train_sharpe :=
                             sharpe_ratio (summary_metrics best_row);
                           train_return :=
                             total_return (summary_metrics best_row);
                           test_result := test |})
                  | _, _ => None
                  end
              end
          end
      end
  end.

(* ================================================================== *)
(** ** indicators/technical.py *)
(* ================================================================== *)

(** [close.ewm(span=period, adjust=False).mean()]: the first value is the
    first price, then [y = (1 - alpha) * y + alpha * x] with
    [alpha = 2 / (span + 1)]. *)
Fixpoint ewm_from (alpha : Q) (y : Q) (xs : list Q) : list Q :=
  match xs with
  | [] => []
  | x :: r => let y' := (1 - alpha) * y + alpha * x in y' :: ewm_from alpha y' r
  end.

Definition ewm_mean (alpha : Q) (xs : list Q) : list Q :=
  match xs with
  | [] => []
  | x :: r => x :: ewm_from alpha x r
  end.

(** [ema(df, period)]; pandas raises unless [span >= 1]. *)
Definition ema (df : DataFrame) (period : Z) : option Series :=
  if (period <? 1)%Z then None
  else
    let alpha := 2 / (inject_Z period + 1) in
    Some (map Fin (ewm_mean alpha (map close df))).

(** [s.rolling(window=n).mean()]: missing until [n] observations are in
    the window ([min_periods] defaults to the window). *)
Definition rolling_mean (window : nat) (s : Series) : Series :=
  map (fun i =>
         if (i + 1 <? window)%nat then NaN
         else
           let w := skipn (i + 1 - window) (firstn (i + 1) s) in
           if (count w <? window)%nat then NaN else mean w)
      (seq 0 (length s)).

(** [rsi(df, period)]; pandas raises on a negative window. *)
Definition rsi (df : DataFrame) (period : Z) : option Series :=
  if (period <? 0)%Z then None
  else
    let delta := diff (close_column df) in
    let gain := map (fun d => if fgt d (Fin 0) then d else Fin 0) delta in
    let loss :=
      map fopp (map (fun d => if flt d (Fin 0) then d else Fin 0) delta) in
    let avg_gain := rolling_mean (Z.to_nat period) gain in
    let avg_loss := rolling_mean (Z.to_nat period) loss in
    let rs := zip_with fdiv avg_gain avg_loss in
    Some (map (fun x => (of_Z 100 - of_Z 100 / (Fin 1 + x))%F) rs).

(* ================================================================== *)
(** ** strategies/ema_cross.py *)
(* ================================================================== *)

(** [df.loc[mask, "signal"] = v]. *)
Definition set_where (mask : list bool) (v : Z) (sig : list Z) : list Z :=
  zip_with (fun (m : bool) s => if m then v else s) mask sig.

(** The three lines shared by both strategies: 0, then 1 where the short
    average is above the long one, then -1 where it is below. *)
Definition crossover (ema_short ema_long : Series) : list Z :=
  let sig0 := map (fun _ => 0%Z) ema_short in
  let sig1 := set_where (zip_with fgt ema_short ema_long) 1%Z sig0 in
  set_where (zip_with flt ema_short ema_long) (-1)%Z sig1.

(** [(df["signal"] == 1) & ~ok] applied as [df.loc[..., "signal"] = 0]. *)
Definition suppress_long (ok : list bool) (sig : list Z) : list Z :=
  set_where (zip_with (fun s (o : bool) => (s =? 1)%Z && negb o) sig ok) 0%Z sig.

Definition with_signal (df : DataFrame) (sig : list Z) : SignalFrame :=
  zip_with (fun b s => {| bar := b; signal := s |}) df sig.

Module EMACross.

Record t : Type := {
  short_period : Z;
  long_period : Z;
  trend_period : Z;
  rsi_period : Z;
  rsi_threshold : Z;
  use_trend_filter : bool;
  use_rsi_filter : bool
}.

Definition defaults : t :=
  {| short_period := 5; long_period := 20; trend_period := 60;
     rsi_period := 14; rsi_threshold := 50;
     use_trend_filter := true; use_rsi_filter := true |}.

(** Binding one keyword argument of [__init__]; an unknown keyword is a
    [TypeError].  Values are taken at the annotated type. *)
Definition bind_kwarg (s : t) (k : string) (v : pval) : option t :=
  match v with
  | PInt z =>
      if String.eqb k "short_period" then
        Some {| short_period := z; long_period := long_period s;
                trend_period := trend_period s; rsi_period := rsi_period s;
                rsi_threshold := rsi_threshold s;
                use_trend_filter := use_trend_filter s;
                use_rsi_filter := use_rsi_filter s |}
      else if String.eqb k "long_period" then
        Some {| short_period := short_period s; long_period := z;
                trend_period := trend_period s; rsi_period := rsi_period s;
                rsi_threshold := rsi_threshold s;
                use_trend_filter := use_trend_filter s;
                use_rsi_filter := use_rsi_filter s |}
      else if String.eqb k "trend_period" then
        Some {| short_period := short_period s; long_period := long_period s;
                trend_period := z; rsi_period := rsi_period s;
                rsi_threshold := rsi_threshold s;
                use_trend_filter := use_trend_filter s;
                use_rsi_filter := use_rsi_filter s |}
      else if String.eqb k "rsi_period" then
        Some {| short_period := short_period s; long_period := long_period s;
                trend_period := trend_period s; rsi_period := z;
                rsi_threshold := rsi_threshold s;
                use_trend_filter := use_trend_filter s;
                use_rsi_filter := use_rsi_filter s |}
      else if String.eqb k "rsi_threshold" then
        Some {| short_period := short_period s; long_period := long_period s;
                trend_period := trend_period s; rsi_period := rsi_period s;
                rsi_threshold := z;
                use_trend_filter := use_trend_filter s;
                use_rsi_filter := use_rsi_filter s |}
      else None
  | PBool b =>
      if String.eqb k "use_trend_filter" then
        Some {| short_period := short_period s; long_period := long_period s;
                trend_period := trend_period s; rsi_period := rsi_period s;
                rsi_threshold := rsi_threshold s;
                use_trend_filter := b;
                use_rsi_filter := use_rsi_filter s |}
      else if String.eqb k "use_rsi_filter" then
        Some {| short_period := short_period s; long_period := long_period s;
                trend_period := trend_period s; rsi_period := rsi_period s;
                rsi_threshold := rsi_threshold s;
                use_trend_filter := use_trend_filter s;
                use_rsi_filter := b |}
      else None
  | PFloat _ => None
  end.

Fixpoint init_from (s : t) (kwargs : dict) : option t :=
  match kwargs with
  | [] => Some s
  | (k, v) :: r =>
      match bind_kwarg s k v with
      | None => None
      | Some s' => init_from s' r
      end
  end.

(** [__init__] from the defaults and the keyword arguments. *)
Definition init (kwargs : dict) : option t := init_from defaults kwargs.

Definition show_Z (z : Z) : string := NilZero.string_of_int (Z.to_int z).

Definition name (s : t) : string :=
  ("ema_cross_" ++ show_Z (short_period s) ++ "_" ++ show_Z (long_period s))%string.

(** The [params] property, as the source lists it. *)
Definition params (s : t) : dict :=
  [ ("short_period"%string, PInt (short_period s));
    ("long_period"%string, PInt (long_period s));
    ("trend_period"%string, PInt (trend_period s));
    ("rsi_threshold"%string, PInt (rsi_threshold s));
    ("use_trend_filter"%string, PBool (use_trend_filter s));
    ("use_rsi_filter"%string, PBool (use_rsi_filter s)) ].

Definition min_bars (s : t) : Z :=
  (Z.max (Z.max (short_period s) (long_period s)) (trend_period s) + 10)%Z.

(** The trend filter: [uptrend = df["close"] > df["ema_trend"]]. *)
Definition trend_filter (s : t) (df : DataFrame) (sig : list Z)
  : option (list Z) :=
  if use_trend_filter s then
    match ema df (trend_period s) with
    | None => None
    | Some ema_trend =>
        let uptrend := zip_with fgt (close_column df) ema_trend in
        Some (suppress_long uptrend sig)
    end
  else Some sig.

(** The momentum filter: [rsi_ok = df["rsi"] > self.rsi_threshold]. *)
Definition rsi_filter (s : t) (df : DataFrame) (sig : list Z)
  : option (list Z) :=
  if use_rsi_filter s then
    match rsi df (rsi_period s) with
    | None => None
    | Some rsi_s =>
        let rsi_ok := map (fun x => fgt x (of_Z (rsi_threshold s))) rsi_s in
        Some (suppress_long rsi_ok sig)
    end
  else Some sig.

(** [EMACrossStrategy.calculate]. *)
Definition calculate (s : t) (df : DataFrame) : option SignalFrame :=
  match ema df (short_period s), ema df (long_period s) with
  | Some ema_short, Some ema_long =>
      match trend_filter s df (crossover ema_short ema_long) with
      | None => None
      | Some sig =>
          match rsi_filter s df sig with
          | None => None
          | Some sig' => Some (with_signal df sig')
          end
      end
  | _, _ => None
  end.

Definition strategy (s : t) : Strategy :=
  Build_Strategy (name s) (params s) (calculate s).

End EMACross.

(** The class [EMACrossStrategy], called with keyword arguments. *)
Definition EMACrossStrategy : StrategyClass :=
  fun kwargs => option_map EMACross.strategy (EMACross.init kwargs).

Module SimpleEMACross.

Record t : Type := {
  short_period : Z;
  long_period : Z
}.

Definition name (s : t) : string :=
  ("simple_ema_" ++ EMACross.show_Z (short_period s) ++ "_"
     ++ EMACross.show_Z (long_period s))%string.

Definition params (s : t) : dict :=
  [ ("short_period"%string, PInt (short_period s));
    ("long_period"%string, PInt (long_period s)) ].

Definition min_bars (s : t) : Z := (long_period s + 5)%Z.

(** [SimpleEMACrossStrategy.calculate]. *)
Definition calculate (s : t) (df : DataFrame) : option SignalFrame :=
  match ema df (short_period s), ema df (long_period s) with
  | Some ema_short, Some ema_long =>
      Some (with_signal df (crossover ema_short ema_long))
  | _, _ => None
  end.

Definition strategy (s : t) : Strategy :=
  Build_Strategy (name s) (params s) (calculate s).

End SimpleEMACross.

(* ================================================================== *)
(** ** Instances used to run the model *)
(* ================================================================== *)

(** A sort that meets [PandasSpec], used to run the model on examples:
    an insertion sort that places a row before the rows it may precede. *)
Section InsertionSort.

Variable precedes : float -> float -> bool.
Variable key : Summary -> float.

Fixpoint insert_row (x : Summary) (l : list Summary) : list Summary :=
  match l with
  | [] => [x]
  | y :: r =>
      if precedes (key x) (key y) then x :: y :: r
      else y :: insert_row x r
  end.

Definition insertion_sort (l : list Summary) : list Summary :=
  fold_right insert_row [] l.

End InsertionSort.

Definition precedes_ge (x y : float) : bool := key_ge x y.

Definition pandas_stable : Pandas :=
  {| sort_values_desc := insertion_sort precedes_ge |}.

(** A coarse [Libm] for running examples: powers with the exponent
    truncated to an integer, square roots on a grid of 10^-6. *)
Definition coarse_pow (x y : float) : float :=
  match x, y with
  | Fin a, Fin b => Fin (a ^ Qfloor b)
  | _, _ => NaN
  end.

Definition coarse_sqrt (x : float) : float :=
  match x with
  | Fin a =>
      match a ?= 0 with
      | Lt => NaN
      | _ => Fin (Z.sqrt (Qfloor (a * 1000000000000)) # 1000000)
      end
  | PInf => PInf
  | _ => NaN
  end.

Definition libm_coarse : Libm :=
  {| fpow := coarse_pow; fsqrt := coarse_sqrt |}.

(** Frames for examples: a bar whose four prices are [c], and a frame
    from a list of closes and a list of signals. *)
Definition bar_at (t : Z) (c : Q) : Bar :=
  {| timestamp := t; open := c; high := c; low := c; close := c;
     volume := 1 |}.

Definition bars_of (closes : list Q) : DataFrame :=
  zip_with bar_at (map Z.of_nat (seq 0 (length closes))) closes.

Definition frame_of (closes : list Q) (sigs : list Z) : SignalFrame :=
  with_signal (bars_of closes) sigs.

(** A strategy that returns a given signal column. *)
Definition fixed_signals (sigs : list Z) : Strategy :=
  {| name := "fixed"; params := [];
     calculate := fun df => Some (with_signal df sigs) |}.

Definition default_engine : BacktestEngine :=
  {| fee_rate := 1 # 1000; slippage := 1 # 1000;
     initial_capital := 10000000 |}.

(* ================================================================== *)
(** ** Notions the properties are stated with *)
(* ================================================================== *)

(** Indexing a series; out of range reads as NaN. *)
Definition at_ (s : Series) (t : nat) : float := nth t s NaN.

Definition close_at (df : SignalFrame) (t : nat) : Q :=
  nth t (map (fun r => close (bar r)) df) 0.

Definition signal_at (df : SignalFrame) (t : nat) : Z :=
  nth t (result_signal df) 0%Z.

(** The data contract on prices. *)
Definition positive_closes (df : SignalFrame) : Prop :=
  Forall (fun r => 0 < close (bar r)) df.

(** The series of strategy returns and the equity curve of a frame. *)
Definition frame_returns (e : BacktestEngine) (df : SignalFrame) : Series :=
  strategy_returns e (result_close df) (to_series (result_signal df)).

Definition frame_raw_returns (e : BacktestEngine) (df : SignalFrame)
  : Series :=
  raw_strategy_returns e (result_close df) (to_series (result_signal df)).

Definition frame_equity (e : BacktestEngine) (df : SignalFrame) : Series :=
  equity_of e (frame_returns e df).

(** What lines 83-91 compute for a bar from the two closes and the two
    signals it looks at. *)
Definition fill0 (x : float) : float := if isnan x then Fin 0 else x.

Definition bar_return (e : BacktestEngine) (c_prev c s_prev s : float)
  : float :=
  fill0 ((c / c_prev - Fin 1) * s_prev
         - fabs (fill0 (s - s_prev)) * Fin (total_cost e))%F.

(** Two frames that differ at most in the signal of bar [t]. *)
Definition differ_only_at (t : nat) (df1 df2 : SignalFrame) : Prop :=
  map bar df1 = map bar df2 /\
  forall i, i <> t -> signal_at df1 i = signal_at df2 i.

(** The return the specification credits to bar [t >= 1]. *)
Definition credited_return (e : BacktestEngine) (df : SignalFrame) (t : nat)
  : Q :=
  (close_at df t / close_at df (t - 1) - 1) * inject_Z (signal_at df (t - 1))
  - inject_Z (Z.abs (signal_at df t - signal_at df (t - 1)))
    * (fee_rate e + slippage e).

(** Product of [1 + r] over the first [n] returns. *)
Fixpoint growth (rs : list Q) (n : nat) {struct n} : Q :=
  match n with
  | O => 1
  | S n' =>
      match rs with
      | [] => 1
      | r :: rest => (1 + r) * growth rest n'
      end
  end.

(** Number of bars whose signal differs from the previous bar's. *)
Fixpoint signal_changes_from (prev : Z) (signals : list Z) : nat :=
  match signals with
  | [] => 0
  | s :: r =>
      ((if (s =? prev)%Z then 0 else 1) + signal_changes_from s r)%nat
  end.

Definition signal_changes (signals : list Z) : nat :=
  match signals with
  | [] => 0%nat
  | s :: r => signal_changes_from s r
  end.

(** A series that never decreases from one bar to the next. *)
Definition nondecreasing (s : Series) : Prop :=
  forall i, (S i < length s)%nat -> flt (at_ s (S i)) (at_ s i) = false.

(** Adjacent keys never increase (comparing defined values). *)
Definition non_increasing (key : Summary -> float) (l : list Summary) : Prop :=
  forall i a b, nth_error l i = Some a -> nth_error l (S i) = Some b ->
                flt (key a) (key b) = false.

(** The filters of the filtered crossover at bar [t]: the comparison the
    source makes there, true for a disabled filter. *)
Definition trend_passes (s : EMACross.t) (df : DataFrame) (t : nat) : bool :=
  if EMACross.use_trend_filter s then
    match ema df (EMACross.trend_period s) with
    | Some ema_trend => fgt (at_ (close_column df) t) (at_ ema_trend t)
    | None => false
    end
  else true.

Definition momentum_passes (s : EMACross.t) (df : DataFrame) (t : nat) : bool :=
  if EMACross.use_rsi_filter s then
    match rsi df (EMACross.rsi_period s) with
    | Some rsi_s => fgt (at_ rsi_s t) (of_Z (EMACross.rsi_threshold s))
    | None => false
    end
  else true.

(** The base crossover signal of bar [t], stated on the two averages:
    -1 where the short average is below the long one, +1 where it is
    above, 0 where neither holds. *)
Definition base_signal (s : EMACross.t) (df : DataFrame) (t : nat) : Z :=
  match ema df (EMACross.short_period s), ema df (EMACross.long_period s) with
  | Some ema_short, Some ema_long =>
      if flt (at_ ema_short t) (at_ ema_long t) then (-1)%Z
      else if fgt (at_ ema_short t) (at_ ema_long t) then 1%Z
      else 0%Z
  | _, _ => 0%Z
  end.

(** The unfiltered strategy with the two periods of a filtered one. *)
Definition unfiltered (s : EMACross.t) : SimpleEMACross.t :=
  {| SimpleEMACross.short_period := EMACross.short_period s;
     SimpleEMACross.long_period := EMACross.long_period s |}.

(** Periods pandas accepts. *)
Definition valid_periods (s : EMACross.t) : Prop :=
  (1 <= EMACross.short_period s)%Z /\ (1 <= EMACross.long_period s)%Z /\
  (EMACross.use_trend_filter s = true -> (1 <= EMACross.trend_period s)%Z) /\
  (EMACross.use_rsi_filter s = true -> (0 <= EMACross.rsi_period s)%Z).

(** The rational values the engine computes on finite data: the return
    of bar [t], the running product, the equity curve. *)
Definition q_return (e : BacktestEngine) (df : SignalFrame) (t : nat) : Q :=
  match t with
  | O => 0
  | S t' =>
      (close_at df t / close_at df t' - 1) * inject_Z (signal_at df t')
      - Qabs (inject_Z (signal_at df t) - inject_Z (signal_at df t'))
        * total_cost e
  end.

Definition q_returns (e : BacktestEngine) (df : SignalFrame) : list Q :=
  map (q_return e df) (seq 0 (length df)).

Fixpoint q_accumulate (f : Q -> Q -> Q) (acc : Q) (l : list Q) : list Q :=
  match l with
  | [] => []
  | x :: r => let a := f acc x in a :: q_accumulate f a r
  end.

Definition q_cumprod (l : list Q) : list Q :=
  match l with
  | [] => []
  | x :: r => x :: q_accumulate Qmult x r
  end.

Definition q_equity (e : BacktestEngine) (rs : list Q) : list Q :=
  map (Qmult (initial_capital e)) (q_cumprod (map (Qplus 1) rs)).

(** A series whose every value is zero. *)
Definition all_zero (s : Series) : Prop :=
  Forall (fun r => (r == Fin 0)%F) s.

(** Two facts about [**] and [np.sqrt] that hold of the C library:
    a base of 1 gives 1 for every finite exponent, and the square root of
    0 is 0. *)
Class LibmLaws (L : Libm) : Prop := {
  fpow_one : forall x q, (x == Fin 1)%F -> (fpow x (Fin q) == Fin 1)%F;
  fsqrt_zero : forall x, (x == Fin 0)%F -> (fsqrt x == Fin 0)%F
}.

(** Rational counterparts of [np.maximum], [np.minimum] and of the
    drawdown computed from a running peak [p]. *)
Definition q_maximum (a b : Q) : Q :=
  match a ?= b with Lt => b | _ => a end.

Definition q_minimum (a b : Q) : Q :=
  match b ?= a with Lt => b | _ => a end.

Fixpoint q_drawdown_from (p : Q) (l : list Q) : list Q :=
  match l with
  | [] => []
  | x :: r =>
      let p' := q_maximum p x in (x - p') / p' :: q_drawdown_from p' r
  end.

(** [p <= l[0] <= l[1] <= ...]. *)
Fixpoint q_sorted_from (p : Q) (l : list Q) : Prop :=
  match l with
  | [] => True
  | x :: r => p <= x /\ q_sorted_from x r
  end.

(** The columns of the eight metrics and of [hodl_return]. *)
Definition metric_column (c : Column) : Prop :=
  match c with col_param _ => False | _ => True end.

(** Twelve rising closes, used to run [walk_forward]. *)
Definition rising_closes : list Q :=
  [100; 101; 102; 103; 104; 105; 106; 107; 108; 109; 110; 111].

(** A strategy class whose instances list, in [params], every keyword
    argument a combination of the grid passes to them. *)
Definition exposes_grid_keys (strategy_class : StrategyClass)
  (param_grid : list (string * list pval)) : Prop :=
  forall kwargs s,
    In kwargs (grid_combinations param_grid) ->
    strategy_class kwargs = Some s ->
    forall k v, In (k, v) kwargs -> dict_get (params s) k = Some v.

(** Deciding [exposes_grid_keys] on a given grid. *)
Definition pval_eqb (a b : pval) : bool :=
  match a, b with
  | PInt x, PInt y => (x =? y)%Z
  | PFloat x, PFloat y =>
      (Qnum x =? Qnum y)%Z && (Qden x =? Qden y)%positive
  | PBool x, PBool y => Bool.eqb x y
  | _, _ => false
  end.

Definition lists_kwargs (strategy_class : StrategyClass) (kwargs : dict)
  : bool :=
  match strategy_class kwargs with
  | None => true
  | Some s =>
      forallb (fun kv =>
                 match dict_get (params s) (fst kv) with
                 | Some v => pval_eqb v (snd kv)
                 | None => false
                 end) kwargs
  end.

(** The grid of [scripts/run_backtest.py]. *)
Definition script_grid : list (string * list pval) :=
  [ ("short_period"%string, [PInt 3; PInt 5; PInt 7; PInt 10]);
    ("long_period"%string, [PInt 15; PInt 20; PInt 25; PInt 30]);
    ("rsi_threshold"%string, [PInt 40; PInt 50; PInt 60]) ].

(* ================================================================== *)
(** ** [compare_strategies], [generate_signal] and the other
       indicators *)
(* ================================================================== *)

(** [BacktestEngine.compare_strategies]: one row per strategy whose run
    does not raise. *)
Definition compare_strategies `{Libm} (e : BacktestEngine) (df : DataFrame)
  (strategies : list Strategy) : list Summary :=
  flat_map (fun strategy =>
              match run e df strategy with
              | Some result => [summary result]
              | None => []
              end) strategies.

(** [models/signal.py]. *)
Inductive SignalAction : Type := BUY | SELL | HOLD.

Record Signal : Type := {
  action : SignalAction;
  strength : float;
  reason : string;
  price : option float
}.

(** [BaseStrategy.generate_signal]: the signal of the last bar decides;
    [iloc[-1]] raises on an empty frame.  The hold branch leaves
    [strength] at the dataclass default 1.0. *)
Definition generate_signal (strategy : Strategy) (df : DataFrame)
  : option Signal :=
  match calculate strategy df with
  | None => None
  | Some result =>
      match rev (result_signal result) with
      | [] => None
      | last_signal :: _ =>
          if (0 <? last_signal)%Z then
            Some {| action := BUY; strength := of_Z (Z.abs last_signal);
                    reason := name strategy; price := None |}
          else if (last_signal <? 0)%Z then
            Some {| action := SELL; strength := of_Z (Z.abs last_signal);
                    reason := name strategy; price := None |}
          else
            Some {| action := HOLD; strength := Fin 1;
                    reason := name strategy; price := None |}
      end
  end.

(** [SimpleEMACrossStrategy.__init__] from keyword arguments. *)
Definition simple_bind_kwarg (s : SimpleEMACross.t) (k : string) (v : pval)
  : option SimpleEMACross.t :=
  match v with
  | PInt z =>
      if String.eqb k "short_period" then
        Some {| SimpleEMACross.short_period := z;
                SimpleEMACross.long_period := SimpleEMACross.long_period s |}
      else if String.eqb k "long_period" then
        Some {| SimpleEMACross.short_period := SimpleEMACross.short_period s;
                SimpleEMACross.long_period := z |}
      else None
  | _ => None
  end.

Fixpoint simple_init_from (s : SimpleEMACross.t) (kwargs : dict)
  : option SimpleEMACross.t :=
  match kwargs with
  | [] => Some s
  | (k, v) :: r =>
      match simple_bind_kwarg s k v with
      | None => None
      | Some s' => simple_init_from s' r
      end
  end.

Definition simple_init (kwargs : dict) : option SimpleEMACross.t :=
  simple_init_from
    {| SimpleEMACross.short_period := 5; SimpleEMACross.long_period := 20 |}
    kwargs.

Definition SimpleEMACrossStrategy : StrategyClass :=
  fun kwargs => option_map SimpleEMACross.strategy (simple_init kwargs).

(** [s.rolling(window=n).agg()] for an aggregation of the window:
    missing until the window holds [n] observations. *)
Definition rolling (agg : Series -> float) (window : nat) (s : Series)
  : Series :=
  map (fun i =>
         if (i + 1 <? window)%nat then NaN
         else
           let w := skipn (i + 1 - window) (firstn (i + 1) s) in
           if (count w <? window)%nat then NaN else agg w)
      (seq 0 (length s)).

(** Minimum and maximum of the defined values of a window. *)
Definition series_min (w : Series) : float :=
  match dropna w with
  | [] => NaN
  | x :: r => fold_left np_minimum r x
  end.

Definition series_max (w : Series) : float :=
  match dropna w with
  | [] => NaN
  | x :: r => fold_left np_maximum r x
  end.

(** [s.cumsum()]: a missing value stays missing and is skipped. *)
Fixpoint cumsum_from (acc : float) (s : Series) : Series :=
  match s with
  | [] => []
  | x :: r =>
      if isnan x then NaN :: cumsum_from acc r
      else let a := (acc + x)%F in a :: cumsum_from a r
  end.

Definition cumsum (s : Series) : Series := cumsum_from (Fin 0) s.

Definition high_column (df : DataFrame) : Series :=
  map (fun b => Fin (high b)) df.

Definition low_column (df : DataFrame) : Series :=
  map (fun b => Fin (low b)) df.

Definition volume_column (df : DataFrame) : Series :=
  map (fun b => Fin (volume b)) df.

(** [sma(data, period)]; pandas raises on a negative window. *)
Definition sma (df : DataFrame) (period : Z) : option Series :=
  if (period <? 0)%Z then None
  else Some (rolling mean (Z.to_nat period) (close_column df)).

(** [(data["high"] + data["low"] + data["close"]) / 3]. *)
Definition typical_price (df : DataFrame) : Series :=
  map (fun b => ((Fin (high b) + Fin (low b) + Fin (close b)) / of_Z 3)%F) df.

(** [vwap(data)]: cumulative volume-weighted average price. *)
Definition vwap (df : DataFrame) : Series :=
  zip_with fdiv
    (cumsum (zip_with fmul (typical_price df) (volume_column df)))
    (cumsum (volume_column df)).

(** [pd.concat([a, b, c], axis=1).max(axis=1)]: the largest defined
    value of each row. *)
Fixpoint row_max3 (a b c : Series) : Series :=
  match a, b, c with
  | x :: a', y :: b', z :: c' => series_max [x; y; z] :: row_max3 a' b' c'
  | _, _, _ => []
  end.

(** [atr(data, period)]. *)
Definition true_range (df : DataFrame) : Series :=
  let high_s := high_column df in
  let low_s := low_column df in
  let prev_close := shift1 (close_column df) in
  let tr1 := zip_with fsub high_s low_s in
  let tr2 := map fabs (zip_with fsub high_s prev_close) in
  let tr3 := map fabs (zip_with fsub low_s prev_close) in
  row_max3 tr1 tr2 tr3.

Definition atr (df : DataFrame) (period : Z) : option Series :=
  if (period <? 0)%Z then None
  else Some (rolling mean (Z.to_nat period) (true_range df)).

(** [stochastic(data, k_period, d_period)]: [%K] and [%D]. *)
Definition stochastic (df : DataFrame) (k_period d_period : Z)
  : option (Series * Series) :=
  if (k_period <? 0)%Z || (d_period <? 0)%Z then None
  else
    let lowest_low := rolling series_min (Z.to_nat k_period) (low_column df) in
    let highest_high :=
      rolling series_max (Z.to_nat k_period) (high_column df) in
    let stoch_k :=
      zip_with fdiv
        (map (fmul (of_Z 100)) (zip_with fsub (close_column df) lowest_low))
        (zip_with fsub highest_high lowest_low) in
    let stoch_d := rolling mean (Z.to_nat d_period) stoch_k in
    Some (stoch_k, stoch_d).

(** A strategy whose [calculate] returns on a frame, and a combination
    of keyword arguments that yields such a strategy. *)
Definition calculates (df : DataFrame) (strategy : Strategy) : bool :=
  match calculate strategy df with Some _ => true | None => false end.

Definition evaluates (df : DataFrame) (strategy_class : StrategyClass)
  (kwargs : dict) : bool :=
  match strategy_class kwargs with
  | Some strategy => calculates df strategy
  | None => false
  end.

(** Number of combinations of a grid: the product of the lengths of its
    value lists. *)
Definition grid_size (param_grid : list (string * list pval)) : nat :=
  fold_right (fun kv n => (length (snd kv) * n)%nat) 1%nat param_grid.
(** Closes that rise, or fall, from every bar to the next. *)
Fixpoint rising_from (p : Q) (l : list Q) : Prop :=
  match l with
  | [] => True
  | x :: r => p < x /\ rising_from x r
  end.

Definition rising (l : list Q) : Prop :=
  match l with [] => True | x :: r => rising_from x r end.

Fixpoint falling_from (p : Q) (l : list Q) : Prop :=
  match l with
  | [] => True
  | x :: r => x < p /\ falling_from x r
  end.

Definition falling (l : list Q) : Prop :=
  match l with [] => True | x :: r => falling_from x r end.

(** A signal that is a position: short, flat or long. *)
Definition is_position (z : Z) : Prop := z = (-1)%Z \/ z = 0%Z \/ z = 1%Z.

(** [EMACrossStrategy] rebuilt with another [rsi_period]. *)
Definition with_rsi_period (s : EMACross.t) (z : Z) : EMACross.t :=
  {| EMACross.short_period := EMACross.short_period s;
     EMACross.long_period := EMACross.long_period s;
     EMACross.trend_period := EMACross.trend_period s;
     EMACross.rsi_period := z;
     EMACross.rsi_threshold := EMACross.rsi_threshold s;
     EMACross.use_trend_filter := EMACross.use_trend_filter s;
     EMACross.use_rsi_filter := EMACross.use_rsi_filter s |}.
(** Values between two bounds, and values that are missing or between
    them. *)
Definition within (lo hi : Q) (x : float) : Prop :=
  match x with Fin q => lo <= q /\ q <= hi | _ => False end.

Definition nan_or_within (lo hi : Q) (x : float) : Prop :=
  x = NaN \/ within lo hi x.

(** The [w] values ending at index [t]. *)
Definition window {A : Type} (w t : nat) (l : list A) : list A :=
  skipn (t + 1 - w) (firstn (t + 1) l).

Definition q_mean (l : list Q) : Q :=
  fold_left Qplus l 0 / inject_Z (Z.of_nat (length l)).

(** A value that is missing or not negative. *)
Definition nan_or_nonneg (x : float) : Prop :=
  x = NaN \/ exists q, x = Fin q /\ 0 <= q.

(** Rational typical price of a bar. *)
Definition q_typical (b : Bar) : Q := (high b + low b + close b) / 3.
(** [macd(data, fast, slow, signal)]: line, signal line and histogram.
    The three averages are taken on defined values, as in [ema]; pandas
    raises unless every span is at least 1. *)
Definition macd (df : DataFrame) (fast slow signal_period : Z)
  : option (Series * Series * Series) :=
  if (fast <? 1)%Z || (slow <? 1)%Z || (signal_period <? 1)%Z then None
  else
    let ema_fast := ewm_mean (2 / (inject_Z fast + 1)) (map close df) in
    let ema_slow := ewm_mean (2 / (inject_Z slow + 1)) (map close df) in
    let macd_line := zip_with Qminus ema_fast ema_slow in
    let signal_line :=
      ewm_mean (2 / (inject_Z signal_period + 1)) macd_line in
    let histogram := zip_with Qminus macd_line signal_line in
    Some (map Fin macd_line, map Fin signal_line, map Fin histogram).

(** The sign of a value as a position. *)
Definition sign_Z (x : float) : Z :=
  match sign x with Gt => 1%Z | Lt => (-1)%Z | Eq => 0%Z end.
(** The same engine with another initial capital. *)
Definition with_capital (e : BacktestEngine) (c : Q) : BacktestEngine :=
  {| fee_rate := fee_rate e; slippage := slippage e; initial_capital := c |}.
(** [bollinger_bands(data, period, std_dev)]: upper, middle and lower
    band. *)
Definition bollinger_bands `{Libm} (df : DataFrame) (period : Z) (std_dev : Q)
  : option (Series * Series * Series) :=
  if (period <? 0)%Z then None
  else
    let middle := rolling mean (Z.to_nat period) (close_column df) in
    let std_s := rolling std (Z.to_nat period) (close_column df) in
    let width := map (fun s => (s * Fin std_dev)%F) std_s in
    let upper := zip_with fadd middle width in
    let lower := zip_with fsub middle width in
    Some (upper, middle, lower).

(* ================================================================== *)
(** * Lemmas *)
(* ================================================================== *)

(** ** Lists *)

Lemma length_zip_with {A B C : Type} (f : A -> B -> C) l1 l2 :
  length (zip_with f l1 l2) = Nat.min (length l1) (length l2).
Proof.
  revert l2; induction l1 as [|a l1 IH]; intros [|b l2]; simpl; auto.
Qed.

Lemma nth_zip_with {A B C : Type} (f : A -> B -> C) d1 d2 d l1 l2 t :
  (t < length l1)%nat -> (t < length l2)%nat ->
  nth t (zip_with f l1 l2) d = f (nth t l1 d1) (nth t l2 d2).
Proof.
  revert l2 t; induction l1 as [|a l1 IH]; intros [|b l2] [|t]; simpl;
    intros H1 H2; try lia; auto.
  apply IH; lia.
Qed.

Lemma nth_map_in {A B : Type} (f : A -> B) d d' l t :
  (t < length l)%nat -> nth t (map f l) d' = f (nth t l d).
Proof.
  revert t; induction l as [|a l IH]; intros [|t]; simpl; intros H;
    try lia; auto.
  apply IH; lia.
Qed.

Lemma length_removelast_cons {A : Type} (x : A) l :
  length (removelast (x :: l)) = length l.
Proof.
  revert x; induction l as [|y l IH]; intros x; auto.
  change (removelast (x :: y :: l)) with (x :: removelast (y :: l)).
  cbn [length]. f_equal. apply IH.
Qed.

Lemma nth_removelast {A : Type} (l : list A) t d :
  (S t < length l)%nat -> nth t (removelast l) d = nth t l d.
Proof.
  revert t; induction l as [|x l IH]; intros t H; simpl in H; try lia.
  destruct l as [|y l]; simpl in H; try lia.
  change (removelast (x :: y :: l)) with (x :: removelast (y :: l)).
  destruct t as [|t]; auto.
  simpl nth. apply IH. simpl; lia.
Qed.

Lemma length_shift1 s : length (shift1 s) = length s.
Proof.
  destruct s as [|x s]; auto.
  unfold shift1. cbn [length]. f_equal. apply length_removelast_cons.
Qed.

Lemma at_shift1_0 s : at_ (shift1 s) 0 = NaN.
Proof. destruct s; reflexivity. Qed.

Lemma at_shift1_S s t :
  (S t < length s)%nat -> at_ (shift1 s) (S t) = at_ s t.
Proof.
  intros H. destruct s as [|x s]; simpl in H; try lia.
  unfold at_, shift1.
  rewrite <- (nth_removelast (x :: s) t NaN) by (simpl; lia).
  reflexivity.
Qed.

Lemma length_diff s : length (diff s) = length s.
Proof.
  unfold diff. rewrite length_zip_with, length_shift1. lia.
Qed.

Lemma at_diff_0 s : s <> [] -> at_ (diff s) 0 = NaN.
Proof.
  destruct s as [|x s]; [congruence|]. intros _.
  unfold at_, diff. simpl. destruct x; reflexivity.
Qed.

Lemma at_diff_S s t :
  (S t < length s)%nat -> at_ (diff s) (S t) = (at_ s (S t) - at_ s t)%F.
Proof.
  intros H. unfold diff, at_ at 1.
  rewrite (nth_zip_with fsub NaN NaN NaN);
    [| lia | rewrite length_shift1; lia].
  fold (at_ s (S t)). fold (at_ (shift1 s) (S t)).
  now rewrite at_shift1_S.
Qed.

Lemma length_pct_change s : length (pct_change s) = length s.
Proof.
  unfold pct_change.
  rewrite length_map, length_zip_with, length_shift1. lia.
Qed.

Lemma at_pct_change_0 s : s <> [] -> at_ (pct_change s) 0 = NaN.
Proof.
  destruct s as [|x s]; [congruence|]. intros _.
  unfold at_, pct_change. simpl. destruct x; reflexivity.
Qed.

Lemma at_pct_change_S s t :
  (S t < length s)%nat ->
  at_ (pct_change s) (S t) = (at_ s (S t) / at_ s t - Fin 1)%F.
Proof.
  intros H. unfold pct_change, at_ at 1.
  rewrite (nth_map_in (fun x => (x - Fin 1)%F) NaN NaN);
    [| rewrite length_zip_with, length_shift1; lia].
  rewrite (nth_zip_with fdiv NaN NaN NaN);
    [| lia | rewrite length_shift1; lia].
  fold (at_ s (S t)). fold (at_ (shift1 s) (S t)).
  now rewrite at_shift1_S.
Qed.

Lemma length_fillna v s : length (fillna v s) = length s.
Proof. apply length_map. Qed.

Lemma at_fillna v s t :
  (t < length s)%nat ->
  at_ (fillna v s) t = if isnan (at_ s t) then v else at_ s t.
Proof.
  intros H. unfold at_, fillna.
  now rewrite (nth_map_in (fun x => if isnan x then v else x) NaN NaN).
Qed.

Lemma dropna_fillna_0 s : dropna (fillna (Fin 0) s) = fillna (Fin 0) s.
Proof.
  induction s as [|x s IH]; auto.
  simpl. destruct x; simpl; now rewrite IH.
Qed.

Lemma length_position_changes s : length (position_changes s) = length s.
Proof.
  unfold position_changes. now rewrite length_map, length_fillna, length_diff.
Qed.

(** ** The return credited to one bar *)

Lemma length_raw_strategy_returns e cs ss :
  length cs = length ss -> length (raw_strategy_returns e cs ss) = length cs.
Proof.
  intros H. unfold raw_strategy_returns.
  rewrite !length_zip_with, length_map, length_pct_change, length_shift1,
    length_position_changes. lia.
Qed.

Lemma length_strategy_returns e cs ss :
  length cs = length ss -> length (strategy_returns e cs ss) = length cs.
Proof.
  intros H. unfold strategy_returns.
  now rewrite length_fillna, length_raw_strategy_returns.
Qed.

Lemma at_raw_strategy_returns_0 e cs ss :
  cs <> [] -> length cs = length ss ->
  at_ (raw_strategy_returns e cs ss) 0 = NaN.
Proof.
  intros Hne Hlen. unfold raw_strategy_returns, at_.
  destruct cs as [|c cs]; [congruence|].
  destruct ss as [|s ss]; [discriminate|].
  simpl. destruct c; destruct s; reflexivity.
Qed.

Lemma at_strategy_returns_0 e cs ss :
  cs <> [] -> length cs = length ss ->
  at_ (strategy_returns e cs ss) 0 = Fin 0.
Proof.
  intros Hne Hlen. unfold strategy_returns.
  rewrite at_fillna.
  - now rewrite at_raw_strategy_returns_0.
  - rewrite length_raw_strategy_returns by assumption.
    destruct cs; [congruence | simpl; lia].
Qed.

Lemma at_strategy_returns_S e cs ss t :
  length cs = length ss -> (S t < length cs)%nat ->
  at_ (strategy_returns e cs ss) (S t)
  = bar_return e (at_ cs t) (at_ cs (S t)) (at_ ss t) (at_ ss (S t)).
Proof.
  intros Hlen Ht. unfold strategy_returns.
  rewrite at_fillna by (rewrite length_raw_strategy_returns; auto).
  unfold bar_return, fill0 at 1.
  assert (Hraw : at_ (raw_strategy_returns e cs ss) (S t)
                 = ((at_ cs (S t) / at_ cs t - Fin 1) * at_ ss t
                    - fabs (fill0 (at_ ss (S t) - at_ ss t))
                      * Fin (total_cost e))%F).
  { unfold raw_strategy_returns, at_ at 1.
    rewrite (nth_zip_with fsub NaN NaN NaN).
    2:{ rewrite length_zip_with, length_pct_change, length_shift1. lia. }
    2:{ rewrite length_map, length_position_changes. lia. }
    rewrite (nth_zip_with fmul NaN NaN NaN).
    2:{ rewrite length_pct_change. lia. }
    2:{ rewrite length_shift1. lia. }
    rewrite (nth_map_in (fun pc => (pc * Fin (total_cost e))%F) NaN NaN).
    2:{ rewrite length_position_changes. lia. }
    unfold position_changes.
    rewrite (nth_map_in fabs NaN NaN).
    2:{ rewrite length_fillna, length_diff. lia. }
    fold (at_ (pct_change cs) (S t)). fold (at_ (shift1 ss) (S t)).
    fold (at_ (fillna (Fin 0) (diff ss)) (S t)).
    rewrite at_pct_change_S by lia.
    rewrite at_shift1_S by lia.
    rewrite at_fillna by (rewrite length_diff; lia).
    rewrite at_diff_S by lia.
    reflexivity. }
  now rewrite Hraw.
Qed.

(** ** Frames *)

Lemma length_result_close df : length (result_close df) = length df.
Proof. apply length_map. Qed.

Lemma length_frame_signals df :
  length (to_series (result_signal df)) = length df.
Proof. unfold to_series, result_signal. now rewrite !length_map. Qed.

Lemma at_result_close df t :
  (t < length df)%nat -> at_ (result_close df) t = Fin (close_at df t).
Proof.
  intros H. unfold at_, result_close, close_at.
  rewrite (nth_map_in (fun r => Fin (close (bar r))) {| bar := bar_at 0 0; signal := 0 |} NaN)
    by assumption.
  f_equal. symmetry.
  now apply (nth_map_in (fun r => close (bar r))).
Qed.

Lemma at_frame_signals df t :
  (t < length df)%nat ->
  at_ (to_series (result_signal df)) t = of_Z (signal_at df t).
Proof.
  intros H. unfold at_, to_series, signal_at.
  apply nth_map_in. unfold result_signal. now rewrite length_map.
Qed.

Lemma length_frame_returns e df : length (frame_returns e df) = length df.
Proof.
  unfold frame_returns. rewrite length_strategy_returns.
  - apply length_result_close.
  - now rewrite length_result_close, length_frame_signals.
Qed.

Lemma at_frame_returns_0 e df :
  df <> [] -> at_ (frame_returns e df) 0 = Fin 0.
Proof.
  intros H. unfold frame_returns. apply at_strategy_returns_0.
  - destruct df; [congruence | discriminate].
  - now rewrite length_result_close, length_frame_signals.
Qed.

Lemma at_frame_returns_S e df t :
  (S t < length df)%nat ->
  at_ (frame_returns e df) (S t)
  = bar_return e (Fin (close_at df t)) (Fin (close_at df (S t)))
      (of_Z (signal_at df t)) (of_Z (signal_at df (S t))).
Proof.
  intros H. unfold frame_returns.
  rewrite at_strategy_returns_S.
  - rewrite !at_result_close, !at_frame_signals by lia. reflexivity.
  - now rewrite length_result_close, length_frame_signals.
  - now rewrite length_result_close.
Qed.

(** ** Floats *)

Lemma feq_refl x : (x == x)%F.
Proof. destruct x; simpl; auto. reflexivity. Qed.

Lemma feq_sym x y : (x == y)%F -> (y == x)%F.
Proof. destruct x, y; simpl; auto. intros H; now symmetry. Qed.

Lemma feq_trans x y z : (x == y)%F -> (y == z)%F -> (x == z)%F.
Proof.
  destruct x, y, z; simpl; auto; try tauto.
  intros H1 H2; now rewrite H1.
Qed.

Lemma Qabs_inject_Z_sub a b :
  Qabs (inject_Z a - inject_Z b) == inject_Z (Z.abs (a - b)).
Proof.
  unfold Qeq, Qabs, Qminus, Qplus, Qopp, inject_Z. simpl. lia.
Qed.

Lemma Qeq_bool_false_pos q : 0 < q -> Qeq_bool q 0 = false.
Proof.
  intros H. destruct (Qeq_bool q 0) eqn:E; auto.
  apply Qeq_bool_eq in E. rewrite E in H. discriminate.
Qed.

(** The return of a bar on finite data. *)
Lemma bar_return_finite e cp c sp s :
  0 < cp ->
  bar_return e (Fin cp) (Fin c) (of_Z sp) (of_Z s)
  = Fin ((c / cp - 1) * inject_Z sp
         - Qabs (inject_Z s - inject_Z sp) * total_cost e).
Proof.
  intros H. unfold bar_return, of_Z. simpl.
  now rewrite (Qeq_bool_false_pos _ H).
Qed.

Lemma bar_return_cost_feq e cp c sp s1 s2 :
  Qabs (inject_Z s1 - inject_Z sp) * total_cost e
  == Qabs (inject_Z s2 - inject_Z sp) * total_cost e ->
  (bar_return e cp c (of_Z sp) (of_Z s1)
   == bar_return e cp c (of_Z sp) (of_Z s2))%F.
Proof.
  intros H. unfold bar_return, of_Z.
  set (x := ((c / cp - Fin 1) * Fin (inject_Z sp))%F).
  simpl. destruct x; simpl; auto; try reflexivity.
  now rewrite H.
Qed.

(* ================================================================== *)
(** * C1: the one-bar lag *)
(* ================================================================== *)

Lemma differ_only_at_length t df1 df2 :
  differ_only_at t df1 df2 -> length df1 = length df2.
Proof.
  intros [H _]. rewrite <- (length_map bar df1), H. apply length_map.
Qed.

Lemma differ_only_at_close t df1 df2 i :
  differ_only_at t df1 df2 -> close_at df1 i = close_at df2 i.
Proof.
  intros [H _]. unfold close_at.
  rewrite <- !(map_map bar close). now rewrite H.
Qed.

(** C1, as amended.  Two runs whose frames differ only in the signal of
    bar [t] credit the same return to bar [t] when [t] is the first bar,
    when [fee_rate + slippage] is zero, or when the size of the position
    change at [t] is the same in both: besides [signal[t-1]] and the two
    closes, the return of bar [t] depends on [signal[t]] through the
    transaction cost, and through nothing else. *)
Theorem lag_invariant_up_to_cost (e : BacktestEngine) (df1 df2 : SignalFrame)
  (t : nat) :
  differ_only_at t df1 df2 ->
  (t < length df1)%nat ->
  (t = 0%nat \/ total_cost e == 0 \/
   Z.abs (signal_at df1 t - signal_at df1 (t - 1))
   = Z.abs (signal_at df2 t - signal_at df2 (t - 1))) ->
  (at_ (frame_returns e df1) t == at_ (frame_returns e df2) t)%F.
Proof.
  intros Hd Ht Hc.
  pose proof (differ_only_at_length t df1 df2 Hd) as Hlen.
  destruct t as [|t].
  - rewrite !at_frame_returns_0.
    + apply feq_refl.
    + destruct df2; [simpl in *; lia | discriminate].
    + destruct df1; [simpl in *; lia | discriminate].
  - rewrite !at_frame_returns_S by lia.
    rewrite <- !(differ_only_at_close (S t) df1 df2 _ Hd).
    destruct Hd as [_ Hs].
    assert (Hprev : signal_at df2 t = signal_at df1 t)
      by (symmetry; apply Hs; lia).
    replace (S t - 1)%nat with t in Hc by lia.
    rewrite Hprev in *.
    apply bar_return_cost_feq.
    destruct Hc as [Hc|[Hc|Hc]]; [discriminate | |].
    + rewrite Hc. ring.
    + rewrite !Qabs_inject_Z_sub, Hc. reflexivity.
Qed.

Lemma lag_invariant_up_to_cost_witness :
  let e := {| fee_rate := 0; slippage := 0; initial_capital := 1000 |} in
  let df1 := frame_of [100; 110] [1; 0]%Z in
  let df2 := frame_of [100; 110] [1; 1]%Z in
  differ_only_at 1 df1 df2 /\
  (at_ (frame_returns e df1) 1 == at_ (frame_returns e df2) 1)%F.
Proof.
  intros e df1 df2.
  assert (Hd : differ_only_at 1 df1 df2).
  { split; [reflexivity|].
    intros [|[|i]] Hi; try reflexivity; congruence. }
  split; [exact Hd|].
  apply (lag_invariant_up_to_cost e df1 df2 1 Hd).
  - simpl; lia.
  - right; left. reflexivity.
Defined.

(** C1 as stated fails: with the default costs, changing only
    [signal[1]] from 0 to 1 changes the return credited to bar 1 from 0
    to -0.002. *)
Lemma lag_invariant_counterexample :
  let df1 := frame_of [100; 100] [0; 0]%Z in
  let df2 := frame_of [100; 100] [0; 1]%Z in
  differ_only_at 1 df1 df2 /\
  (at_ (frame_returns default_engine df1) 1 == Fin 0)%F /\
  (at_ (frame_returns default_engine df2) 1 == Fin (- (2 # 1000)))%F /\
  ~ (at_ (frame_returns default_engine df1) 1
     == at_ (frame_returns default_engine df2) 1)%F.
Proof.
  intros df1 df2. repeat split.
  - intros [|[|i]] Hi; try reflexivity; congruence.
  - vm_compute. intros H; discriminate H.
Qed.

(* ================================================================== *)
(** * C2: the return of a bar and the equity curve *)
(* ================================================================== *)

Lemma positive_close_at df t :
  positive_closes df -> (t < length df)%nat -> 0 < close_at df t.
Proof.
  intros H Ht. unfold close_at.
  rewrite (nth_map_in (fun r => close (bar r))
             {| bar := bar_at 0 0; signal := 0 |} 0) by assumption.
  unfold positive_closes in H. rewrite Forall_forall in H.
  apply H, nth_In, Ht.
Qed.

Lemma length_q_returns e df : length (q_returns e df) = length df.
Proof. unfold q_returns. now rewrite length_map, length_seq. Qed.

Lemma nth_q_returns e df t :
  (t < length df)%nat -> nth t (q_returns e df) 0 = q_return e df t.
Proof.
  intros H. unfold q_returns.
  rewrite (nth_map_in (q_return e df) 0%nat 0) by now rewrite length_seq.
  now rewrite seq_nth.
Qed.

(** On positive prices every strategy return is a rational. *)
Lemma frame_returns_finite e df :
  positive_closes df -> frame_returns e df = map Fin (q_returns e df).
Proof.
  intros Hpos.
  apply (nth_ext _ _ NaN NaN).
  - now rewrite length_map, length_frame_returns, length_q_returns.
  - intros t Ht. rewrite length_frame_returns in Ht.
    rewrite (nth_map_in Fin 0 NaN) by now rewrite length_q_returns.
    rewrite nth_q_returns by assumption.
    fold (at_ (frame_returns e df) t).
    destruct t as [|t].
    + rewrite at_frame_returns_0; [reflexivity|].
      destruct df; [simpl in Ht; lia | discriminate].
    + rewrite at_frame_returns_S by assumption.
      apply bar_return_finite, positive_close_at; [assumption | lia].
Qed.

Lemma q_return_credited e df t :
  (1 <= t)%nat -> q_return e df t == credited_return e df t.
Proof.
  intros H. destruct t as [|t]; [lia|].
  unfold q_return, credited_return, total_cost.
  replace (S t - 1)%nat with t by lia.
  now rewrite Qabs_inject_Z_sub.
Qed.

Lemma accumulate_fmul_finite p l :
  accumulate fmul (Fin p) (map Fin l) = map Fin (q_accumulate Qmult p l).
Proof.
  revert p; induction l as [|x l IH]; intros p; simpl; auto.
  now rewrite IH.
Qed.

Lemma cumprod_from_accumulate p s :
  Forall (fun x => isnan x = false) s ->
  cumprod_from (Some p) s = accumulate fmul p s.
Proof.
  intros H; revert p; induction H as [|x s Hx _ IH]; intros p; simpl; auto.
  rewrite Hx. now rewrite IH.
Qed.

Lemma Forall_not_nan_finite l :
  Forall (fun x => isnan x = false) (map Fin l).
Proof. induction l; simpl; constructor; auto. Qed.

Lemma cumprod_finite l : cumprod (map Fin l) = map Fin (q_cumprod l).
Proof.
  destruct l as [|x l]; auto.
  unfold cumprod. simpl.
  rewrite cumprod_from_accumulate by apply Forall_not_nan_finite.
  now rewrite accumulate_fmul_finite.
Qed.

Lemma equity_of_finite e rs :
  equity_of e (map Fin rs) = map Fin (q_equity e rs).
Proof.
  unfold equity_of, q_equity.
  rewrite map_map.
  change (map (fun x => (Fin 1 + Fin x)%F) rs)
    with (map (fun x => Fin (1 + x)) rs).
  rewrite <- (map_map (Qplus 1) Fin), cumprod_finite, !map_map.
  reflexivity.
Qed.

Lemma length_q_accumulate f p l : length (q_accumulate f p l) = length l.
Proof. revert p; induction l; intros p; simpl; auto. Qed.

Lemma length_q_equity e rs : length (q_equity e rs) = length rs.
Proof.
  unfold q_equity. rewrite length_map.
  destruct rs as [|r rs]; auto.
  simpl. now rewrite length_q_accumulate, length_map.
Qed.

Lemma nth_q_accumulate_growth p rs t :
  (t < length rs)%nat ->
  nth t (q_accumulate Qmult p (map (Qplus 1) rs)) 0 == p * growth rs (S t).
Proof.
  revert p t; induction rs as [|r rs IH]; intros p t Ht; simpl in Ht; [lia|].
  destruct t as [|t].
  - cbn [map q_accumulate nth growth]. ring.
  - cbn [map q_accumulate nth].
    rewrite IH by lia.
    change (growth (r :: rs) (S (S t))) with ((1 + r) * growth rs (S t)).
    ring.
Qed.

Lemma nth_q_equity e rs t :
  (t < length rs)%nat ->
  nth t (q_equity e rs) 0 == initial_capital e * growth rs (S t).
Proof.
  intros Ht. unfold q_equity.
  rewrite (nth_map_in (Qmult (initial_capital e)) 0 0).
  2:{ destruct rs as [|r rs]; [simpl in Ht; lia|].
      simpl. rewrite length_q_accumulate, length_map. simpl in Ht. lia. }
  apply Qmult_comp; [reflexivity|].
  destruct rs as [|r rs]; [simpl in Ht; lia|].
  destruct t as [|t].
  - cbn [map q_cumprod nth growth]. ring.
  - cbn [map q_cumprod nth].
    rewrite nth_q_accumulate_growth by (simpl in Ht; lia).
    reflexivity.
Qed.

(** ** [run] returns *)

Lemma length_accumulate f p s : length (accumulate f p s) = length s.
Proof. revert p; induction s; intros p; simpl; auto. Qed.

Lemma length_maximum_accumulate s :
  length (maximum_accumulate s) = length s.
Proof. destruct s; simpl; auto. now rewrite length_accumulate. Qed.

Lemma length_drawdown s : length (drawdown s) = length s.
Proof.
  unfold drawdown.
  rewrite !length_zip_with, length_maximum_accumulate. lia.
Qed.

Lemma length_cumprod_from acc s : length (cumprod_from acc s) = length s.
Proof.
  revert acc; induction s as [|x s IH]; intros acc; simpl; auto.
  destruct (isnan x); simpl; now rewrite IH.
Qed.

Lemma length_equity_of e s : length (equity_of e s) = length s.
Proof.
  unfold equity_of, cumprod.
  now rewrite length_map, length_cumprod_from, length_map.
Qed.

Lemma length_frame_equity e df : length (frame_equity e df) = length df.
Proof.
  unfold frame_equity. now rewrite length_equity_of, length_frame_returns.
Qed.

(** The metrics calculator returns unless the return series is
    non-empty and the equity curve is empty. *)
Lemma calculate_metrics_returns `{Libm} returns equity sigs :
  equity <> [] \/ dropna returns = [] ->
  exists m, calculate_metrics returns equity sigs = Some m.
Proof.
  intros Hdom. unfold calculate_metrics.
  destruct (length (dropna returns) =? 0)%nat eqn:E; [eauto|].
  destruct Hdom as [Hne|Hempty].
  - unfold max_drawdown_of.
    destruct (np_min (drawdown equity)) eqn:Emin; [eauto|].
    exfalso. unfold np_min in Emin.
    destruct (drawdown equity) eqn:Ed; [|discriminate].
    apply (f_equal (@length float)) in Ed.
    rewrite length_drawdown in Ed. destruct equity; [congruence|discriminate].
  - rewrite Hempty in E. discriminate.
Qed.

(** [run] returns whenever the strategy does, and its result holds the
    equity curve and the metrics of the frame the strategy returned. *)
Lemma run_returns `{Libm} e bars strategy df :
  calculate strategy bars = Some df ->
  exists r, run e bars strategy = Some r /\
            equity_curve r = frame_equity e df /\
            signals r = result_signal df /\
            result_df r = df /\
            result_params r = params strategy /\
            hodl_return r = calculate_hodl_return bars /\
            calculate_metrics (frame_returns e df) (frame_equity e df)
              (Some (result_signal df)) = Some (metrics r).
Proof.
  intros Hc. unfold run. rewrite Hc.
  fold (frame_returns e df). fold (frame_equity e df).
  destruct (calculate_metrics_returns (frame_returns e df) (frame_equity e df)
              (Some (result_signal df))) as [m Hm].
  - destruct df as [|r df]; [right; reflexivity | left].
    intros Heq. apply (f_equal (@length float)) in Heq.
    rewrite length_frame_equity in Heq. discriminate.
  - rewrite Hm. eexists; repeat split; reflexivity || assumption.
Qed.

(** C2.  On a frame with positive prices the strategy returns are
    rationals [rs] with, for every bar [t >= 1],
    [rs[t] = (close[t]/close[t-1] - 1) * signal[t-1]
             - |signal[t] - signal[t-1]| * (fee_rate + slippage)];
    the first bar carries no position change and no return, and the
    equity curve of the run is [initial_capital] times the running
    product of [1 + rs], which is [initial_capital] on the first bar.
    The costs need not be non-negative for this. *)
Theorem strategy_return_and_equity `{Libm} (e : BacktestEngine)
  (bars : DataFrame) (strategy : Strategy) (df : SignalFrame) :
  calculate strategy bars = Some df ->
  positive_closes df ->
  exists r rs,
    run e bars strategy = Some r /\
    frame_returns e df = map Fin rs /\
    (forall t, (1 <= t < length df)%nat ->
               nth t rs 0 == credited_return e df t) /\
    (df <> [] ->
     at_ (position_changes (to_series (result_signal df))) 0 = Fin 0 /\
     nth 0 rs 0 == 0) /\
    (forall t, (t < length df)%nat ->
               (at_ (equity_curve r) t
                == Fin (initial_capital e * growth rs (S t)))%F) /\
    (df <> [] -> (at_ (equity_curve r) 0 == Fin (initial_capital e))%F).
Proof.
  intros Hc Hpos.
  destruct (run_returns e bars strategy df Hc) as (r & Hrun & Heq & _).
  exists r, (q_returns e df).
  assert (Hfin := frame_returns_finite e df Hpos).
  assert (Hequity : equity_curve r = map Fin (q_equity e (q_returns e df))).
  { rewrite Heq. unfold frame_equity. rewrite Hfin. apply equity_of_finite. }
  assert (Hat : forall t, (t < length df)%nat ->
            (at_ (equity_curve r) t
             == Fin (initial_capital e * growth (q_returns e df) (S t)))%F).
  { intros t Ht. rewrite Hequity. unfold at_.
    rewrite (nth_map_in Fin 0 NaN)
      by now rewrite length_q_equity, length_q_returns.
    simpl. apply nth_q_equity. now rewrite length_q_returns. }
  split; [exact Hrun|]. split; [exact Hfin|].
  split; [|split; [|split]].
  - intros t [H1 H2]. rewrite nth_q_returns by assumption.
    now apply q_return_credited.
  - intros Hne. split.
    + destruct df as [|row df]; [congruence|].
      unfold at_, position_changes, to_series, result_signal, diff. simpl.
      reflexivity.
    + rewrite nth_q_returns; [reflexivity|].
      destruct df; [congruence | simpl; lia].
  - exact Hat.
  - intros Hne.
    assert (Hlen : (0 < length df)%nat)
      by (destruct df; [congruence | simpl; lia]).
    eapply feq_trans; [apply Hat, Hlen|].
    cbn [feq].
    destruct (q_returns e df) eqn:E.
    + apply (f_equal (@length Q)) in E. rewrite length_q_returns in E.
      simpl in E. lia.
    + assert (Hq : q == 0).
      { change q with (nth 0 (q :: l) 0). rewrite <- E.
        rewrite nth_q_returns by assumption. reflexivity. }
      cbn [growth]. rewrite Hq. ring.
Qed.

Lemma strategy_return_and_equity_witness :
  let bars := bars_of [100; 110; 121] in
  let df := frame_of [100; 110; 121] [1; 1; 0]%Z in
  positive_closes df /\
  exists r rs,
    @run libm_coarse default_engine bars (fixed_signals [1; 1; 0]%Z) = Some r /\
    frame_returns default_engine df = map Fin rs /\
    nth 2 rs 0 == credited_return default_engine df 2.
Proof.
  intros bars df.
  assert (Hpos : positive_closes df).
  { unfold positive_closes, df. simpl. repeat constructor. }
  split; [exact Hpos|].
  destruct (@strategy_return_and_equity libm_coarse default_engine bars
              (fixed_signals [1; 1; 0]%Z) df eq_refl Hpos)
    as (r & rs & Hrun & Hrs & Ht & _).
  exists r, rs. repeat split; try assumption.
  apply Ht. simpl; lia.
Defined.

(* ================================================================== *)
(** * C3: the observation count of the annualisation *)
(* ================================================================== *)

Lemma Qeq_bool_of_nat_pos n :
  (0 < n)%nat -> Qeq_bool (inject_Z (Z.of_nat n)) 0 = false.
Proof.
  intros H. apply Qeq_bool_false_pos.
  unfold Qlt, inject_Z; simpl. lia.
Qed.

Lemma of_nat_div n :
  (0 < n)%nat ->
  (of_Z 365 / of_nat n)%F = Fin (365 / inject_Z (Z.of_nat n)).
Proof.
  intros H. unfold of_nat, of_Z, fdiv.
  now rewrite Qeq_bool_of_nat_pos.
Qed.

Lemma strategy_returns_no_nan e cs ss :
  dropna (strategy_returns e cs ss) = strategy_returns e cs ss.
Proof. apply dropna_fillna_0. Qed.

(** The fields of the record the calculator returns on a non-empty
    return series. *)
Lemma calculate_metrics_fields `{Libm} returns equity sigs m :
  calculate_metrics returns equity sigs = Some m ->
  dropna returns <> [] ->
  max_drawdown_of equity = Some (max_drawdown m) /\
  total_return m = total_return_of (dropna returns) /\
  annual_return m = annual_return_of (dropna returns) /\
  sharpe_ratio m = sharpe_ratio_of (dropna returns) /\
  win_rate m = win_rate_of (dropna returns) /\
  total_trades m = total_trades_of sigs (dropna returns) /\
  profit_factor m = profit_factor_of (dropna returns) /\
  avg_trade_return m = avg_trade_return_of (dropna returns).
Proof.
  unfold calculate_metrics. intros Hm Hne.
  destruct (dropna returns) as [|x rs] eqn:E; [congruence|].
  cbn [length Nat.eqb] in Hm.
  destruct (max_drawdown_of equity) as [mdd|]; [|discriminate].
  injection Hm as <-. simpl. repeat split; reflexivity.
Qed.

(** C3, as amended.  The leading undefined strategy return is replaced
    by a zero return before both the equity curve and the metrics are
    computed, so nothing is left to exclude: the calculator counts every
    bar, and [annual_return = (1 + total_return)^(365/L) - 1] with [L]
    the number of bars when [total_return > -1], and 0 otherwise. *)
Theorem annualization_counts_every_bar `{Libm} (e : BacktestEngine)
  (bars : DataFrame) (strategy : Strategy) (df : SignalFrame) :
  calculate strategy bars = Some df ->
  df <> [] ->
  exists r,
    run e bars strategy = Some r /\
    at_ (frame_raw_returns e df) 0 = NaN /\
    at_ (frame_returns e df) 0 = Fin 0 /\
    equity_curve r = equity_of e (frame_returns e df) /\
    dropna (frame_returns e df) = frame_returns e df /\
    length (frame_returns e df) = length df /\
    total_return (metrics r)
    = (prod (map (fadd (Fin 1)) (frame_returns e df)) - Fin 1)%F /\
    annual_return (metrics r)
    = if fgt (total_return (metrics r)) (Fin (-1))
      then (fpow (Fin 1 + total_return (metrics r))
                 (Fin (365 / inject_Z (Z.of_nat (length df)))) - Fin 1)%F
      else Fin 0.
Proof.
  intros Hc Hne.
  destruct (run_returns e bars strategy df Hc)
    as (r & Hrun & Heq & _ & _ & _ & _ & Hm).
  exists r.
  assert (Hdrop : dropna (frame_returns e df) = frame_returns e df)
    by apply strategy_returns_no_nan.
  assert (Hlen : length (frame_returns e df) = length df)
    by apply length_frame_returns.
  assert (Hpos : (0 < length df)%nat)
    by (destruct df; [congruence | simpl; lia]).
  destruct (calculate_metrics_fields _ _ _ _ Hm)
    as (_ & Htr & Har & _).
  { rewrite Hdrop. intros E. rewrite E in Hlen. simpl in Hlen. lia. }
  rewrite Hdrop in Htr, Har.
  repeat split; try assumption.
  - unfold frame_raw_returns. apply at_raw_strategy_returns_0.
    + destruct df; [congruence | discriminate].
    + now rewrite length_result_close, length_frame_signals.
  - now apply at_frame_returns_0.
  - rewrite Har, Htr. unfold annual_return_of.
    fold (total_return_of (frame_returns e df)).
    rewrite Hlen.
    replace (0 <? length df)%nat with true by (symmetry; apply Nat.ltb_lt, Hpos).
    rewrite of_nat_div by assumption. reflexivity.
Qed.

Lemma annualization_counts_every_bar_witness :
  let bars := bars_of [100; 110] in
  let df := frame_of [100; 110] [1; 1]%Z in
  df <> [] /\
  exists r,
    @run libm_coarse default_engine bars (fixed_signals [1; 1]%Z) = Some r /\
    length (frame_returns default_engine df) = 2%nat.
Proof.
  intros bars df.
  assert (Hne : df <> []) by discriminate.
  split; [exact Hne|].
  destruct (@annualization_counts_every_bar libm_coarse default_engine bars
              (fixed_signals [1; 1]%Z) df eq_refl Hne)
    as (r & Hrun & _ & _ & _ & _ & Hlen & _).
  exists r. split; assumption.
Defined.

(** C3 as stated fails.  On two bars the raw strategy-return series has
    one defined value, the return of the second bar, yet the calculator
    annualises over two observations: whatever [**] is, it is applied to
    the exponent [365/2], and the exponent [365/1] of one realised
    observation is not what every [**] returns. *)
Lemma annualization_counterexample :
  let bars := bars_of [100; 110] in
  let strategy := fixed_signals [1; 1]%Z in
  count (frame_raw_returns default_engine (frame_of [100; 110] [1; 1]%Z))
  = 1%nat /\
  (forall L : Libm, exists r,
      run default_engine bars strategy = Some r /\
      annual_return (metrics r)
      = (fpow (Fin 1 + total_return (metrics r)) (Fin (365 / 2)) - Fin 1)%F) /\
  ~ (forall L : Libm, exists r,
      run default_engine bars strategy = Some r /\
      annual_return (metrics r)
      = (fpow (Fin 1 + total_return (metrics r)) (Fin (365 / 1)) - Fin 1)%F).
Proof.
  intros bars strategy. split; [reflexivity|]. split.
  - intros L. eexists. split; [vm_compute; reflexivity|].
    vm_compute. reflexivity.
  - intros Hall.
    destruct (Hall {| fpow := fun _ y => y; fsqrt := fun x => x |})
      as (r & Hrun & Har).
    vm_compute in Hrun. injection Hrun as <-.
    vm_compute in Har. discriminate Har.
Qed.

(* ================================================================== *)
(** * C8: counting trades *)
(* ================================================================== *)

Lemma count_true_cons b l :
  count_true (b :: l) = ((if b then 1 else 0) + count_true l)%nat.
Proof. unfold count_true. destruct b; reflexivity. Qed.

Lemma fne_of_Z_sub x p :
  fne (fill0 (of_Z x - of_Z p)) (Fin 0) = negb (x =? p)%Z.
Proof.
  unfold fne, of_Z. simpl. f_equal.
  unfold Qeq_bool, Qminus, Qplus, Qopp, inject_Z. simpl.
  destruct (Z.eqb_spec x p) as [->|Hne].
  - apply Z.eqb_eq. lia.
  - apply Z.eqb_neq. lia.
Qed.

Lemma changes_after prev sigs :
  count_true
    (map (fun x => fne x (Fin 0))
       (fillna (Fin 0)
          (zip_with fsub (to_series sigs)
             (removelast (of_Z prev :: to_series sigs)))))
  = signal_changes_from prev sigs.
Proof.
  revert prev; induction sigs as [|x r IH]; intros prev; [reflexivity|].
  change (to_series (x :: r)) with (of_Z x :: to_series r).
  change (removelast (of_Z prev :: of_Z x :: to_series r))
    with (of_Z prev :: removelast (of_Z x :: to_series r)).
  cbn [zip_with fillna map].
  rewrite count_true_cons.
  change (if isnan (of_Z x - of_Z prev) then Fin 0 else (of_Z x - of_Z prev)%F)
    with (fill0 (of_Z x - of_Z prev)).
  rewrite fne_of_Z_sub.
  change (fillna (Fin 0)) with (map (fun x => if isnan x then Fin 0 else x)) in IH.
  rewrite IH. cbn [signal_changes_from].
  destruct (x =? prev)%Z; reflexivity.
Qed.

Lemma count_position_changes_spec sigs :
  count_position_changes sigs = Z.of_nat (signal_changes sigs).
Proof.
  unfold count_position_changes. f_equal.
  destruct sigs as [|s r]; [reflexivity|].
  unfold diff, shift1.
  change (to_series (s :: r)) with (of_Z s :: to_series r).
  cbn [zip_with fillna map].
  rewrite count_true_cons.
  change (fillna (Fin 0)) with (map (fun x => if isnan x then Fin 0 else x)).
  pose proof (changes_after s r) as Hc.
  change (fillna (Fin 0)) with (map (fun x => if isnan x then Fin 0 else x)) in Hc.
  rewrite Hc. reflexivity.
Qed.




(* ================================================================== *)
(** * C6 and C10: the guards of the divisions *)
(* ================================================================== *)


Lemma dropna_finite qs : dropna (map Fin qs) = map Fin qs.
Proof. induction qs as [|q qs IH]; simpl; auto. now rewrite IH. Qed.

Lemma fold_left_fadd_finite qs a :
  fold_left fadd (map Fin qs) (Fin a) = Fin (fold_left Qplus qs a).
Proof. revert a; induction qs as [|q qs IH]; intros a; simpl; auto. Qed.

Lemma fold_left_fmul_finite qs a :
  fold_left fmul (map Fin qs) (Fin a) = Fin (fold_left Qmult qs a).
Proof. revert a; induction qs as [|q qs IH]; intros a; simpl; auto. Qed.

Lemma sum_finite qs : sum (map Fin qs) = Fin (fold_left Qplus qs 0).
Proof. unfold sum. now rewrite dropna_finite, fold_left_fadd_finite. Qed.



Lemma fgt_zero_feq x : (x == Fin 0)%F -> fgt x (Fin 0) = false.
Proof.
  destruct x as [q| | |]; simpl; try contradiction.
  intros Hq. unfold fgt. simpl.
  destruct (0 ?= q) eqn:E; auto.
  apply Qlt_alt in E. rewrite Hq in E. discriminate.
Qed.

Lemma fdiv_finite_pos a b : 0 < b -> (Fin a / Fin b)%F = Fin (a / b).
Proof. intros H. unfold fdiv. now rewrite Qeq_bool_false_pos. Qed.

Lemma sharpe_ratio_guard `{Libm} returns :
  fgt (volatility_of returns) (Fin 0) = false ->
  sharpe_ratio_of returns = Fin 0.
Proof. intros Hv. unfold sharpe_ratio_of. now rewrite Hv. Qed.


Lemma profit_factor_no_losses returns :
  losing_returns returns = [] -> profit_factor_of returns = PInf.
Proof.
  intros Hl. unfold profit_factor_of, total_losses. now rewrite Hl.
Qed.


Lemma win_rate_no_trades returns :
  winning_returns returns = [] -> losing_returns returns = [] ->
  win_rate_of returns = Fin 0.
Proof. intros Hw Hl. unfold win_rate_of. now rewrite Hw, Hl. Qed.




(** ** A series of zero returns *)

Lemma all_zero_rationals s :
  all_zero s -> exists qs, s = map Fin qs /\ Forall (fun q => q == 0) qs.
Proof.
  induction 1 as [|x l Hx _ (qs & -> & Hq)].
  - exists []. split; [reflexivity | constructor].
  - destruct x as [q| | |]; try contradiction.
    exists (q :: qs). split; [reflexivity | now constructor].
Qed.

Lemma filter_none {A : Type} (f : A -> bool) l :
  Forall (fun x => f x = false) l -> filter f l = [].
Proof. induction 1 as [|x l Hx _ IH]; simpl; auto. now rewrite Hx. Qed.

Lemma existsb_none {A : Type} (f : A -> bool) l :
  Forall (fun x => f x = false) l -> existsb f l = false.
Proof. induction 1 as [|x l Hx _ IH]; simpl; auto. now rewrite Hx. Qed.

Lemma flt_zero_feq x : (x == Fin 0)%F -> flt x (Fin 0) = false.
Proof.
  destruct x as [q| | |]; simpl; try contradiction.
  intros Hq. destruct (q ?= 0) eqn:E; auto.
  apply Qlt_alt in E. rewrite Hq in E. discriminate.
Qed.

Lemma fne_zero_feq x : (x == Fin 0)%F -> fne x (Fin 0) = false.
Proof.
  destruct x as [q| | |]; simpl; try contradiction.
  intros Hq. unfold fne. simpl.
  apply Qeq_bool_iff in Hq. now rewrite Hq.
Qed.

Lemma all_zero_no_wins s : all_zero s -> winning_returns s = [].
Proof.
  intros H. apply filter_none.
  eapply Forall_impl; [|exact H]. apply fgt_zero_feq.
Qed.

Lemma all_zero_no_losses s : all_zero s -> losing_returns s = [].
Proof.
  intros H. apply filter_none.
  eapply Forall_impl; [|exact H]. apply flt_zero_feq.
Qed.

Lemma fold_Qplus_zeros qs a :
  Forall (fun q => q == 0) qs -> fold_left Qplus qs a == a.
Proof.
  intros H; revert a; induction H as [|q qs Hq _ IH]; intros a; simpl.
  - reflexivity.
  - rewrite IH, Hq. ring.
Qed.

Lemma fold_Qmult_ones qs a :
  Forall (fun q => q == 1) qs -> fold_left Qmult qs a == a.
Proof.
  intros H; revert a; induction H as [|q qs Hq _ IH]; intros a; simpl.
  - reflexivity.
  - rewrite IH, Hq. ring.
Qed.

Lemma total_return_zero qs :
  Forall (fun q => q == 0) qs ->
  exists t, total_return_of (map Fin qs) = Fin t /\ t == 0.
Proof.
  intros H. unfold total_return_of, prod.
  rewrite map_map.
  change (map (fun x => (Fin 1 + Fin x)%F) qs)
    with (map (fun x => Fin (1 + x)) qs).
  rewrite <- (map_map (Qplus 1) Fin), dropna_finite, fold_left_fmul_finite.
  eexists; split; [reflexivity|].
  rewrite fold_Qmult_ones; [ring|].
  rewrite Forall_forall in *. intros x Hx.
  apply in_map_iff in Hx as (q & <- & Hq). rewrite (H q Hq). ring.
Qed.

Lemma annual_return_zero `{L : Libm} `{!LibmLaws L} qs :
  qs <> [] -> Forall (fun q => q == 0) qs ->
  (annual_return_of (map Fin qs) == Fin 0)%F.
Proof.
  intros Hne H0. unfold annual_return_of.
  destruct (total_return_zero qs H0) as (t & -> & Ht).
  rewrite length_map.
  assert (Hlen : (0 < length qs)%nat)
    by (destruct qs; [congruence | simpl; lia]).
  replace (0 <? length qs)%nat with true by (symmetry; now apply Nat.ltb_lt).
  assert (Hg : fgt (Fin t) (Fin (-1)) = true).
  { unfold fgt. simpl. destruct (-1 ?= t) eqn:E; auto.
    - apply Qeq_alt in E. rewrite Ht in E. discriminate.
    - apply Qgt_alt in E. rewrite Ht in E. discriminate. }
  rewrite Hg. cbn [andb]. rewrite of_nat_div by assumption.
  assert (Hp := fpow_one (Fin 1 + Fin t)%F
                  (365 / inject_Z (Z.of_nat (length qs)))).
  destruct (fpow (Fin 1 + Fin t) _) as [p| | |]; simpl in Hp |- *;
    try (exfalso; apply Hp; simpl; rewrite Ht; ring).
  rewrite Hp; [ring|]. rewrite Ht. ring.
Qed.

Lemma volatility_zero `{L : Libm} `{!LibmLaws L} qs :
  Forall (fun q => q == 0) qs ->
  fgt (volatility_of (map Fin qs)) (Fin 0) = false.
Proof.
  intros H0. unfold volatility_of, std.
  destruct (count (map Fin qs) <? 2)%nat eqn:En; [reflexivity|].
  apply Nat.ltb_ge in En.
  unfold count in *. rewrite dropna_finite, length_map in *.
  assert (Hmean : exists m, mean (map Fin qs) = Fin m).
  { unfold mean, count. rewrite sum_finite, dropna_finite, length_map.
    unfold of_nat, of_Z.
    rewrite fdiv_finite_pos by (unfold Qlt, inject_Z; simpl; lia). eauto. }
  destruct Hmean as [m Hm]. rewrite Hm.
  assert (Hm0 : m == 0).
  { unfold mean, count in Hm.
    rewrite sum_finite, dropna_finite, length_map in Hm.
    unfold of_nat, of_Z in Hm.
    rewrite fdiv_finite_pos in Hm by (unfold Qlt, inject_Z; simpl; lia).
    injection Hm as <-. rewrite fold_Qplus_zeros by assumption.
    unfold Qdiv. ring. }
  rewrite map_map.
  change (map (fun x => ((Fin x - Fin m) * (Fin x - Fin m))%F) qs)
    with (map (fun x => Fin ((x - m) * (x - m))) qs).
  rewrite <- (map_map (fun x => (x - m) * (x - m)) Fin), fold_left_fadd_finite.
  unfold of_nat, of_Z.
  rewrite fdiv_finite_pos by (unfold Qlt, inject_Z; simpl; lia).
  match goal with |- context [fsqrt (Fin ?v)] =>
    assert (Hv : v == 0); [| pose proof (fsqrt_zero (Fin v) Hv) as Hs;
                             destruct (fsqrt (Fin v)) as [z| | |];
                             try contradiction ]
  end.
  { rewrite fold_Qplus_zeros; [unfold Qdiv; ring|].
    rewrite Forall_forall in *. intros x Hx.
    apply in_map_iff in Hx as (q & <- & Hq).
    rewrite (H0 q Hq), Hm0. ring. }
  change (z == 0) in Hs.
  destruct (fsqrt (Fin (inject_Z 365))) as [a| | |].
  - apply fgt_zero_feq. cbn [fmul feq]. rewrite Hs. ring.
  - cbn [fmul sign]. apply Qeq_alt in Hs. rewrite Hs. reflexivity.
  - cbn [fmul sign]. apply Qeq_alt in Hs. rewrite Hs. reflexivity.
  - reflexivity.
Qed.

Lemma libm_coarse_laws : LibmLaws libm_coarse.
Proof.
  split.
  - intros [a| | |] q; simpl; try contradiction.
    intros Ha. rewrite Ha. apply Qpower_1.
  - intros [a| | |]; try (simpl; contradiction).
    intros Ha. change (a == 0) in Ha.
    assert (E : (a ?= 0) = Eq) by now apply Qeq_alt.
    assert (Hf : Qfloor (a * 1000000000000) = 0%Z).
    { rewrite Ha. reflexivity. }
    cbn [fsqrt libm_coarse]. unfold coarse_sqrt.
    rewrite E, Hf. reflexivity.
Qed.

(** C10.  When every defined return is zero the calculator reports an
    infinite profit factor: there is no loss, and the test on the losses
    does not ask for a gain.  The total return, the win rate and the
    average trade return are zero, the fallback trade count is zero, and
    so are the annualised return and the Sharpe ratio when [**] and
    [np.sqrt] map 1 to 1 and 0 to 0. *)
Theorem zero_returns_profit_factor `{L : Libm} (returns equity : Series)
  (sigs : option (list Z)) :
  dropna returns <> [] ->
  all_zero (dropna returns) ->
  (equity <> [] ->
   exists m, calculate_metrics returns equity sigs = Some m) /\
  (forall m, calculate_metrics returns equity sigs = Some m ->
     profit_factor m = PInf /\
     (total_return m == Fin 0)%F /\
     win_rate m = Fin 0 /\
     avg_trade_return m = Fin 0 /\
     (sigs = None -> total_trades m = 0%Z) /\
     (LibmLaws L ->
      (annual_return m == Fin 0)%F /\ sharpe_ratio m = Fin 0)).
Proof.
  intros Hne Hz. split.
  - intros He. apply calculate_metrics_returns. now left.
  - intros m Hm.
    destruct (calculate_metrics_fields _ _ _ _ Hm Hne)
      as (_ & Htr & Har & Hsr & Hwr & Htt & Hpf & Hav).
    rewrite Htr, Har, Hsr, Hwr, Htt, Hpf, Hav.
    assert (Hfne : Forall (fun x => fne x (Fin 0) = false) (dropna returns)).
    { eapply Forall_impl; [|exact Hz]. apply fne_zero_feq. }
    destruct (all_zero_rationals _ Hz) as (qs & Eqs & Hq).
    split; [|split; [|split; [|split; [|split]]]].
    + apply profit_factor_no_losses, all_zero_no_losses, Hz.
    + rewrite Eqs. destruct (total_return_zero qs Hq) as (t & -> & Ht).
      exact Ht.
    + apply win_rate_no_trades;
        [apply all_zero_no_wins | apply all_zero_no_losses]; exact Hz.
    + unfold avg_trade_return_of. now rewrite existsb_none.
    + intros ->. unfold total_trades_of, count_true.
      rewrite filter_none; [reflexivity|].
      rewrite Forall_forall in *. intros b Hb.
      apply in_map_iff in Hb as (x & <- & Hx). now apply Hfne.
    + intros Hlaws. rewrite Eqs. split.
      * apply annual_return_zero; [|exact Hq].
        intros ->. now rewrite Eqs in Hne.
      * apply sharpe_ratio_guard, volatility_zero, Hq.
Qed.

Lemma zero_returns_profit_factor_witness :
  dropna [Fin 0; Fin 0; Fin 0] <> [] /\
  all_zero (dropna [Fin 0; Fin 0; Fin 0]) /\
  exists m,
    @calculate_metrics libm_coarse [Fin 0; Fin 0; Fin 0]
      [Fin 1; Fin 1; Fin 1] None = Some m /\
    profit_factor m = PInf /\ sharpe_ratio m = Fin 0.
Proof.
  assert (Hne : dropna [Fin 0; Fin 0; Fin 0] <> []) by discriminate.
  assert (Hz : all_zero (dropna [Fin 0; Fin 0; Fin 0])).
  { simpl. repeat constructor; reflexivity. }
  split; [exact Hne|]. split; [exact Hz|].
  destruct (@zero_returns_profit_factor libm_coarse [Fin 0; Fin 0; Fin 0]
              [Fin 1; Fin 1; Fin 1] None Hne Hz) as (Hex & Hall).
  destruct Hex as [m Hm]; [discriminate|].
  exists m. split; [exact Hm|].
  destruct (Hall m Hm) as (Hpf & _ & _ & _ & _ & Hlaws).
  split; [exact Hpf|].
  apply Hlaws, libm_coarse_laws.
Defined.

(* ================================================================== *)
(** * C7: the drawdown bound *)
(* ================================================================== *)

Lemma q_maximum_spec a b :
  (a < b /\ q_maximum a b = b) \/ (b <= a /\ q_maximum a b = a).
Proof.
  unfold q_maximum. destruct (a ?= b) eqn:E.
  - right. split; [|reflexivity]. apply Qeq_alt in E. rewrite E. apply Qle_refl.
  - left. split; [|reflexivity]. now apply Qlt_alt.
  - right. split; [|reflexivity]. apply Qgt_alt in E. now apply Qlt_le_weak.
Qed.

Lemma q_minimum_spec a b :
  (b < a /\ q_minimum a b = b) \/ (a <= b /\ q_minimum a b = a).
Proof.
  unfold q_minimum. destruct (b ?= a) eqn:E.
  - right. split; [|reflexivity]. apply Qeq_alt in E. rewrite E. apply Qle_refl.
  - left. split; [|reflexivity]. now apply Qlt_alt.
  - right. split; [|reflexivity]. apply Qgt_alt in E. now apply Qlt_le_weak.
Qed.

Lemma np_maximum_finite a b :
  np_maximum (Fin a) (Fin b) = Fin (q_maximum a b).
Proof.
  unfold np_maximum, q_maximum. simpl. destruct (a ?= b); reflexivity.
Qed.

Lemma np_minimum_finite a b :
  np_minimum (Fin a) (Fin b) = Fin (q_minimum a b).
Proof.
  unfold np_minimum, q_minimum. simpl. destruct (b ?= a); reflexivity.
Qed.

Lemma fold_np_minimum_finite l x :
  fold_left np_minimum (map Fin l) (Fin x) = Fin (fold_left q_minimum l x).
Proof.
  revert x; induction l as [|y l IH]; intros x; simpl; auto.
  now rewrite np_minimum_finite, IH.
Qed.

(** The drawdown series below a positive running peak. *)
Lemma drawdown_from_finite p l :
  0 < p ->
  zip_with fdiv
    (zip_with fsub (map Fin l) (accumulate np_maximum (Fin p) (map Fin l)))
    (accumulate np_maximum (Fin p) (map Fin l))
  = map Fin (q_drawdown_from p l).
Proof.
  revert p; induction l as [|x l IH]; intros p Hp; [reflexivity|].
  cbn [map accumulate zip_with q_drawdown_from].
  rewrite np_maximum_finite.
  assert (Hp' : 0 < q_maximum p x).
  { destruct (q_maximum_spec p x) as [[H ->]|[H ->]]; auto.
    now apply Qlt_trans with p. }
  rewrite IH by assumption.
  cbn [fsub]. now rewrite fdiv_finite_pos.
Qed.

Lemma drawdown_finite x l :
  0 < x ->
  drawdown (map Fin (x :: l))
  = map Fin ((x - x) / x :: q_drawdown_from x l).
Proof.
  intros Hx. unfold drawdown.
  cbn [map maximum_accumulate zip_with fsub].
  rewrite fdiv_finite_pos by assumption.
  now rewrite drawdown_from_finite.
Qed.

Lemma drawdown_step p x :
  0 < p ->
  let p' := q_maximum p x in
  0 < p' /\ (x - p') / p' <= 0 /\ ((x - p') / p' == 0 <-> p <= x) /\
  (p <= x -> p' == x).
Proof.
  intros Hp p'. subst p'.
  destruct (q_maximum_spec p x) as [[H ->]|[H ->]].
  - assert (Hx : 0 < x) by now apply Qlt_trans with p.
    assert (Hd : (x - x) / x == 0) by (field; lra).
    split; [exact Hx|]. split; [rewrite Hd; apply Qle_refl|].
    split; [|reflexivity].
    split; [intros _; now apply Qlt_le_weak | intros _; exact Hd].
  - split; [exact Hp|].
    split; [apply Qle_shift_div_r; [exact Hp|]; lra|].
    split; [|intros Hle; lra].
    split.
    + intros Hd.
      assert (Hz : x - p == 0).
      { setoid_replace (x - p) with ((x - p) / p * p) by (field; lra).
        rewrite Hd. ring. }
      lra.
    + intros Hle. assert (Hz : x == p) by lra. rewrite Hz. field. lra.
Qed.

Lemma q_sorted_from_Qeq p q l :
  p == q -> (q_sorted_from p l <-> q_sorted_from q l).
Proof.
  intros Hpq. destruct l as [|x l]; simpl; [tauto|]. now rewrite Hpq.
Qed.

Lemma q_drawdown_from_spec p l :
  0 < p ->
  Forall (fun d => d <= 0) (q_drawdown_from p l) /\
  (Forall (fun d => d == 0) (q_drawdown_from p l) <-> q_sorted_from p l).
Proof.
  revert p; induction l as [|x l IH]; intros p Hp.
  - simpl. split; [constructor|]. split; auto.
  - cbn [q_drawdown_from q_sorted_from].
    destruct (drawdown_step p x Hp) as (Hp' & Hle & Hz & Hmax).
    destruct (IH _ Hp') as [IH1 IH2].
    split; [now constructor|].
    split.
    + intros Hall. inversion Hall as [|d ds Hd Hds]; subst.
      assert (Hpx : p <= x) by now apply Hz.
      split; [exact Hpx|].
      apply (q_sorted_from_Qeq _ _ l (Hmax Hpx)). now apply IH2.
    + intros [Hpx Hs]. constructor; [now apply Hz|].
      apply IH2. now apply (q_sorted_from_Qeq _ _ l (Hmax Hpx)).
Qed.

(** The minimum of non-positive numbers. *)
Lemma fold_q_minimum_spec l x :
  x <= 0 -> Forall (fun d => d <= 0) l ->
  fold_left q_minimum l x <= 0 /\
  (fold_left q_minimum l x == 0 <-> x == 0 /\ Forall (fun d => d == 0) l).
Proof.
  revert x; induction l as [|y l IH]; intros x Hx Hl.
  - simpl. split; [exact Hx|]. split; [intros H; split; [exact H|constructor] | tauto].
  - inversion Hl as [|y' l' Hy Hl']; subst. cbn [fold_left].
    assert (Hm : q_minimum x y <= 0 /\
                 (q_minimum x y == 0 <-> x == 0 /\ y == 0)).
    { destruct (q_minimum_spec x y) as [[H ->]|[H ->]]; split; auto;
        split; intros; try lra. }
    destruct Hm as [Hm1 Hm2].
    destruct (IH _ Hm1 Hl') as [IH1 IH2].
    split; [exact IH1|].
    rewrite IH2, Hm2. split.
    + intros [[H1 H2] H3]. split; [exact H1|]. now constructor.
    + intros [H1 H2]. inversion H2; subst. tauto.
Qed.

Lemma flt_finite_false a b : flt (Fin a) (Fin b) = false <-> b <= a.
Proof.
  simpl. destruct (a ?= b) eqn:E; split; intros H; try reflexivity;
    try discriminate.
  - apply Qeq_alt in E. rewrite E. apply Qle_refl.
  - apply Qlt_alt in E. lra.
  - apply Qgt_alt in E. lra.
Qed.

Lemma nondecreasing_cons a b s :
  nondecreasing (a :: b :: s) <->
  flt b a = false /\ nondecreasing (b :: s).
Proof.
  unfold nondecreasing, at_. split.
  - intros H. split.
    + apply (H 0%nat). simpl; lia.
    + intros i Hi. apply (H (S i)). simpl in *; lia.
  - intros [H0 H] [|i] Hi; [exact H0|].
    apply (H i). simpl in *; lia.
Qed.

Lemma nondecreasing_finite x l :
  nondecreasing (map Fin (x :: l)) <-> q_sorted_from x l.
Proof.
  revert x; induction l as [|y l IH]; intros x.
  - simpl. split; [tauto|]. intros _ i Hi. simpl in Hi. lia.
  - change (map Fin (x :: y :: l)) with (Fin x :: Fin y :: map Fin l).
    rewrite nondecreasing_cons, flt_finite_false.
    change (Fin y :: map Fin l) with (map Fin (y :: l)).
    rewrite IH. reflexivity.
Qed.

(** The drawdown of a finite curve that starts above zero. *)
Lemma max_drawdown_finite x l :
  0 < x ->
  exists q, max_drawdown_of (map Fin (x :: l)) = Some (Fin q) /\
            q <= 0 /\ (q == 0 <-> nondecreasing (map Fin (x :: l))).
Proof.
  intros Hx. unfold max_drawdown_of.
  rewrite drawdown_finite by assumption.
  cbn [map np_min]. rewrite fold_np_minimum_finite.
  eexists. split; [reflexivity|].
  assert (Hd : (x - x) / x == 0) by (field; lra).
  destruct (q_drawdown_from_spec x l Hx) as [Hle Hz].
  destruct (fold_q_minimum_spec (q_drawdown_from x l) ((x - x) / x))
    as [Hmin Hmin0]; [rewrite Hd; apply Qle_refl | exact Hle |].
  split; [exact Hmin|].
  pose proof (nondecreasing_finite x l) as Hn. cbn [map] in Hn.
  tauto.
Qed.

Lemma q_equity_head e df :
  df <> [] ->
  exists l, q_equity e (q_returns e df)
            = initial_capital e * (1 + 0) :: l.
Proof.
  intros Hne. destruct df as [|row df]; [congruence|].
  unfold q_returns, q_equity. cbn [length seq map q_cumprod q_return].
  eexists. reflexivity.
Qed.

(** C7.  For a run on positive prices from a positive initial capital,
    [max_drawdown] is the minimum of [(equity - peak) / peak] over the
    equity curve, it is a rational that is never positive, and it is 0
    exactly when the equity curve never decreases. *)
Theorem max_drawdown_bound `{Libm} (e : BacktestEngine) (bars : DataFrame)
  (strategy : Strategy) (df : SignalFrame) :
  calculate strategy bars = Some df ->
  positive_closes df ->
  0 < initial_capital e ->
  exists r q,
    run e bars strategy = Some r /\
    max_drawdown (metrics r) = Fin q /\
    (df <> [] ->
     np_min (drawdown (equity_curve r)) = Some (max_drawdown (metrics r))) /\
    q <= 0 /\
    (q == 0 <-> nondecreasing (equity_curve r)).
Proof.
  intros Hc Hpos Hic.
  destruct (run_returns e bars strategy df Hc)
    as (r & Hrun & Heq & _ & _ & _ & _ & Hm).
  exists r.
  destruct df as [|row df].
  - exists 0. change (Some zero_metrics = Some (metrics r)) in Hm.
    injection Hm as Hm. rewrite <- Hm.
    split; [exact Hrun|]. split; [reflexivity|].
    split; [congruence|]. split; [apply Qle_refl|].
    split; [|reflexivity]. intros _.
    rewrite Heq. intros i Hi. simpl in Hi. lia.
  - assert (Hne : row :: df <> []) by discriminate.
    assert (Hequity : equity_curve r
                      = map Fin (q_equity e (q_returns e (row :: df)))).
    { rewrite Heq. unfold frame_equity.
      rewrite (frame_returns_finite e _ Hpos). apply equity_of_finite. }
    destruct (q_equity_head e (row :: df) Hne) as [l Hl].
    rewrite Hl in Hequity.
    assert (H0 : 0 < initial_capital e * (1 + 0)).
    { setoid_replace (initial_capital e * (1 + 0)) with (initial_capital e)
        by ring. exact Hic. }
    destruct (max_drawdown_finite _ l H0) as (q & Hq & Hle & Hz).
    exists q.
    destruct (calculate_metrics_fields _ _ _ _ Hm) as (Hmdd & _).
    { unfold frame_returns. rewrite strategy_returns_no_nan.
      fold (frame_returns e (row :: df)). intros E.
      apply (f_equal (@length float)) in E.
      rewrite length_frame_returns in E. discriminate. }
    rewrite <- Heq, Hequity, Hq in Hmdd. injection Hmdd as Hmdd.
    split; [exact Hrun|]. split; [now symmetry|].
    split; [|split].
    + intros _. rewrite Hequity. fold (max_drawdown_of (map Fin (initial_capital e * (1 + 0) :: l))).
      rewrite Hq. now rewrite Hmdd.
    + exact Hle.
    + rewrite Hequity. exact Hz.
Qed.

Lemma max_drawdown_bound_witness :
  let bars := bars_of [100; 110; 99] in
  let df := frame_of [100; 110; 99] [1; 1; 1]%Z in
  positive_closes df /\ 0 < initial_capital default_engine /\
  exists r q,
    @run libm_coarse default_engine bars (fixed_signals [1; 1; 1]%Z) = Some r /\
    max_drawdown (metrics r) = Fin q /\ q <= 0.
Proof.
  intros bars df.
  assert (Hpos : positive_closes df).
  { unfold positive_closes, df. simpl. repeat constructor. }
  assert (Hic : 0 < initial_capital default_engine) by reflexivity.
  split; [exact Hpos|]. split; [exact Hic|].
  destruct (@max_drawdown_bound libm_coarse default_engine bars
              (fixed_signals [1; 1; 1]%Z) df eq_refl Hpos Hic)
    as (r & q & Hrun & Hq & _ & Hle & _).
  exists r, q. repeat split; assumption.
Defined.

(* ================================================================== *)
(** * C9: the filters of the filtered crossover *)
(* ================================================================== *)

Lemma length_ewm_from alpha y xs : length (ewm_from alpha y xs) = length xs.
Proof. revert y; induction xs; intros y; simpl; auto. Qed.

Lemma length_ema df period s :
  ema df period = Some s -> length s = length df.
Proof.
  unfold ema. destruct (period <? 1)%Z; [discriminate|].
  intros [= <-]. rewrite length_map. unfold ewm_mean.
  destruct df as [|b df]; simpl; auto.
  now rewrite length_ewm_from, length_map.
Qed.

Lemma ema_returns df period :
  (1 <= period)%Z -> exists s, ema df period = Some s.
Proof.
  intros H. unfold ema.
  replace (period <? 1)%Z with false by (symmetry; apply Z.ltb_ge, H).
  eauto.
Qed.

Lemma length_rolling_mean w s : length (rolling_mean w s) = length s.
Proof. unfold rolling_mean. now rewrite length_map, length_seq. Qed.

Lemma length_rsi df period s :
  rsi df period = Some s -> length s = length df.
Proof.
  unfold rsi. destruct (period <? 0)%Z; [discriminate|].
  intros [= <-].
  rewrite length_map, length_zip_with, !length_rolling_mean, !length_map,
    length_diff.
  unfold close_column. rewrite length_map. lia.
Qed.

Lemma rsi_returns df period :
  (0 <= period)%Z -> exists s, rsi df period = Some s.
Proof.
  intros H. unfold rsi.
  replace (period <? 0)%Z with false by (symmetry; apply Z.ltb_ge, H).
  eauto.
Qed.

Lemma length_set_where mask v sig :
  length mask = length sig -> length (set_where mask v sig) = length sig.
Proof. intros H. unfold set_where. rewrite length_zip_with. lia. Qed.

Lemma nth_set_where mask v sig t :
  length mask = length sig -> (t < length sig)%nat ->
  nth t (set_where mask v sig) 0%Z
  = if nth t mask false then v else nth t sig 0%Z.
Proof.
  intros Hl Ht. unfold set_where.
  now rewrite (nth_zip_with _ false 0%Z 0%Z) by lia.
Qed.

Lemma length_suppress_long ok sig :
  length ok = length sig -> length (suppress_long ok sig) = length sig.
Proof.
  intros H. unfold suppress_long.
  apply length_set_where. rewrite length_zip_with. lia.
Qed.

Lemma nth_suppress_long ok sig t :
  length ok = length sig -> (t < length sig)%nat ->
  nth t (suppress_long ok sig) 0%Z
  = if (nth t sig 0 =? 1)%Z && negb (nth t ok false) then 0%Z
    else nth t sig 0%Z.
Proof.
  intros Hl Ht. unfold suppress_long.
  rewrite nth_set_where; [|rewrite length_zip_with; lia | assumption].
  now rewrite (nth_zip_with _ 0%Z false false) by lia.
Qed.

Lemma length_crossover es el :
  length el = length es -> length (crossover es el) = length es.
Proof.
  intros H. unfold crossover.
  rewrite !length_set_where; rewrite ?length_map; auto.
  - rewrite length_zip_with. lia.
  - rewrite length_set_where; rewrite ?length_zip_with, ?length_map; lia.
Qed.

Lemma length_with_signal df sig :
  length sig = length df -> length (with_signal df sig) = length df.
Proof. intros H. unfold with_signal. rewrite length_zip_with. lia. Qed.

Lemma with_signal_columns df sig :
  length sig = length df ->
  map bar (with_signal df sig) = df /\
  result_signal (with_signal df sig) = sig.
Proof.
  unfold with_signal, result_signal.
  revert sig; induction df as [|b df IH]; intros [|s sig] H;
    try discriminate; simpl; auto.
  injection H as H. destruct (IH sig H) as [-> ->]. auto.
Qed.

(** The combined effect of two suppressions on one signal value. *)
Lemma crossover_cons a b es el :
  crossover (a :: es) (b :: el)
  = (if flt a b then (-1)%Z else if fgt a b then 1%Z else 0%Z)
    :: crossover es el.
Proof. reflexivity. Qed.

Lemma nth_crossover es el t :
  length es = length el -> (t < length es)%nat ->
  nth t (crossover es el) 0%Z
  = if flt (at_ es t) (at_ el t) then (-1)%Z
    else if fgt (at_ es t) (at_ el t) then 1%Z else 0%Z.
Proof.
  revert el t; induction es as [|a es IH]; intros [|b el] t Hl Ht;
    simpl in Hl, Ht; try lia.
  rewrite crossover_cons. destruct t as [|t]; [reflexivity|].
  change (nth t (crossover es el) 0%Z
          = if flt (at_ es t) (at_ el t) then (-1)%Z
            else if fgt (at_ es t) (at_ el t) then 1%Z else 0%Z).
  apply IH; lia.
Qed.

Lemma suppress_twice (b : Z) (up ok : bool) :
  (let s1 := if (b =? 1)%Z && negb up then 0%Z else b in
   if (s1 =? 1)%Z && negb ok then 0%Z else s1)
  = if (b =? 1)%Z && negb (up && ok) then 0%Z else b.
Proof.
  cbv zeta. destruct (b =? 1)%Z eqn:E; destruct up, ok; simpl;
    rewrite ?E; reflexivity.
Qed.

(** C9.  With periods pandas accepts, [calculate] returns the bars with
    a signal that is the base crossover signal everywhere, except that a
    base signal of +1 becomes 0 at exactly the bars where an enabled
    filter fails; a disabled filter passes every bar, and a base signal
    of -1 is always kept.  The base signal is the comparison of the two
    averages, and it is the signal the unfiltered strategy with the same
    two periods returns. *)
Theorem filtered_crossover_suppresses_long_only (s : EMACross.t)
  (df : DataFrame) :
  valid_periods s ->
  exists out,
    EMACross.calculate s df = Some out /\
    map bar out = df /\
    (forall t, (t < length df)%nat ->
       nth t (result_signal out) 0%Z
       = (if (base_signal s df t =? 1)%Z
             && negb (trend_passes s df t && momentum_passes s df t)
          then 0%Z else base_signal s df t)) /\
    (forall t, (t < length df)%nat -> base_signal s df t = (-1)%Z ->
               nth t (result_signal out) 0%Z = (-1)%Z) /\
    (EMACross.use_trend_filter s = false ->
     forall t, trend_passes s df t = true) /\
    (EMACross.use_rsi_filter s = false ->
     forall t, momentum_passes s df t = true) /\
    (exists plain,
       SimpleEMACross.calculate (unfiltered s) df = Some plain /\
       map bar plain = df /\
       forall t, (t < length df)%nat ->
                 nth t (result_signal plain) 0%Z = base_signal s df t).
Proof.
  intros (Hshort & Hlong & Htrend & Hrsi).
  destruct (ema_returns df _ Hshort) as [es Hes].
  destruct (ema_returns df _ Hlong) as [el Hel].
  pose proof (length_ema _ _ _ Hes) as Les.
  pose proof (length_ema _ _ _ Hel) as Lel.
  set (base := crossover es el).
  assert (Lbase : length base = length df)
    by (unfold base; rewrite length_crossover; lia).
  (* the trend filter *)
  assert (Ht : exists sig1,
    EMACross.trend_filter s df base = Some sig1 /\
    length sig1 = length df /\
    forall t, (t < length df)%nat ->
      nth t sig1 0%Z
      = if (nth t base 0 =? 1)%Z && negb (trend_passes s df t) then 0%Z
        else nth t base 0%Z).
  { unfold EMACross.trend_filter, trend_passes.
    destruct (EMACross.use_trend_filter s) eqn:Eu.
    - destruct (ema_returns df _ (Htrend eq_refl)) as [et Het].
      pose proof (length_ema _ _ _ Het) as Let.
      rewrite Het. eexists. split; [reflexivity|].
      assert (Lup : length (zip_with fgt (close_column df) et) = length base).
      { rewrite length_zip_with. unfold close_column.
        rewrite length_map. lia. }
      split; [rewrite length_suppress_long; lia|].
      intros t Hlt. rewrite nth_suppress_long by lia.
      rewrite (nth_zip_with fgt NaN NaN false)
        by (unfold close_column; rewrite ?length_map; lia).
      reflexivity.
    - exists base. split; [reflexivity|]. split; [exact Lbase|].
      intros t _. now rewrite andb_false_r. }
  destruct Ht as (sig1 & Hsig1 & L1 & N1).
  (* the momentum filter *)
  assert (Hr : exists sig2,
    EMACross.rsi_filter s df sig1 = Some sig2 /\
    length sig2 = length df /\
    forall t, (t < length df)%nat ->
      nth t sig2 0%Z
      = if (nth t sig1 0 =? 1)%Z && negb (momentum_passes s df t) then 0%Z
        else nth t sig1 0%Z).
  { unfold EMACross.rsi_filter, momentum_passes.
    destruct (EMACross.use_rsi_filter s) eqn:Eu.
    - destruct (rsi_returns df _ (Hrsi eq_refl)) as [rs Hrs].
      pose proof (length_rsi _ _ _ Hrs) as Lrs.
      rewrite Hrs. eexists. split; [reflexivity|].
      split; [rewrite length_suppress_long; rewrite ?length_map; lia|].
      intros t Hlt.
      rewrite nth_suppress_long by (rewrite ?length_map; lia).
      rewrite (nth_map_in (fun x => fgt x (of_Z (EMACross.rsi_threshold s)))
                 NaN false) by lia.
      reflexivity.
    - exists sig1. split; [reflexivity|]. split; [exact L1|].
      intros t _. now rewrite andb_false_r. }
  destruct Hr as (sig2 & Hsig2 & L2 & N2).
  assert (Hbase : forall t, (t < length df)%nat ->
                             base_signal s df t = nth t base 0%Z).
  { intros t Hlt. unfold base_signal, base. rewrite Hes, Hel.
    symmetry. apply nth_crossover; lia. }
  assert (Hout : forall t, (t < length df)%nat ->
    nth t sig2 0%Z
    = if (base_signal s df t =? 1)%Z
         && negb (trend_passes s df t && momentum_passes s df t)
      then 0%Z else base_signal s df t).
  { intros t Hlt. rewrite N2, N1, Hbase by assumption. apply suppress_twice. }
  exists (with_signal df sig2).
  destruct (with_signal_columns df sig2 L2) as [Hbars Hsigs].
  destruct (with_signal_columns df base Lbase) as [Hbars0 Hsigs0].
  split; [|split; [exact Hbars|split; [|split; [|split; [|split]]]]].
  - unfold EMACross.calculate. rewrite Hes, Hel. fold base.
    now rewrite Hsig1, Hsig2.
  - intros t Hlt. rewrite Hsigs. now apply Hout.
  - intros t Hlt Hm. rewrite Hsigs, Hout, Hm by assumption. reflexivity.
  - intros Hu t. unfold trend_passes. now rewrite Hu.
  - intros Hu t. unfold momentum_passes. now rewrite Hu.
  - exists (with_signal df base). split; [|split; [exact Hbars0|]].
    + unfold SimpleEMACross.calculate, unfiltered.
      cbn [SimpleEMACross.short_period SimpleEMACross.long_period].
      now rewrite Hes, Hel.
    + intros t Hlt. rewrite Hsigs0. symmetry. now apply Hbase.
Qed.

Lemma filtered_crossover_suppresses_long_only_witness :
  valid_periods EMACross.defaults /\
  exists out,
    EMACross.calculate EMACross.defaults (bars_of [100; 101; 102]) = Some out /\
    map bar out = bars_of [100; 101; 102] /\
    base_signal EMACross.defaults (bars_of [100; 101; 102]) 1 = 1%Z /\
    momentum_passes EMACross.defaults (bars_of [100; 101; 102]) 1 = false /\
    nth 1 (result_signal out) 0%Z = 0%Z.
Proof.
  assert (Hv : valid_periods EMACross.defaults).
  { unfold valid_periods. simpl. repeat split; intros; lia. }
  split; [exact Hv|].
  destruct (filtered_crossover_suppresses_long_only EMACross.defaults
              (bars_of [100; 101; 102]) Hv) as (out & Hc & Hb & Hs & _).
  assert (Hbase : base_signal EMACross.defaults (bars_of [100; 101; 102]) 1
                  = 1%Z) by (vm_compute; reflexivity).
  assert (Hm : momentum_passes EMACross.defaults (bars_of [100; 101; 102]) 1
               = false) by (vm_compute; reflexivity).
  exists out. split; [exact Hc|]. split; [exact Hb|].
  split; [exact Hbase|]. split; [exact Hm|].
  rewrite (Hs 1%nat) by (simpl; lia).
  rewrite Hbase, Hm, andb_false_r. reflexivity.
Defined.

(* ================================================================== *)
(** * The order of the grid-search table *)
(* ================================================================== *)

Lemma key_ge_total x y : key_ge x y = false -> key_ge y x = true.
Proof.
  destruct x as [a| | |], y as [b| | |]; simpl; try discriminate; auto.
  intros H. apply negb_false_iff in H.
  destruct (a ?= b) eqn:E; try discriminate.
  apply Qlt_alt in E.
  destruct (b ?= a) eqn:E'; auto.
  apply Qlt_alt in E'. lra.
Qed.

Lemma key_ge_finite a b : key_ge (Fin a) (Fin b) = true <-> b <= a.
Proof.
  simpl. rewrite negb_true_iff. apply flt_finite_false.
Qed.

Lemma key_ge_trans x y z :
  key_ge x y = true -> key_ge y z = true -> key_ge x z = true.
Proof.
  destruct x as [a| | |], y as [b| | |], z as [c| | |];
    try (simpl; intros; reflexivity || discriminate).
  rewrite !key_ge_finite. intros; lra.
Qed.

Lemma key_ge_not_less x y : key_ge x y = true -> flt x y = false.
Proof.
  destruct x, y; simpl; auto; try discriminate.
  now rewrite negb_true_iff.
Qed.

Section InsertionSortCorrect.

Variable precedes : float -> float -> bool.
Variable key : Summary -> float.

Hypothesis precedes_ge :
  forall x y, precedes x y = true -> key_ge x y = true.
Hypothesis not_precedes_ge :
  forall x y, precedes x y = false -> key_ge y x = true.

Lemma insert_row_perm x l :
  Permutation (x :: l) (insert_row precedes key x l).
Proof.
  induction l as [|y l IH]; simpl; auto.
  destruct (precedes (key x) (key y)); auto.
  rewrite perm_swap. now constructor.
Qed.

Lemma insert_row_sorted x l :
  StronglySorted (key_order key) l ->
  StronglySorted (key_order key) (insert_row precedes key x l).
Proof.
  induction 1 as [|y l Hs IH Hy]; simpl.
  - repeat constructor.
  - destruct (precedes (key x) (key y)) eqn:E.
    + constructor; [now constructor|].
      constructor; [now apply precedes_ge|].
      eapply Forall_impl; [|exact Hy].
      intros z Hz. unfold key_order in *.
      eapply key_ge_trans; [apply precedes_ge, E | exact Hz].
    + constructor; [exact IH|].
      assert (Hall : Forall (key_order key y) (x :: l))
        by (constructor; [now apply not_precedes_ge | exact Hy]).
      rewrite Forall_forall in *. intros z Hz. apply Hall.
      eapply Permutation_in; [|exact Hz].
      symmetry. apply insert_row_perm.
Qed.

Lemma insertion_sort_perm l :
  Permutation l (insertion_sort precedes key l).
Proof.
  induction l as [|x l IH]; simpl; auto.
  rewrite <- insert_row_perm. now constructor.
Qed.

Lemma insertion_sort_sorted l :
  StronglySorted (key_order key) (insertion_sort precedes key l).
Proof.
  induction l as [|x l IH]; simpl; [constructor|].
  now apply insert_row_sorted.
Qed.

End InsertionSortCorrect.

Lemma pandas_stable_spec : PandasSpec pandas_stable.
Proof.
  split; intros key l; simpl.
  - apply insertion_sort_perm.
  - apply insertion_sort_sorted; unfold precedes_ge;
      [auto | apply key_ge_total].
Qed.

Lemma sorted_desc_non_increasing key l :
  sorted_desc key l -> non_increasing key l.
Proof.
  unfold sorted_desc, non_increasing.
  induction 1 as [|x l Hs IH Hx]; intros i a b Ha Hb.
  - destruct i; discriminate.
  - destruct i as [|i].
    + simpl in Ha, Hb. injection Ha as <-.
      destruct l as [|y l]; [discriminate|]. injection Hb as <-.
      apply key_ge_not_less. now inversion Hx.
    + now apply (IH i).
Qed.

Lemma in_columns_metric c table :
  metric_column c -> table <> [] -> in_columns c table = true.
Proof.
  intros Hc Hne. destruct table; [congruence|].
  destruct c; simpl in *; auto; contradiction.
Qed.

(** X25.  With a sort that meets what pandas promises, the table of a
    grid search sorted by a metric column holds the rows of the
    evaluated combinations, in descending order of that column with
    missing values last, so that the column never increases from a row
    to the next.  Nothing is said of the order of rows with equal
    values: it is decided by the sorting routine of the library. *)
Theorem grid_search_sorted `{L : Libm} `{P : Pandas} `{!PandasSpec P}
  (e : BacktestEngine) (df : DataFrame) (strategy_class : StrategyClass)
  (param_grid : list (string * list pval)) (sort_by : Column) :
  metric_column sort_by ->
  let table := grid_search e df strategy_class param_grid sort_by in
  Permutation (grid_results e df strategy_class param_grid) table /\
  sorted_desc (cell sort_by) table /\
  non_increasing (cell sort_by) table.
Proof.
  intros Hc table.
  assert (Hsorted : Permutation (grid_results e df strategy_class param_grid)
                      table /\ sorted_desc (cell sort_by) table).
  { subst table. unfold grid_search.
    destruct (grid_results e df strategy_class param_grid) as [|row rows] eqn:E.
    - split; [constructor | constructor].
    - rewrite in_columns_metric by (assumption || discriminate).
      split; [apply sort_values_perm | apply sort_values_sorted]. }
  destruct Hsorted as [Hp Hs].
  split; [exact Hp|]. split; [exact Hs|].
  now apply sorted_desc_non_increasing.
Qed.

Lemma grid_search_sorted_witness :
  metric_column col_sharpe_ratio /\
  let table :=
    @grid_search libm_coarse pandas_stable default_engine (bars_of [100; 101])
      EMACrossStrategy
      [("short_period"%string, [PInt 5; PInt 10])] col_sharpe_ratio in
  sorted_desc (cell col_sharpe_ratio) table.
Proof.
  split; [exact I|].
  apply (@grid_search_sorted libm_coarse pandas_stable pandas_stable_spec
           default_engine (bars_of [100; 101]) EMACrossStrategy
           [("short_period"%string, [PInt 5; PInt 10])] col_sharpe_ratio I).
Defined.

(* ================================================================== *)
(** * C4: the walk-forward split and the parameters of the test run *)
(* ================================================================== *)

Lemma iloc_split {A : Type} (k : Z) (l : list A) :
  iloc_to k l ++ iloc_from k l = l.
Proof. apply firstn_skipn. Qed.

Lemma py_int_floor q : 0 <= q -> py_int q = Qfloor q.
Proof.
  intros H. unfold py_int, Qfloor. destruct q as [n d].
  unfold Qle in H. simpl in *.
  apply Z.quot_div_nonneg; lia.
Qed.

(** The split of [walk_forward]: a prefix of [floor(L * train_ratio)]
    bars and the remaining suffix, in order and without overlap. *)
Lemma walk_forward_split (df : DataFrame) (train_ratio : Q) :
  0 < train_ratio -> train_ratio < 1 ->
  let L := inject_Z (Z.of_nat (length df)) in
  let split_idx := py_int (L * train_ratio) in
  split_idx = Qfloor (L * train_ratio) /\
  iloc_to split_idx df ++ iloc_from split_idx df = df /\
  length (iloc_to split_idx df) = Z.to_nat (Qfloor (L * train_ratio)) /\
  (length (iloc_to split_idx df) + length (iloc_from split_idx df)
   = length df)%nat.
Proof.
  intros H0 H1 L split_idx.
  assert (HL : 0 <= L) by (unfold L, Qle, inject_Z; simpl; lia).
  assert (Hnn : 0 <= L * train_ratio) by (apply Qmult_le_0_compat; lra).
  assert (Hfloor : split_idx = Qfloor (L * train_ratio))
    by (apply py_int_floor, Hnn).
  assert (Hlo : (0 <= split_idx)%Z).
  { rewrite Hfloor. change 0%Z with (Qfloor 0).
    now apply Qfloor_resp_le. }
  assert (Hhi : (split_idx <= Z.of_nat (length df))%Z).
  { rewrite Hfloor. rewrite <- (Qfloor_Z (Z.of_nat (length df))).
    apply Qfloor_resp_le. fold L. nra. }
  split; [exact Hfloor|]. split; [apply iloc_split|].
  assert (Hlen : length (iloc_to split_idx df) = Z.to_nat split_idx).
  { unfold iloc_to, slice_bound.
    replace (split_idx <? 0)%Z with false by (symmetry; apply Z.ltb_ge, Hlo).
    rewrite length_firstn. lia. }
  split; [now rewrite Hlen, Hfloor|].
  rewrite <- (iloc_split split_idx df) at 3. now rewrite length_app.
Qed.

(** One hundred bars split in the middle. *)
Lemma walk_forward_split_half (df : DataFrame) :
  length df = 100%nat ->
  let split_idx := py_int (inject_Z (Z.of_nat (length df)) * (1 # 2)) in
  length (iloc_to split_idx df) = 50%nat /\
  length (iloc_from split_idx df) = 50%nat.
Proof.
  intros H split_idx. subst split_idx. rewrite H.
  change (py_int (inject_Z (Z.of_nat 100) * (1 # 2))) with 50%Z.
  unfold iloc_to, iloc_from, slice_bound. simpl Z.ltb. cbv iota.
  rewrite length_firstn, length_skipn, H. split; reflexivity.
Qed.

(** What a report of [walk_forward] was computed from: one grid search,
    on the train prefix; the parameters read back from its first row;
    one run of the strategy built from them, on the test suffix. *)
Lemma walk_forward_report `{Libm} `{Pandas} (e : BacktestEngine)
  (df : DataFrame) (strategy_class : StrategyClass)
  (param_grid : list (string * list pval)) (train_ratio : Q)
  (rep : WalkForwardReport) :
  walk_forward e df strategy_class param_grid train_ratio
  = Some (wf_report rep) ->
  let split_idx := py_int (inject_Z (Z.of_nat (length df)) * train_ratio) in
  exists best_row rest strategy,
    grid_search e (iloc_to split_idx df) strategy_class param_grid
      col_sharpe_ratio = best_row :: rest /\
    best_params_of (param_columns (best_row :: rest)) (map fst param_grid)
      best_row = Some (best_params rep) /\
    strategy_class (best_params rep) = Some strategy /\
    run e (iloc_from split_idx df) strategy = Some (test_result rep).
Proof.
  unfold walk_forward. cbv zeta.
  destruct (grid_search e _ strategy_class param_grid col_sharpe_ratio)
    as [|best_row rest] eqn:Eg; [discriminate|].
  destruct (best_params_of _ _ best_row) as [best|] eqn:Eb; [|discriminate].
  destruct (strategy_class best) as [strategy|] eqn:Es; [|discriminate].
  destruct (run e _ strategy) as [test|] eqn:Er; [|discriminate].
  destruct (period _) as [trp|]; [|discriminate].
  destruct (period _) as [tep|]; [|discriminate].
  intros [= <-]. simpl.
  exists best_row, rest, strategy. auto.
Qed.

Lemma grid_search_singleton `{L : Libm} `{P : Pandas} `{!PandasSpec P}
  e df strategy_class param_grid sort_by row :
  grid_results e df strategy_class param_grid = [row] ->
  grid_search e df strategy_class param_grid sort_by = [row].
Proof.
  intros Hr. unfold grid_search. rewrite Hr.
  destruct (in_columns sort_by [row]); [|reflexivity].
  apply Permutation_length_1_inv, sort_values_perm.
Qed.

(** ** Where the parameters of the test run come from *)

Lemma grid_search_in `{L : Libm} `{P : Pandas} `{!PandasSpec P}
  e df strategy_class param_grid sort_by row :
  In row (grid_search e df strategy_class param_grid sort_by) ->
  In row (grid_results e df strategy_class param_grid).
Proof.
  unfold grid_search.
  destruct (grid_results e df strategy_class param_grid) as [|r rs];
    [contradiction|].
  destruct (in_columns sort_by (r :: rs)); [|auto].
  apply Permutation_in. symmetry. apply sort_values_perm.
Qed.

Lemma run_params `{Libm} e df strategy r :
  run e df strategy = Some r -> result_params r = params strategy.
Proof.
  unfold run. destruct (calculate strategy df); [|discriminate].
  destruct (calculate_metrics _ _ _); [|discriminate].
  now intros [= <-].
Qed.

(** Every row of the table is the summary of the run of one combination
    of the grid. *)
Lemma grid_results_in `{Libm} e df strategy_class param_grid row :
  In row (grid_results e df strategy_class param_grid) ->
  exists kwargs s r,
    In kwargs (grid_combinations param_grid) /\
    strategy_class kwargs = Some s /\
    run e df s = Some r /\
    row = summary r.
Proof.
  unfold grid_results. intros Hin.
  apply in_flat_map in Hin as (kwargs & Hk & Hrow).
  unfold grid_row in Hrow.
  destruct (strategy_class kwargs) as [s|] eqn:Es; [|contradiction].
  destruct (run e df s) as [r|] eqn:Er; [|contradiction].
  destruct Hrow as [<-|[]]. exists kwargs, s, r. auto.
Qed.

Lemma dict_get_in d k v : dict_get d k = Some v -> In k (map fst d).
Proof.
  induction d as [|[k' v'] d IH]; simpl; [discriminate|].
  destruct (String.eqb_spec k k') as [->|Hne]; auto.
Qed.

Lemma add_keys_in cols d k :
  In k (add_keys cols d) <-> In k cols \/ In k (map fst d).
Proof.
  revert cols; induction d as [|[k' v'] d IH]; intros cols; simpl.
  - tauto.
  - destruct (existsb (String.eqb k') cols) eqn:E.
    + rewrite IH. split; [tauto|]. intros [H|[<-|H]]; auto.
      apply existsb_exists in E as (x & Hx & Hxk).
      apply String.eqb_eq in Hxk. subst x. auto.
    + rewrite IH, in_app_iff. simpl. tauto.
Qed.

Lemma param_columns_in table row k :
  In row table -> In k (map fst (summary_params row)) ->
  In k (param_columns table).
Proof.
  unfold param_columns. intros Hrow Hk.
  assert (Hgen : forall cols,
    In k cols \/ In row table ->
    In k (fold_left (fun c r => add_keys c (summary_params r)) table cols)).
  { clear Hrow. induction table as [|r table IH]; intros cols [H|H];
      simpl in *; auto; try contradiction.
    - apply IH. left. apply add_keys_in. auto.
    - destruct H as [->|H].
      + apply IH. left. apply add_keys_in. auto.
      + apply IH. auto. }
  apply Hgen. auto.
Qed.

Lemma best_params_of_get cols grid_keys row best k v :
  best_params_of cols grid_keys row = Some best ->
  In k cols -> In k grid_keys ->
  dict_get (summary_params row) k = Some v ->
  dict_get best k = Some (restore_int v).
Proof.
  revert best; induction cols as [|c cols IH]; intros best Hb Hc Hg Hv;
    [contradiction|].
  simpl in Hb.
  destruct (String.eqb_spec k c) as [->|Hne].
  - replace (existsb (String.eqb c) grid_keys) with true in Hb.
    2:{ symmetry. apply existsb_exists. exists c. split; auto.
        apply String.eqb_refl. }
    rewrite Hv in Hb.
    destruct (best_params_of cols grid_keys row); [|discriminate].
    injection Hb as <-. simpl. now rewrite String.eqb_refl.
  - destruct Hc as [->|Hc]; [congruence|].
    destruct (existsb (String.eqb c) grid_keys).
    + destruct (dict_get (summary_params row) c); [|discriminate].
      destruct (best_params_of cols grid_keys row) as [d|]; [|discriminate].
      injection Hb as <-. simpl.
      replace (String.eqb k c) with false
        by (symmetry; now apply String.eqb_neq).
      now apply IH.
    + now apply IH.
Qed.

Lemma best_params_of_keys cols grid_keys row best :
  best_params_of cols grid_keys row = Some best ->
  Forall (fun k => In k grid_keys) (map fst best).
Proof.
  revert best; induction cols as [|c cols IH]; intros best Hb; simpl in Hb.
  - injection Hb as <-. constructor.
  - destruct (existsb (String.eqb c) grid_keys) eqn:E; [|now apply IH].
    destruct (dict_get (summary_params row) c); [|discriminate].
    destruct (best_params_of cols grid_keys row) as [d|]; [|discriminate].
    injection Hb as <-. simpl. constructor; [|now apply IH].
    apply existsb_exists in E as (x & Hx & Hxc).
    apply String.eqb_eq in Hxc. now subst x.
Qed.

Lemma grid_combination_keys param_grid kwargs k v :
  In kwargs (grid_combinations param_grid) -> In (k, v) kwargs ->
  In k (map fst param_grid).
Proof.
  unfold grid_combinations. intros Hk Hkv.
  apply in_map_iff in Hk as (values & <- & _).
  eapply in_combine_l, Hkv.
Qed.

(** For a strategy class that lists the keyword arguments of the grid in
    [params], the test suffix is evaluated with the combination of the
    grid that produced the first row of the train table: every keyword
    argument of that combination is found, with its value, in the
    parameters of the test run, which hold keys of the grid only. *)
Lemma walk_forward_uses_best_combination `{L : Libm} `{P : Pandas}
  `{!PandasSpec P} (e : BacktestEngine) (df : DataFrame)
  (strategy_class : StrategyClass)
  (param_grid : list (string * list pval)) (train_ratio : Q)
  (rep : WalkForwardReport) :
  exposes_grid_keys strategy_class param_grid ->
  walk_forward e df strategy_class param_grid train_ratio
  = Some (wf_report rep) ->
  let split_idx := py_int (inject_Z (Z.of_nat (length df)) * train_ratio) in
  exists kwargs s r rest,
    In kwargs (grid_combinations param_grid) /\
    strategy_class kwargs = Some s /\
    run e (iloc_to split_idx df) s = Some r /\
    grid_search e (iloc_to split_idx df) strategy_class param_grid
      col_sharpe_ratio = summary r :: rest /\
    (forall k v, In (k, v) kwargs ->
                 dict_get (best_params rep) k = Some (restore_int v)) /\
    Forall (fun k => In k (map fst param_grid)) (map fst (best_params rep)).
Proof.
  intros Hecho Hwf split_idx.
  destruct (walk_forward_report e df strategy_class param_grid train_ratio
              rep Hwf) as (best_row & rest & strategy & Hgs & Hbest & _ & _).
  fold split_idx in Hgs.
  assert (Hin : In best_row
                  (grid_results e (iloc_to split_idx df) strategy_class
                     param_grid)).
  { eapply grid_search_in. rewrite Hgs. now left. }
  destruct (grid_results_in _ _ _ _ _ Hin)
    as (kwargs & s & r & Hk & Hs & Hr & ->).
  exists kwargs, s, r, rest.
  split; [exact Hk|]. split; [exact Hs|]. split; [exact Hr|].
  split; [exact Hgs|]. split.
  - intros k v Hkv.
    assert (Hget : dict_get (summary_params (summary r)) k = Some v).
    { simpl. rewrite (run_params _ _ _ _ Hr). eapply Hecho; eauto. }
    eapply best_params_of_get; [exact Hbest | | | exact Hget].
    + eapply param_columns_in; [now left|]. eapply dict_get_in, Hget.
    + eapply grid_combination_keys; eauto.
  - eapply best_params_of_keys, Hbest.
Qed.

Lemma pval_eqb_eq a b : pval_eqb a b = true -> a = b.
Proof.
  destruct a as [x|x|x], b as [y|y|y]; simpl; try discriminate; intros H.
  - apply Z.eqb_eq in H. now subst.
  - apply andb_true_iff in H as [Hn Hd].
    apply Z.eqb_eq in Hn. apply Pos.eqb_eq in Hd.
    destruct x, y; simpl in *. now subst.
  - apply Bool.eqb_prop in H. now subst.
Qed.

Lemma exposes_grid_keys_check strategy_class param_grid :
  forallb (lists_kwargs strategy_class) (grid_combinations param_grid) = true ->
  exposes_grid_keys strategy_class param_grid.
Proof.
  intros Hall kwargs s Hk Hs k v Hkv.
  rewrite forallb_forall in Hall. specialize (Hall kwargs Hk).
  unfold lists_kwargs in Hall. rewrite Hs in Hall.
  rewrite forallb_forall in Hall. specialize (Hall (k, v) Hkv).
  simpl in Hall. destruct (dict_get (params s) k) as [v'|]; [|discriminate].
  now rewrite (pval_eqb_eq _ _ Hall).
Qed.

(** The grid the repository's script searches is one whose keys
    [EMACrossStrategy] lists. *)
Lemma script_grid_exposed : exposes_grid_keys EMACrossStrategy script_grid.
Proof. apply exposes_grid_keys_check. vm_compute. reflexivity. Qed.

(** C4 fails on a grid over [rsi_period].  [EMACrossStrategy.params]
    does not list [rsi_period], so the table of the grid search has no
    such column and the parameters read back from the best row are
    empty: the test suffix is evaluated with the default period 14, not
    with the period 2 the train prefix was evaluated with.  On twelve
    rising closes the test run then never goes long, while the strategy
    with period 2 is long from the second test bar on. *)
Theorem walk_forward_drops_rsi_period `{L : Libm} `{P : Pandas}
  `{!PandasSpec P} :
  let df := bars_of rising_closes in
  let grid := [("rsi_period"%string, [PInt 2])] in
  grid_combinations grid = [[("rsi_period"%string, PInt 2)]] /\
  exists rep,
    walk_forward default_engine df EMACrossStrategy grid (1 # 2)
    = Some (wf_report rep) /\
    best_params rep = [] /\
    signals (test_result rep) = [0; 0; 0; 0; 0; 0]%Z /\
    exists s r,
      EMACrossStrategy [("rsi_period"%string, PInt 2)] = Some s /\
      run default_engine (iloc_from 6 df) s = Some r /\
      signals r = [0; 1; 1; 1; 1; 1]%Z.
Proof.
  intros df grid. split; [reflexivity|].
  assert (Hres : exists row,
    grid_results default_engine
      (iloc_to (py_int (inject_Z (Z.of_nat (length df)) * (1 # 2))) df)
      EMACrossStrategy grid = [row] /\
    summary_params row
    = [ ("short_period"%string, PInt 5); ("long_period"%string, PInt 20);
        ("trend_period"%string, PInt 60); ("rsi_threshold"%string, PInt 50);
        ("use_trend_filter"%string, PBool true);
        ("use_rsi_filter"%string, PBool true) ]).
  { vm_compute. eexists. split; reflexivity. }
  destruct Hres as (row & Hres & Hparams).
  pose proof (grid_search_singleton _ _ _ _ col_sharpe_ratio _ Hres) as Hgs.
  destruct row as [nm ps ms hr]. simpl in Hparams. subst ps.
  eexists. split; [|split; [|split]].
  - unfold walk_forward. cbv zeta. rewrite Hgs.
    vm_compute. reflexivity.
  - reflexivity.
  - reflexivity.
  - eexists. eexists. split; [reflexivity|].
    split; [vm_compute; reflexivity | reflexivity].
Qed.

Lemma walk_forward_drops_rsi_period_witness :
  PandasSpec pandas_stable /\
  exists rep,
    @walk_forward libm_coarse pandas_stable default_engine
      (bars_of rising_closes) EMACrossStrategy
      [("rsi_period"%string, [PInt 2])] (1 # 2) = Some (wf_report rep) /\
    best_params rep = [].
Proof.
  split; [exact pandas_stable_spec|].
  destruct (@walk_forward_drops_rsi_period libm_coarse pandas_stable
              pandas_stable_spec) as (_ & rep & Hw & Hb & _).
  exists rep. split; assumption.
Defined.
(* ================================================================== *)
(** * The engine on particular positions *)
(* ================================================================== *)

Lemma bar_return_no_change e e' cp c sp :
  (bar_return e cp c (of_Z sp) (of_Z sp)
   == bar_return e' cp c (of_Z sp) (of_Z sp))%F.
Proof.
  assert (Hz : Qabs (inject_Z sp - inject_Z sp) == 0).
  { setoid_replace (inject_Z sp - inject_Z sp) with 0 by ring. reflexivity. }
  unfold bar_return, of_Z.
  destruct ((c / cp - Fin 1) * Fin (inject_Z sp))%F as [x| | |];
    cbn [fsub fill0 isnan fabs fmul feq]; try exact I; try reflexivity.
  rewrite Hz. ring.
Qed.

(** X1.  A bar on which the signal does not change, and the first bar,
    carry no transaction cost: their strategy return is the same for
    every fee rate and slippage. *)
Theorem cost_charged_only_on_signal_change (e e' : BacktestEngine)
  (df : SignalFrame) (t : nat) :
  (t < length df)%nat ->
  t = 0%nat \/ signal_at df t = signal_at df (t - 1) ->
  (at_ (frame_returns e df) t == at_ (frame_returns e' df) t)%F.
Proof.
  intros Ht Hs.
  destruct t as [|t].
  - rewrite !at_frame_returns_0 by (destruct df; [simpl in Ht; lia | discriminate]).
    reflexivity.
  - destruct Hs as [Hs|Hs]; [discriminate|].
    replace (S t - 1)%nat with t in Hs by lia.
    rewrite !at_frame_returns_S by assumption.
    rewrite Hs. apply bar_return_no_change.
Qed.

Lemma cost_charged_only_on_signal_change_witness :
  let e' := {| fee_rate := 0; slippage := 0; initial_capital := 1 |} in
  let df := frame_of [100; 110; 99] [0; 1; 1]%Z in
  (2 < length df)%nat /\
  signal_at df 2 = signal_at df 1 /\
  (at_ (frame_returns default_engine df) 2 == at_ (frame_returns e' df) 2)%F.
Proof.
  intros e' df. split; [simpl; lia|]. split; [reflexivity|].
  apply (cost_charged_only_on_signal_change default_engine e' df 2).
  - simpl; lia.
  - right. reflexivity.
Defined.

(** ** A strategy that stays out of the market *)

Lemma bar_return_flat e cp c : (bar_return e cp c (of_Z 0) (of_Z 0) == Fin 0)%F.
Proof.
  unfold bar_return, of_Z.
  destruct (c / cp - Fin 1)%F as [x| | |];
    cbn [fsub fill0 isnan fabs fmul feq sign sign_mul inf_of Qcompare];
    try reflexivity.
  change (inject_Z 0) with 0. change (Qabs (0 - 0)) with 0. ring.
Qed.

Lemma flat_signal_at df t :
  Forall (fun r => signal r = 0%Z) df -> signal_at df t = 0%Z.
Proof.
  intros Hf. unfold signal_at, result_signal.
  revert t; induction Hf as [|r df Hr _ IH]; intros [|t]; simpl; auto.
Qed.

Lemma flat_returns_zero e df :
  Forall (fun r => signal r = 0%Z) df -> all_zero (frame_returns e df).
Proof.
  intros Hf. unfold all_zero. apply Forall_forall. intros x Hx.
  destruct (In_nth _ _ NaN Hx) as [t [Ht <-]].
  rewrite length_frame_returns in Ht.
  fold (at_ (frame_returns e df) t).
  destruct t as [|t].
  - rewrite at_frame_returns_0 by (destruct df; [simpl in Ht; lia | discriminate]).
    reflexivity.
  - rewrite at_frame_returns_S by assumption.
    rewrite !flat_signal_at by assumption.
    apply bar_return_flat.
Qed.

Lemma growth_zeros qs n : Forall (fun q => q == 0) qs -> growth qs n == 1.
Proof.
  intros Hz. revert n; induction Hz as [|q qs Hq _ IH]; intros [|n];
    cbn [growth]; try reflexivity.
  rewrite IH, Hq. ring.
Qed.

Lemma signal_changes_from_flat prev sigs :
  Forall (fun s => s = prev) sigs -> signal_changes_from prev sigs = 0%nat.
Proof.
  induction 1 as [|s sigs Hs _ IH]; simpl; [reflexivity|].
  subst s. now rewrite Z.eqb_refl, IH.
Qed.

Lemma signal_changes_constant c sigs :
  Forall (fun s => s = c) sigs -> signal_changes sigs = 0%nat.
Proof.
  intros Hc. destruct sigs as [|s sigs]; [reflexivity|].
  inversion Hc; subst. simpl. now apply signal_changes_from_flat.
Qed.

Lemma constant_result_signal c df :
  Forall (fun r => signal r = c) df -> Forall (fun s => s = c) (result_signal df).
Proof.
  unfold result_signal. induction 1; simpl; constructor; auto.
Qed.

Lemma metrics_total_trades `{Libm} returns equity sigs m :
  calculate_metrics returns equity (Some sigs) = Some m ->
  signal_changes sigs = 0%nat -> total_trades m = 0%Z.
Proof.
  intros Hm Hc. unfold calculate_metrics in Hm.
  destruct (length (dropna returns) =? 0)%nat.
  - now inversion Hm.
  - destruct (max_drawdown_of equity); [|discriminate].
    inversion Hm; subst; cbn [total_trades total_trades_of].
    now rewrite count_position_changes_spec, Hc.
Qed.

Lemma metrics_total_return_zero `{Libm} returns equity sigs m :
  calculate_metrics returns equity sigs = Some m ->
  all_zero (dropna returns) -> (total_return m == Fin 0)%F.
Proof.
  intros Hm Hz. unfold calculate_metrics in Hm.
  destruct (length (dropna returns) =? 0)%nat.
  - inversion Hm. reflexivity.
  - destruct (max_drawdown_of equity); [|discriminate].
    inversion Hm; subst; cbn [total_return].
    destruct (all_zero_rationals _ Hz) as [qs [-> Hqs]].
    destruct (total_return_zero qs Hqs) as [t [-> Ht]]. exact Ht.
Qed.

(** X2.  A strategy that never takes a position earns exactly zero on
    every bar, whatever the prices and the costs: the equity curve stays
    at the initial capital, no trade is counted and the total return is
    0. *)
Theorem flat_strategy_earns_nothing `{Libm} (e : BacktestEngine)
  (bars : DataFrame) (strategy : Strategy) (df : SignalFrame) :
  calculate strategy bars = Some df ->
  Forall (fun r => signal r = 0%Z) df ->
  exists r,
    run e bars strategy = Some r /\
    all_zero (frame_returns e df) /\
    (forall t, (t < length df)%nat ->
               (at_ (equity_curve r) t == Fin (initial_capital e))%F) /\
    total_trades (metrics r) = 0%Z /\
    (total_return (metrics r) == Fin 0)%F.
Proof.
  intros Hc Hf.
  destruct (run_returns e bars strategy df Hc)
    as [r [Hr [Heq [_ [_ [_ [_ Hm]]]]]]].
  pose proof (flat_returns_zero e df Hf) as Hz.
  exists r. split; [exact Hr|]. split; [exact Hz|].
  split; [|split].
  - intros t Ht. rewrite Heq. unfold frame_equity.
    destruct (all_zero_rationals _ Hz) as [qs [Hq Hqs]].
    assert (Hl : length qs = length df).
    { rewrite <- (length_frame_returns e df), Hq. now rewrite length_map. }
    rewrite Hq, equity_of_finite. unfold at_.
    rewrite (nth_map_in Fin 0 NaN) by (rewrite length_q_equity; lia).
    cbn [feq]. rewrite nth_q_equity by lia.
    rewrite growth_zeros by assumption. ring.
  - eapply metrics_total_trades; [exact Hm|].
    apply (signal_changes_constant 0%Z), constant_result_signal, Hf.
  - eapply metrics_total_return_zero; [exact Hm|].
    unfold frame_returns. rewrite strategy_returns_no_nan. exact Hz.
Qed.

Lemma flat_strategy_earns_nothing_witness :
  let df := frame_of [100; 0; 121] [0; 0; 0]%Z in
  Forall (fun r => signal r = 0%Z) df /\
  exists r,
    @run libm_coarse default_engine (bars_of [100; 0; 121])
      (fixed_signals [0; 0; 0]%Z) = Some r /\
    all_zero (frame_returns default_engine df) /\
    total_trades (metrics r) = 0%Z.
Proof.
  intros df.
  assert (Hf : Forall (fun r => signal r = 0%Z) df)
    by (repeat constructor).
  split; [exact Hf|].
  destruct (@flat_strategy_earns_nothing libm_coarse default_engine
              (bars_of [100; 0; 121]) (fixed_signals [0; 0; 0]%Z) df
              eq_refl Hf) as [r [Hr [Hz [_ [Ht _]]]]].
  exists r. auto.
Defined.

(** ** A strategy that is always long *)

Lemma rev_head {A : Type} (l : list A) d :
  l <> [] -> exists r, rev l = nth (length l - 1) l d :: r.
Proof.
  intros Hl. destruct (exists_last Hl) as [l' [a ->]].
  exists (rev l'). rewrite rev_app_distr. cbn [rev app].
  rewrite length_app. cbn [length].
  replace (length l' + 1 - 1)%nat with (length l') by lia.
  now rewrite nth_middle.
Qed.

Lemma long_signal_at df t :
  Forall (fun r => signal r = 1%Z) df -> (t < length df)%nat ->
  signal_at df t = 1%Z.
Proof.
  intros Hf. unfold signal_at, result_signal.
  revert t; induction Hf as [|r df Hr _ IH]; intros [|t] Ht; simpl in *;
    try lia; auto.
  apply IH. lia.
Qed.

(** With a long position before and after, the return of a bar is the
    price return of the bar, whatever it is, and 0 where it is missing. *)
Lemma bar_return_long e cp c :
  (bar_return e cp c (of_Z 1) (of_Z 1) == fill0 (c / cp - Fin 1))%F.
Proof.
  unfold bar_return, of_Z.
  destruct (c / cp - Fin 1)%F as [x| | |];
    cbn [fsub fill0 isnan fabs fmul feq sign sign_mul inf_of Qcompare];
    try reflexivity; try exact I.
  change (inject_Z 1) with 1. change (Qabs (1 - 1)) with 0. ring.
Qed.

(** X4.  A strategy that is long on every bar earns on every bar
    exactly the price return of that bar ([pct_change] of the close, 0
    where it is missing), whatever the fee rate and the slippage, and no
    trade is counted. *)
Theorem always_long_earns_price_return `{Libm} (e : BacktestEngine)
  (bars : DataFrame) (strategy : Strategy) (df : SignalFrame) :
  calculate strategy bars = Some df ->
  Forall (fun r => signal r = 1%Z) df ->
  exists r,
    run e bars strategy = Some r /\
    (forall t, (t < length df)%nat ->
       (at_ (frame_returns e df) t
        == fill0 (at_ (pct_change (result_close df)) t))%F) /\
    total_trades (metrics r) = 0%Z.
Proof.
  intros Hc Hf.
  destruct (run_returns e bars strategy df Hc)
    as [r [Hr [_ [_ [_ [_ [_ Hm]]]]]]].
  exists r. split; [exact Hr|]. split.
  - intros t Ht.
    assert (Hne : result_close df <> []).
    { intros E. apply (f_equal (@length float)) in E.
      rewrite length_result_close in E. simpl in E. lia. }
    destruct t as [|t].
    + rewrite at_frame_returns_0 by (destruct df; [simpl in Ht; lia | discriminate]).
      rewrite at_pct_change_0 by exact Hne. reflexivity.
    + rewrite at_frame_returns_S by exact Ht.
      rewrite at_pct_change_S by (rewrite length_result_close; exact Ht).
      rewrite !at_result_close by lia.
      rewrite !long_signal_at by (assumption || lia).
      apply bar_return_long.
  - eapply metrics_total_trades; [exact Hm|].
    apply (signal_changes_constant 1%Z), constant_result_signal, Hf.
Qed.

Lemma always_long_earns_price_return_witness :
  let bars := bars_of [100; 110; 99] in
  let df := frame_of [100; 110; 99] [1; 1; 1]%Z in
  Forall (fun r => signal r = 1%Z) df /\
  exists r,
    @run libm_coarse default_engine bars (fixed_signals [1; 1; 1]%Z) = Some r /\
    (at_ (frame_returns default_engine df) 1 == Fin (1 # 10))%F /\
    total_trades (metrics r) = 0%Z.
Proof.
  intros bars df.
  assert (Hf : Forall (fun r => signal r = 1%Z) df) by (repeat constructor).
  split; [exact Hf|].
  destruct (@always_long_earns_price_return libm_coarse default_engine bars
              (fixed_signals [1; 1; 1]%Z) df eq_refl Hf)
    as [r [Hr [Hat Ht]]].
  exists r. split; [exact Hr|]. split; [|exact Ht].
  eapply feq_trans; [apply (Hat 1%nat); simpl; lia|].
  vm_compute. reflexivity.
Defined.

(* ================================================================== *)
(** * Tables of results *)
(* ================================================================== *)

Lemma run_fails `{Libm} e df strategy :
  calculate strategy df = None -> run e df strategy = None.
Proof. intros Hc. unfold run. now rewrite Hc. Qed.

Lemma run_calculates `{Libm} e df strategy :
  calculates df strategy = true ->
  exists r, run e df strategy = Some r /\
            strategy_name r = name strategy /\
            result_params r = params strategy.
Proof.
  unfold calculates. destruct (calculate strategy df) as [out|] eqn:Hc;
    [intros _ | discriminate].
  destruct (run_returns e df strategy out Hc) as [r [Hr [_ [_ [_ [Hp _]]]]]].
  exists r. split; [exact Hr|]. split; [|exact Hp].
  unfold run in Hr. rewrite Hc in Hr.
  destruct (calculate_metrics _ _ _); [|discriminate].
  now inversion Hr.
Qed.

(** X5.  [compare_strategies] returns one row for each strategy whose
    [calculate] does not raise, in the order of the list, carrying that
    strategy's name and parameters; a failing strategy is skipped and
    does not disturb the others. *)
Theorem compare_strategies_rows `{Libm} (e : BacktestEngine)
  (df : DataFrame) (strategies : list Strategy) :
  let table := compare_strategies e df strategies in
  map summary_strategy table = map name (filter (calculates df) strategies) /\
  map summary_params table = map params (filter (calculates df) strategies).
Proof.
  cbv zeta. unfold compare_strategies.
  induction strategies as [|s l [IH1 IH2]]; [split; reflexivity|].
  cbn [flat_map filter].
  destruct (calculates df s) eqn:Hs.
  - destruct (run_calculates e df s Hs) as [r [Hr [Hn Hp]]].
    rewrite Hr. cbn [app map summary summary_strategy summary_params].
    now rewrite IH1, IH2, Hn, Hp.
  - unfold calculates in Hs.
    destruct (calculate s df) eqn:Hc; [discriminate|].
    rewrite (run_fails e df s Hc). cbn [app]. now split.
Qed.

(** ** The grid *)

Lemma length_flat_map_const {A B : Type} (f : A -> list B) l n :
  (forall x, length (f x) = n) -> length (flat_map f l) = (length l * n)%nat.
Proof.
  intros Hf. induction l as [|x l IH]; [reflexivity|].
  cbn [flat_map length]. rewrite length_app, Hf, IH. lia.
Qed.

Lemma length_product {A : Type} (lists : list (list A)) :
  length (product lists)
  = fold_right (fun l n => (length l * n)%nat) 1%nat lists.
Proof.
  induction lists as [|l rest IH]; [reflexivity|].
  cbn [product fold_right].
  rewrite (length_flat_map_const _ l (length (product rest))).
  - now rewrite IH.
  - intros x. now rewrite length_map.
Qed.

Lemma in_product {A : Type} (lists : list (list A)) vs :
  In vs (product lists) <-> Forall2 (fun v l => In v l) vs lists.
Proof.
  revert vs; induction lists as [|l rest IH]; intros vs.
  - cbn [product In]. split.
    + intros [<-|[]]. constructor.
    + intros Hf. inversion Hf. now left.
  - cbn [product]. rewrite in_flat_map. split.
    + intros [x [Hx Hin]]. apply in_map_iff in Hin.
      destruct Hin as [vs' [<- Hvs']]. constructor; [exact Hx|].
      now apply IH.
    + intros Hf. inversion Hf as [|v l' vs' rest' Hv Hrest]; subst.
      exists v. split; [exact Hv|]. apply in_map, IH, Hrest.
Qed.

Lemma combine_fst_snd {A B : Type} (l : list (A * B)) :
  combine (map fst l) (map snd l) = l.
Proof.
  induction l as [|[a b] l IH]; [reflexivity|]. cbn. now rewrite IH.
Qed.

Lemma map_fst_combine {A B : Type} (l1 : list A) (l2 : list B) :
  length l1 = length l2 -> map fst (combine l1 l2) = l1.
Proof.
  revert l2; induction l1 as [|a l1 IH]; intros [|b l2] Hl;
    try discriminate; [reflexivity|].
  cbn. rewrite IH; [reflexivity | now inversion Hl].
Qed.

Lemma map_snd_combine {A B : Type} (l1 : list A) (l2 : list B) :
  length l1 = length l2 -> map snd (combine l1 l2) = l2.
Proof.
  revert l2; induction l1 as [|a l1 IH]; intros [|b l2] Hl;
    try discriminate; [reflexivity|].
  cbn. rewrite IH; [reflexivity | now inversion Hl].
Qed.

Lemma Forall2_map_r {A B C : Type} (R : A -> C -> Prop) (f : B -> C) l1 l2 :
  Forall2 R l1 (map f l2) <-> Forall2 (fun a b => R a (f b)) l1 l2.
Proof.
  revert l1; induction l2 as [|b l2 IH]; intros l1; cbn [map]; split;
    intros Hf; inversion Hf; subst; constructor; auto; now apply IH.
Qed.

Lemma length_grid_combinations param_grid :
  length (grid_combinations param_grid) = grid_size param_grid.
Proof.
  unfold grid_combinations, grid_size.
  rewrite length_map, length_product.
  induction param_grid as [|kv g IH]; [reflexivity|].
  cbn [map fold_right]. now rewrite IH.
Qed.

Lemma in_grid_combinations param_grid kwargs :
  In kwargs (grid_combinations param_grid) <->
  map fst kwargs = map fst param_grid /\
  Forall2 (fun v kv => In v (snd kv)) (map snd kwargs) param_grid.
Proof.
  unfold grid_combinations. rewrite in_map_iff. split.
  - intros [vs [<- Hvs]]. apply in_product in Hvs.
    assert (Hl : length (map fst param_grid) = length vs).
    { apply Forall2_length in Hvs. now rewrite !length_map in *. }
    rewrite map_fst_combine, map_snd_combine by exact Hl.
    split; [reflexivity|].
    apply (Forall2_map_r (fun v l => In v l) snd) in Hvs. exact Hvs.
  - intros [Hk Hv]. exists (map snd kwargs). split.
    + rewrite <- Hk. apply combine_fst_snd.
    + apply in_product.
      apply (Forall2_map_r (fun v l => In v l) snd). exact Hv.
Qed.

(** X6.  The combinations of a grid are its Cartesian product: there are
    as many as the product of the lengths of the value lists, and a
    keyword dictionary is one of them exactly when it has the keys of
    the grid, in the grid's order, each with a value of that key's
    list. *)
Theorem grid_combinations_product (param_grid : list (string * list pval)) :
  length (grid_combinations param_grid) = grid_size param_grid /\
  forall kwargs,
    In kwargs (grid_combinations param_grid) <->
    map fst kwargs = map fst param_grid /\
    Forall2 (fun v kv => In v (snd kv)) (map snd kwargs) param_grid.
Proof.
  split; [apply length_grid_combinations | apply in_grid_combinations].
Qed.

Lemma grid_row_length `{Libm} e df strategy_class kwargs :
  length (grid_row e df strategy_class kwargs)
  = if evaluates df strategy_class kwargs then 1%nat else 0%nat.
Proof.
  unfold grid_row, evaluates.
  destruct (strategy_class kwargs) as [s|]; [|reflexivity].
  destruct (calculates df s) eqn:Hs.
  - destruct (run_calculates e df s Hs) as [r [-> _]]. reflexivity.
  - unfold calculates in Hs. destruct (calculate s df) eqn:Hc; [discriminate|].
    now rewrite (run_fails e df s Hc).
Qed.

Lemma length_grid_results `{Libm} e df strategy_class param_grid :
  length (grid_results e df strategy_class param_grid)
  = length (filter (evaluates df strategy_class)
              (grid_combinations param_grid)).
Proof.
  unfold grid_results.
  induction (grid_combinations param_grid) as [|k l IH]; [reflexivity|].
  cbn [flat_map filter]. rewrite length_app, grid_row_length, IH.
  destruct (evaluates df strategy_class k); reflexivity.
Qed.

Lemma length_grid_search `{L : Libm} `{P : Pandas} `{!PandasSpec P}
  e df strategy_class param_grid sort_by :
  length (grid_search e df strategy_class param_grid sort_by)
  = length (grid_results e df strategy_class param_grid).
Proof.
  unfold grid_search.
  destruct (grid_results e df strategy_class param_grid) as [|row rows];
    [reflexivity|].
  destruct (in_columns sort_by (row :: rows)); [|reflexivity].
  symmetry. apply Permutation_length, sort_values_perm.
Qed.

(** X7.  Whatever the sort column, [grid_search] returns exactly one row
    for each combination from which a strategy can be built and
    calculated; the other combinations are skipped, so there are never
    more rows than combinations. *)
Theorem grid_search_row_count `{L : Libm} `{P : Pandas} `{!PandasSpec P}
  (e : BacktestEngine) (df : DataFrame) (strategy_class : StrategyClass)
  (param_grid : list (string * list pval)) (sort_by : Column) :
  let table := grid_search e df strategy_class param_grid sort_by in
  length table
  = length (filter (evaluates df strategy_class)
              (grid_combinations param_grid)) /\
  (length table <= grid_size param_grid)%nat.
Proof.
  cbv zeta. rewrite length_grid_search, length_grid_results.
  split; [reflexivity|].
  rewrite <- (length_grid_combinations param_grid).
  apply filter_length_le.
Qed.

Lemma grid_search_row_count_witness :
  PandasSpec pandas_stable /\
  let table :=
    @grid_search libm_coarse pandas_stable default_engine (bars_of [100; 101])
      EMACrossStrategy
      [("short_period"%string, [PInt 0; PInt 5; PInt 10])] col_sharpe_ratio in
  length table = 2%nat.
Proof.
  split; [exact pandas_stable_spec|].
  cbv zeta.
  destruct (@grid_search_row_count libm_coarse pandas_stable
              pandas_stable_spec default_engine (bars_of [100; 101])
              EMACrossStrategy
              [("short_period"%string, [PInt 0; PInt 5; PInt 10])]
              col_sharpe_ratio) as [Hl _].
  rewrite Hl. vm_compute. reflexivity.
Defined.

(** ** Walk-forward *)

Lemma grid_results_empty `{Libm} e df strategy_class param_grid :
  grid_results e df strategy_class param_grid = [] <->
  Forall (fun kwargs => evaluates df strategy_class kwargs = false)
    (grid_combinations param_grid).
Proof.
  unfold grid_results.
  induction (grid_combinations param_grid) as [|k l IH].
  - split; [constructor | reflexivity].
  - cbn [flat_map].
    pose proof (grid_row_length e df strategy_class k) as Hk.
    split.
    + intros Happ. apply app_eq_nil in Happ. destruct Happ as [Hr Hl].
      rewrite Hr in Hk. constructor; [|now apply IH].
      destruct (evaluates df strategy_class k); [discriminate | reflexivity].
    + intros Hf. inversion Hf as [|? ? Hk' Hl']; subst.
      rewrite Hk' in Hk. apply length_zero_iff_nil in Hk.
      rewrite Hk. cbn [app]. now apply IH.
Qed.

Lemma grid_search_empty `{L : Libm} `{P : Pandas} `{!PandasSpec P}
  e df strategy_class param_grid sort_by :
  grid_search e df strategy_class param_grid sort_by = [] <->
  grid_results e df strategy_class param_grid = [].
Proof.
  rewrite <- !length_zero_iff_nil, length_grid_search. reflexivity.
Qed.

(** X8.  [walk_forward] returns the error "No valid results in training
    period" exactly when no combination of the grid yields a strategy
    that can be calculated on the train prefix; it returns no other
    error. *)
Theorem walk_forward_error_iff `{L : Libm} `{P : Pandas} `{!PandasSpec P}
  (e : BacktestEngine) (df : DataFrame) (strategy_class : StrategyClass)
  (param_grid : list (string * list pval)) (train_ratio : Q) :
  let split_idx := py_int (inject_Z (Z.of_nat (length df)) * train_ratio) in
  (Forall (fun kwargs =>
             evaluates (iloc_to split_idx df) strategy_class kwargs = false)
     (grid_combinations param_grid) <->
   walk_forward e df strategy_class param_grid train_ratio
   = Some (wf_error "No valid results in training period")) /\
  (forall msg,
     walk_forward e df strategy_class param_grid train_ratio
     = Some (wf_error msg) ->
     msg = "No valid results in training period"%string).
Proof.
  cbv zeta. rewrite <- grid_results_empty.
  rewrite <- (grid_search_empty e _ strategy_class param_grid col_sharpe_ratio).
  unfold walk_forward.
  destruct (grid_search e _ strategy_class param_grid col_sharpe_ratio)
    as [|best_row rest].
  - split; [split; reflexivity|]. intros msg Hm. now inversion Hm.
  - assert (Hno : forall msg,
      match best_params_of (param_columns (best_row :: rest))
              (map fst param_grid) best_row with
      | None => None
      | Some best =>
          match strategy_class best with
          | None => None
          | Some strategy =>
              match run e (iloc_from
                   (py_int (inject_Z (Z.of_nat (length df)) * train_ratio)) df)
                      strategy with
              | None => None
              | Some test =>
                  match period (iloc_to
                    (py_int (inject_Z (Z.of_nat (length df)) * train_ratio)) df),
                        period (iloc_from
                    (py_int (inject_Z (Z.of_nat (length df)) * train_ratio)) df)
                  with
                  | Some trp, Some tep =>
                      Some (wf_report
                        {| train_period := trp; test_period := tep;
                           best_params := best;
                           train_sharpe := sharpe_ratio (summary_metrics best_row);
                           train_return := total_return (summary_metrics best_row);
                           test_result := test |})
                  | _, _ => None
                  end
              end
          end
      end <> Some (wf_error msg)).
    { intros msg.
      destruct (best_params_of _ _ _); [|discriminate].
      destruct (strategy_class d); [|discriminate].
      destruct (run e _ s); [|discriminate].
      destruct (period (iloc_to _ df)); [|discriminate].
      destruct (period (iloc_from _ df)); discriminate. }
    split.
    + split; [discriminate|]. intros Hm. now apply Hno in Hm.
    + intros msg Hm. now apply Hno in Hm.
Qed.

Lemma walk_forward_error_iff_witness :
  PandasSpec pandas_stable /\
  @walk_forward libm_coarse pandas_stable default_engine
    (bars_of rising_closes) EMACrossStrategy
    [("short_period"%string, [PInt 0; PInt (-1)])] (1 # 2)
  = Some (wf_error "No valid results in training period").
Proof.
  split; [exact pandas_stable_spec|].
  apply (@walk_forward_error_iff libm_coarse pandas_stable pandas_stable_spec
           default_engine (bars_of rising_closes) EMACrossStrategy
           [("short_period"%string, [PInt 0; PInt (-1)])] (1 # 2)).
  repeat constructor.
Defined.

Lemma period_nonempty df p : period df = Some p -> df <> [].
Proof. intros Hp ->. discriminate. Qed.

Lemma sorted_head_best key row rest x :
  sorted_desc key (row :: rest) -> In x (row :: rest) ->
  flt (key row) (key x) = false.
Proof.
  intros Hs [<-|Hx].
  - destruct (key row) as [q| | |]; try reflexivity.
    apply flt_finite_false, Qle_refl.
  - apply key_ge_not_less. unfold sorted_desc in Hs.
    apply StronglySorted_inv in Hs. destruct Hs as [_ Hf].
    rewrite Forall_forall in Hf. now apply Hf.
Qed.

(** X9.  A report of [walk_forward] is only produced when both the train
    prefix and the test suffix hold a bar; its two periods are the first
    and last timestamps of those parts, and its [train_sharpe] is the
    best of the train table: no combination evaluated on the train prefix
    has a larger Sharpe ratio. *)
Theorem walk_forward_report_best `{L : Libm} `{P : Pandas} `{!PandasSpec P}
  (e : BacktestEngine) (df : DataFrame) (strategy_class : StrategyClass)
  (param_grid : list (string * list pval)) (train_ratio : Q)
  (rep : WalkForwardReport) :
  walk_forward e df strategy_class param_grid train_ratio
  = Some (wf_report rep) ->
  let split_idx := py_int (inject_Z (Z.of_nat (length df)) * train_ratio) in
  let train_df := iloc_to split_idx df in
  let test_df := iloc_from split_idx df in
  train_df <> [] /\ test_df <> [] /\
  period train_df = Some (train_period rep) /\
  period test_df = Some (test_period rep) /\
  (forall row,
     In row (grid_results e train_df strategy_class param_grid) ->
     flt (train_sharpe rep) (sharpe_ratio (summary_metrics row)) = false).
Proof.
  cbv zeta. unfold walk_forward.
  set (split_idx := py_int (inject_Z (Z.of_nat (length df)) * train_ratio)).
  pose proof (length_grid_search e (iloc_to split_idx df) strategy_class
                param_grid col_sharpe_ratio) as Hlen.
  assert (Hsorted : forall row rest,
            grid_search e (iloc_to split_idx df) strategy_class param_grid
              col_sharpe_ratio = row :: rest ->
            forall x,
              In x (grid_results e (iloc_to split_idx df) strategy_class
                      param_grid) ->
              flt (sharpe_ratio (summary_metrics row))
                  (sharpe_ratio (summary_metrics x)) = false).
  { intros row rest Hg x Hx.
    apply (sorted_head_best (cell col_sharpe_ratio) row rest x).
    - rewrite <- Hg. unfold grid_search.
      destruct (grid_results e (iloc_to split_idx df) strategy_class param_grid)
        as [|r0 rs] eqn:Hres; [destruct Hx|].
      rewrite in_columns_metric by (exact I || discriminate).
      apply sort_values_sorted.
    - rewrite <- Hg. unfold grid_search.
      destruct (grid_results e (iloc_to split_idx df) strategy_class param_grid)
        as [|r0 rs] eqn:Hres; [destruct Hx|].
      rewrite in_columns_metric by (exact I || discriminate).
      eapply Permutation_in; [apply sort_values_perm | exact Hx]. }
  destruct (grid_search e (iloc_to split_idx df) strategy_class param_grid
              col_sharpe_ratio) as [|best_row rest] eqn:Hg; [discriminate|].
  destruct (best_params_of _ _ _); [|discriminate].
  destruct (strategy_class d); [|discriminate].
  destruct (run e _ s); [|discriminate].
  destruct (period (iloc_to split_idx df)) as [trp|] eqn:Htr; [|discriminate].
  destruct (period (iloc_from split_idx df)) as [tep|] eqn:Hte; [|discriminate].
  intros Hrep. inversion Hrep; subst rep; cbn [train_period test_period train_sharpe].
  split; [eapply period_nonempty; exact Htr|].
  split; [eapply period_nonempty; exact Hte|].
  split; [reflexivity|]. split; [reflexivity|].
  intros row Hrow. eapply Hsorted; [reflexivity | exact Hrow].
Qed.

Lemma walk_forward_report_best_witness :
  PandasSpec pandas_stable /\
  exists rep,
    @walk_forward libm_coarse pandas_stable default_engine
      (bars_of rising_closes) EMACrossStrategy
      [("short_period"%string, [PInt 2; PInt 3])] (1 # 2)
    = Some (wf_report rep) /\
    train_period rep = (0%Z, 5%Z) /\ test_period rep = (6%Z, 11%Z).
Proof.
  split; [exact pandas_stable_spec|].
  destruct (@walk_forward libm_coarse pandas_stable default_engine
              (bars_of rising_closes) EMACrossStrategy
              [("short_period"%string, [PInt 2; PInt 3])] (1 # 2))
    as [[msg|rep]|] eqn:Hw.
  - exfalso. vm_compute in Hw. discriminate.
  - exists rep. split; [reflexivity|].
    destruct (@walk_forward_report_best libm_coarse pandas_stable
                pandas_stable_spec default_engine (bars_of rising_closes)
                EMACrossStrategy [("short_period"%string, [PInt 2; PInt 3])]
                (1 # 2) rep Hw) as [_ [_ [Htr [Hte _]]]].
    match type of Htr with
    | ?l = _ =>
        assert (E1 : l = Some (0%Z, 5%Z)) by (vm_compute; reflexivity);
        rewrite E1 in Htr
    end.
    match type of Hte with
    | ?l = _ =>
        assert (E2 : l = Some (6%Z, 11%Z)) by (vm_compute; reflexivity);
        rewrite E2 in Hte
    end.
    inversion Htr. inversion Hte. split; reflexivity.
  - exfalso. vm_compute in Hw. discriminate.
Defined.

(* ================================================================== *)
(** * The crossover strategies *)
(* ================================================================== *)

Lemma crossover_same es : crossover es es = map (fun _ => 0%Z) es.
Proof.
  induction es as [|a es IH]; [reflexivity|].
  rewrite crossover_cons, IH. cbn [map]. unfold fgt.
  assert (Ha : flt a a = false).
  { destruct a as [q| | |]; try reflexivity.
    apply flt_finite_false, Qle_refl. }
  now rewrite Ha.
Qed.

Lemma flt_finite_true a b : a < b -> flt (Fin a) (Fin b) = true.
Proof.
  intros Hlt. unfold flt.
  destruct (Qcompare_spec a b) as [E|E|E]; [lra | reflexivity | lra].
Qed.

Lemma alpha_range period :
  (1 <= period)%Z ->
  0 < 2 / (inject_Z period + 1) /\ 2 / (inject_Z period + 1) <= 1.
Proof.
  intros Hp. rewrite Zle_Qle in Hp. change (inject_Z 1) with 1 in Hp.
  split.
  - apply Qlt_shift_div_l; lra.
  - apply Qle_shift_div_r; lra.
Qed.

Lemma alpha_decreasing short long :
  (1 <= short)%Z -> (short < long)%Z ->
  2 / (inject_Z long + 1) < 2 / (inject_Z short + 1).
Proof.
  intros Hs Hl. rewrite Zle_Qle in Hs. rewrite Zlt_Qlt in Hl.
  change (inject_Z 1) with 1 in Hs.
  apply Qlt_shift_div_l; [lra|].
  setoid_replace (2 / (inject_Z long + 1) * (inject_Z short + 1))
    with (2 * (inject_Z short + 1) / (inject_Z long + 1))
    by (field; lra).
  apply Qlt_shift_div_r; lra.
Qed.

(** Once the short average is at or above the long one and at or below
    the last price, rising prices keep it strictly above. *)
Lemma crossover_rising a_s a_l ys yl p xs :
  0 < a_l -> a_l < a_s -> a_s <= 1 ->
  yl <= ys -> ys <= p -> rising_from p xs ->
  crossover (map Fin (ewm_from a_s ys xs)) (map Fin (ewm_from a_l yl xs))
  = map (fun _ => 1%Z) xs.
Proof.
  intros Hl Hls Hs. revert ys yl p.
  induction xs as [|x xs IH]; intros ys yl p Hy Hp Hr; [reflexivity|].
  destruct Hr as [Hx Hr].
  cbn [ewm_from map]. rewrite crossover_cons.
  set (ys' := (1 - a_s) * ys + a_s * x).
  set (yl' := (1 - a_l) * yl + a_l * x).
  assert (H1 : 0 <= (1 - a_s) * (ys - yl))
    by (apply Qmult_le_0_compat; lra).
  assert (H2 : 0 < (a_s - a_l) * (x - yl))
    by (apply Qmult_lt_0_compat; lra).
  assert (H3 : 0 <= (1 - a_s) * (x - ys))
    by (apply Qmult_le_0_compat; lra).
  assert (Hlt : yl' < ys') by (unfold ys', yl'; lra).
  assert (Hle : ys' <= x) by (unfold ys'; lra).
  assert (E1 : flt (Fin ys') (Fin yl') = false)
    by (apply flt_finite_false; lra).
  assert (E2 : fgt (Fin ys') (Fin yl') = true)
    by (apply flt_finite_true, Hlt).
  rewrite E1, E2. f_equal. apply (IH ys' yl' x); [lra | exact Hle | exact Hr].
Qed.

Lemma crossover_falling a_s a_l ys yl p xs :
  0 < a_l -> a_l < a_s -> a_s <= 1 ->
  ys <= yl -> p <= ys -> falling_from p xs ->
  crossover (map Fin (ewm_from a_s ys xs)) (map Fin (ewm_from a_l yl xs))
  = map (fun _ => (-1)%Z) xs.
Proof.
  intros Hl Hls Hs. revert ys yl p.
  induction xs as [|x xs IH]; intros ys yl p Hy Hp Hr; [reflexivity|].
  destruct Hr as [Hx Hr].
  cbn [ewm_from map]. rewrite crossover_cons.
  set (ys' := (1 - a_s) * ys + a_s * x).
  set (yl' := (1 - a_l) * yl + a_l * x).
  assert (H1 : 0 <= (1 - a_s) * (yl - ys))
    by (apply Qmult_le_0_compat; lra).
  assert (H2 : 0 < (a_s - a_l) * (yl - x))
    by (apply Qmult_lt_0_compat; lra).
  assert (H3 : 0 <= (1 - a_s) * (ys - x))
    by (apply Qmult_le_0_compat; lra).
  assert (Hlt : ys' < yl') by (unfold ys', yl'; lra).
  assert (Hle : x <= ys') by (unfold ys'; lra).
  assert (E1 : flt (Fin ys') (Fin yl') = true)
    by (apply flt_finite_true, Hlt).
  rewrite E1. f_equal. apply (IH ys' yl' x); [lra | exact Hle | exact Hr].
Qed.

Lemma ema_value df period :
  (1 <= period)%Z ->
  ema df period
  = Some (map Fin (ewm_mean (2 / (inject_Z period + 1)) (map close df))).
Proof.
  intros Hp. unfold ema.
  destruct (Z.ltb_spec period 1); [lia | reflexivity].
Qed.

Lemma simple_calculate_value s df :
  (1 <= SimpleEMACross.short_period s)%Z ->
  (1 <= SimpleEMACross.long_period s)%Z ->
  exists sig,
    SimpleEMACross.calculate s df = Some (with_signal df sig) /\
    length sig = length df /\
    sig = crossover
            (map Fin (ewm_mean (2 / (inject_Z (SimpleEMACross.short_period s) + 1))
                        (map close df)))
            (map Fin (ewm_mean (2 / (inject_Z (SimpleEMACross.long_period s) + 1))
                        (map close df))).
Proof.
  intros Hs Hl. unfold SimpleEMACross.calculate.
  rewrite (ema_value df _ Hs), (ema_value df _ Hl).
  eexists. split; [reflexivity|]. split; [|reflexivity].
  rewrite length_crossover; rewrite !length_map;
    destruct (map close df) eqn:E; cbn [ewm_mean length];
    rewrite ?length_ewm_from; try reflexivity;
    apply (f_equal (@length Q)) in E; rewrite length_map in E;
    cbn [length] in E; lia.
Qed.

(** X10.  The simple crossover follows a trend: with a short period
    below the long one, on closes that rise from every bar to the next
    the signal is 0 on the first bar and 1 on every later bar; on closes
    that fall it is 0 and then -1. *)
Theorem simple_crossover_follows_trend (s : SimpleEMACross.t)
  (df : DataFrame) :
  (1 <= SimpleEMACross.short_period s)%Z ->
  (SimpleEMACross.short_period s < SimpleEMACross.long_period s)%Z ->
  exists out,
    SimpleEMACross.calculate s df = Some out /\
    map bar out = df /\
    (rising (map close df) ->
     forall t, (t < length df)%nat ->
               signal_at out t = if (t =? 0)%nat then 0%Z else 1%Z) /\
    (falling (map close df) ->
     forall t, (t < length df)%nat ->
               signal_at out t = if (t =? 0)%nat then 0%Z else (-1)%Z).
Proof.
  intros Hs Hsl.
  destruct (simple_calculate_value s df Hs ltac:(lia)) as [sig [Hc [Hlen Hsig]]].
  destruct (with_signal_columns df sig Hlen) as [Hb Hr].
  exists (with_signal df sig). split; [exact Hc|]. split; [exact Hb|].
  destruct (alpha_range _ Hs) as [Hs0 Hs1].
  destruct (alpha_range (SimpleEMACross.long_period s) ltac:(lia)) as [Hl0 _].
  pose proof (alpha_decreasing _ _ Hs Hsl) as Hd.
  unfold signal_at. rewrite Hr, Hsig.
  destruct (map close df) as [|x xs] eqn:E.
  { destruct df; [|discriminate]. split; intros _ t Ht; simpl in Ht; lia. }
  assert (Hxs : length df = S (length xs)).
  { apply (f_equal (@length Q)) in E. now rewrite length_map in E. }
  cbn [ewm_mean map rising falling]. rewrite crossover_cons.
  assert (Hx : flt (Fin x) (Fin x) = false)
    by (apply flt_finite_false, Qle_refl).
  unfold fgt. rewrite Hx.
  split; intros Hm t Ht.
  - rewrite (crossover_rising _ _ x x x xs Hl0 Hd Hs1) by (lra || exact Hm).
    destruct t as [|t]; [reflexivity|]. cbn [nth Nat.eqb].
    rewrite (nth_map_in (fun _ : Q => 1%Z) 0 0%Z) by lia. reflexivity.
  - rewrite (crossover_falling _ _ x x x xs Hl0 Hd Hs1) by (lra || exact Hm).
    destruct t as [|t]; [reflexivity|]. cbn [nth Nat.eqb].
    rewrite (nth_map_in (fun _ : Q => (-1)%Z) 0 0%Z) by lia. reflexivity.
Qed.

Lemma simple_crossover_follows_trend_witness :
  let s := {| SimpleEMACross.short_period := 2;
              SimpleEMACross.long_period := 3 |} in
  let df := bars_of [100; 101; 103] in
  (1 <= SimpleEMACross.short_period s)%Z /\
  (SimpleEMACross.short_period s < SimpleEMACross.long_period s)%Z /\
  rising (map close df) /\
  exists out,
    SimpleEMACross.calculate s df = Some out /\
    signal_at out 0 = 0%Z /\ signal_at out 2 = 1%Z.
Proof.
  intros s df.
  assert (H1 : (1 <= SimpleEMACross.short_period s)%Z) by (simpl; lia).
  assert (H2 : (SimpleEMACross.short_period s < SimpleEMACross.long_period s)%Z)
    by (simpl; lia).
  assert (Hr : rising (map close df)).
  { cbn. split; [reflexivity | split; [reflexivity | exact I]]. }
  split; [exact H1|]. split; [exact H2|]. split; [exact Hr|].
  destruct (simple_crossover_follows_trend s df H1 H2)
    as [out [Hc [_ [Hup _]]]].
  exists out. split; [exact Hc|].
  split; [apply (Hup Hr 0%nat) | apply (Hup Hr 2%nat)]; simpl; lia.
Defined.

(** X11.  [generate_signal] on the simple crossover: it raises on an
    empty frame; otherwise the last bar decides: SELL when the short
    average is below the long one there, BUY when it is above, HOLD
    when they are equal; the strength is 1.0 in all three cases and the
    reason is the strategy's name. *)
Theorem simple_generate_signal (s : SimpleEMACross.t) (df : DataFrame) :
  (1 <= SimpleEMACross.short_period s)%Z ->
  (1 <= SimpleEMACross.long_period s)%Z ->
  (df = [] -> generate_signal (SimpleEMACross.strategy s) df = None) /\
  (df <> [] ->
   exists sig ema_short ema_long,
     generate_signal (SimpleEMACross.strategy s) df = Some sig /\
     ema df (SimpleEMACross.short_period s) = Some ema_short /\
     ema df (SimpleEMACross.long_period s) = Some ema_long /\
     action sig
     = (if flt (at_ ema_short (length df - 1)) (at_ ema_long (length df - 1))
        then SELL
        else if fgt (at_ ema_short (length df - 1))
                    (at_ ema_long (length df - 1))
             then BUY else HOLD) /\
     strength sig = Fin 1 /\
     reason sig = SimpleEMACross.name s /\
     price sig = None).
Proof.
  intros Hs Hl. split.
  - intros ->. unfold generate_signal.
    change (calculate (SimpleEMACross.strategy s) [])
      with (SimpleEMACross.calculate s []).
    unfold SimpleEMACross.calculate.
    rewrite (ema_value [] _ Hs), (ema_value [] _ Hl). reflexivity.
  - intros Hne.
    destruct (ema_returns df _ Hs) as [es Hes].
    destruct (ema_returns df _ Hl) as [el Hel].
    pose proof (length_ema _ _ _ Hes) as Les.
    pose proof (length_ema _ _ _ Hel) as Lel.
    assert (Lc : length (crossover es el) = length df)
      by (rewrite length_crossover; lia).
    destruct (with_signal_columns df _ Lc) as [_ Hr].
    assert (Hcn : crossover es el <> []).
    { intros E. rewrite E in Lc. destruct df; [congruence | discriminate]. }
    destruct (rev_head (crossover es el) 0%Z Hcn) as [r Hrev].
    rewrite Lc in Hrev.
    rewrite nth_crossover in Hrev
      by (rewrite ?Les, ?Lel; destruct df; [congruence | simpl; lia]).
    unfold generate_signal.
    change (calculate (SimpleEMACross.strategy s) df)
      with (SimpleEMACross.calculate s df).
    unfold SimpleEMACross.calculate. rewrite Hes, Hel, Hr, Hrev.
    destruct (flt (at_ es (length df - 1)) (at_ el (length df - 1))) eqn:E1;
      [|destruct (fgt (at_ es (length df - 1)) (at_ el (length df - 1)))
          eqn:E2];
      cbn [Z.ltb Z.compare]; eexists _, es, el;
      (split; [reflexivity|]); cbn [action strength reason price];
      rewrite ?E1, ?E2; repeat (split; try reflexivity).
Qed.

Lemma simple_generate_signal_witness :
  let s := {| SimpleEMACross.short_period := 2;
              SimpleEMACross.long_period := 3 |} in
  let df := bars_of [100; 101; 103] in
  (1 <= SimpleEMACross.short_period s)%Z /\
  (1 <= SimpleEMACross.long_period s)%Z /\
  df <> [] /\
  exists sig,
    generate_signal (SimpleEMACross.strategy s) df = Some sig /\
    action sig = BUY /\ strength sig = Fin 1.
Proof.
  intros s df.
  assert (H1 : (1 <= SimpleEMACross.short_period s)%Z) by (simpl; lia).
  assert (H2 : (1 <= SimpleEMACross.long_period s)%Z) by (simpl; lia).
  assert (Hne : df <> []) by discriminate.
  split; [exact H1|]. split; [exact H2|]. split; [exact Hne|].
  destruct (simple_generate_signal s df H1 H2) as [_ Hsig].
  destruct (Hsig Hne) as [sig [es [el [Hg [Hes [Hel [Ha [Hst _]]]]]]]].
  exists sig. split; [exact Hg|]. split; [|exact Hst].
  rewrite Ha.
  assert (Ees : es = map Fin (ewm_mean (2 / (inject_Z 2 + 1))
                            (map close df))).
  { rewrite ema_value in Hes by (simpl; lia). now inversion Hes. }
  assert (Eel : el = map Fin (ewm_mean (2 / (inject_Z 3 + 1))
                            (map close df))).
  { rewrite ema_value in Hel by (simpl; lia). now inversion Hel. }
  rewrite Ees, Eel. vm_compute. reflexivity.
Defined.

(** X12.  Rebuilding a strategy from its [params]: the simple crossover
    comes back unchanged; the filtered crossover comes back with
    [rsi_period] reset to the default 14, so it is unchanged exactly
    when its [rsi_period] is 14. *)
Theorem params_round_trip :
  (forall s, simple_init (SimpleEMACross.params s) = Some s) /\
  (forall s, EMACross.init (EMACross.params s) = Some (with_rsi_period s 14)) /\
  (forall s, EMACross.init (EMACross.params s) = Some s
             <-> EMACross.rsi_period s = 14%Z).
Proof.
  split; [|split].
  - intros [sp lp]. reflexivity.
  - intros [sp lp tp rp rt ut ur]. reflexivity.
  - intros [sp lp tp rp rt ut ur].
    change (EMACross.init (EMACross.params
              (EMACross.Build_t sp lp tp rp rt ut ur)))
      with (Some (EMACross.Build_t sp lp tp 14 rt ut ur)).
    cbn [EMACross.rsi_period]. split.
    + intros E. now inversion E.
    + intros ->. reflexivity.
Qed.

Lemma set_where_positions mask v sig :
  is_position v -> Forall is_position sig ->
  Forall is_position (set_where mask v sig).
Proof.
  intros Hv Hs. revert mask; induction Hs as [|x sig Hx _ IH]; intros [|m mask];
    try constructor.
  - now destruct m.
  - apply IH.
Qed.

Lemma crossover_positions es el : Forall is_position (crossover es el).
Proof.
  unfold crossover.
  apply set_where_positions; [left; reflexivity|].
  apply set_where_positions; [right; right; reflexivity|].
  induction es; constructor; [right; left; reflexivity | assumption].
Qed.

Lemma suppress_long_positions ok sig :
  Forall is_position sig -> Forall is_position (suppress_long ok sig).
Proof.
  intros Hs. unfold suppress_long.
  apply set_where_positions; [right; left; reflexivity | exact Hs].
Qed.

(** X13.  Both crossover strategies only ever emit the signals -1, 0
    and 1, and hand back the bars they were given, one signal per
    bar. *)
Theorem crossover_signals_are_positions (s1 : SimpleEMACross.t)
  (s2 : EMACross.t) (df : DataFrame) (out : SignalFrame) :
  SimpleEMACross.calculate s1 df = Some out
  \/ EMACross.calculate s2 df = Some out ->
  map bar out = df /\ Forall is_position (result_signal out).
Proof.
  intros [Hc|Hc].
  - unfold SimpleEMACross.calculate in Hc.
    destruct (ema df (SimpleEMACross.short_period s1)) as [es|] eqn:Hes;
      [|discriminate].
    destruct (ema df (SimpleEMACross.long_period s1)) as [el|] eqn:Hel;
      [|discriminate].
    pose proof (length_ema _ _ _ Hes). pose proof (length_ema _ _ _ Hel).
    inversion Hc; subst out.
    destruct (with_signal_columns df (crossover es el)) as [Hb Hr];
      [rewrite length_crossover; lia|].
    rewrite Hr. split; [exact Hb | apply crossover_positions].
  - unfold EMACross.calculate in Hc.
    destruct (ema df (EMACross.short_period s2)) as [es|] eqn:Hes;
      [|discriminate].
    destruct (ema df (EMACross.long_period s2)) as [el|] eqn:Hel;
      [|discriminate].
    pose proof (length_ema _ _ _ Hes) as Les.
    pose proof (length_ema _ _ _ Hel) as Lel.
    assert (Lb : length (crossover es el) = length df)
      by (rewrite length_crossover; lia).
    destruct (EMACross.trend_filter s2 df (crossover es el)) as [sig1|] eqn:H1;
      [|discriminate].
    destruct (EMACross.rsi_filter s2 df sig1) as [sig2|] eqn:H2;
      [|discriminate].
    inversion Hc; subst out.
    assert (P1 : length sig1 = length df /\ Forall is_position sig1).
    { unfold EMACross.trend_filter in H1.
      destruct (EMACross.use_trend_filter s2).
      - destruct (ema df (EMACross.trend_period s2)) as [et|] eqn:Het;
          [|discriminate].
        pose proof (length_ema _ _ _ Het) as Let.
        inversion H1; subst sig1. split.
        + rewrite length_suppress_long; [exact Lb|].
          rewrite length_zip_with. unfold close_column.
          rewrite length_map. lia.
        + apply suppress_long_positions, crossover_positions.
      - inversion H1; subst sig1. split; [exact Lb | apply crossover_positions]. }
    destruct P1 as [L1 P1].
    assert (P2 : length sig2 = length df /\ Forall is_position sig2).
    { unfold EMACross.rsi_filter in H2.
      destruct (EMACross.use_rsi_filter s2).
      - destruct (rsi df (EMACross.rsi_period s2)) as [rs|] eqn:Hrs;
          [|discriminate].
        pose proof (length_rsi _ _ _ Hrs) as Lrs.
        inversion H2; subst sig2. split.
        + rewrite length_suppress_long; [exact L1|].
          rewrite length_map. lia.
        + now apply suppress_long_positions.
      - inversion H2; subst sig2. now split. }
    destruct P2 as [L2 P2].
    destruct (with_signal_columns df sig2 L2) as [Hb Hr].
    rewrite Hr. now split.
Qed.

Lemma crossover_signals_are_positions_witness :
  let df := bars_of [100; 101; 99] in
  exists out,
    EMACross.calculate EMACross.defaults df = Some out /\
    map bar out = df /\ Forall is_position (result_signal out).
Proof.
  intros df.
  destruct (EMACross.calculate EMACross.defaults df) as [out|] eqn:Hc.
  - exists out. split; [reflexivity|].
    apply (crossover_signals_are_positions
             {| SimpleEMACross.short_period := 5;
                SimpleEMACross.long_period := 20 |}
             EMACross.defaults df out).
    right. exact Hc.
  - exfalso. vm_compute in Hc. discriminate.
Defined.

(** X14.  With equal short and long periods the simple crossover never
    takes a position: every signal is 0. *)
Theorem equal_periods_stay_flat (s : SimpleEMACross.t) (df : DataFrame) :
  (1 <= SimpleEMACross.short_period s)%Z ->
  SimpleEMACross.long_period s = SimpleEMACross.short_period s ->
  exists out,
    SimpleEMACross.calculate s df = Some out /\
    map bar out = df /\
    Forall (fun r => signal r = 0%Z) out.
Proof.
  intros Hs He.
  destruct (simple_calculate_value s df Hs ltac:(lia)) as [sig [Hc [Hlen Hsig]]].
  destruct (with_signal_columns df sig Hlen) as [Hb Hr].
  exists (with_signal df sig). split; [exact Hc|]. split; [exact Hb|].
  rewrite He, crossover_same in Hsig.
  apply Forall_forall. intros r Hin.
  assert (Hin' : In (signal r) (result_signal (with_signal df sig)))
    by (unfold result_signal; now apply in_map).
  rewrite Hr, Hsig in Hin'. apply in_map_iff in Hin'.
  destruct Hin' as [x [Hx _]]. now symmetry.
Qed.

Lemma equal_periods_stay_flat_witness :
  let s := {| SimpleEMACross.short_period := 5;
              SimpleEMACross.long_period := 5 |} in
  (1 <= SimpleEMACross.short_period s)%Z /\
  SimpleEMACross.long_period s = SimpleEMACross.short_period s /\
  exists out,
    SimpleEMACross.calculate s (bars_of [100; 90; 120]) = Some out /\
    Forall (fun r => signal r = 0%Z) out.
Proof.
  intros s.
  assert (H1 : (1 <= SimpleEMACross.short_period s)%Z) by (simpl; lia).
  assert (H2 : SimpleEMACross.long_period s = SimpleEMACross.short_period s)
    by reflexivity.
  split; [exact H1|]. split; [exact H2|].
  destruct (equal_periods_stay_flat s (bars_of [100; 90; 120]) H1 H2)
    as [out [Hc [_ Hf]]].
  exists out. split; assumption.
Defined.

(* ================================================================== *)
(** * Indicators *)
(* ================================================================== *)

Lemma length_rolling agg w s : length (rolling agg w s) = length s.
Proof. unfold rolling. now rewrite length_map, length_seq. Qed.

Lemma at_rolling agg w s t :
  (t < length s)%nat ->
  at_ (rolling agg w s) t
  = if (t + 1 <? w)%nat then NaN
    else if (count (window w t s) <? w)%nat then NaN
         else agg (window w t s).
Proof.
  intros Ht. unfold at_, rolling.
  rewrite (nth_map_in _ 0%nat NaN) by now rewrite length_seq.
  now rewrite seq_nth.
Qed.

Lemma length_window {A : Type} w t (l : list A) :
  (t < length l)%nat -> (w <= t + 1)%nat -> length (window w t l) = w.
Proof.
  intros Ht Hw. unfold window. rewrite length_skipn, length_firstn. lia.
Qed.

Lemma in_window {A : Type} w t (l : list A) x :
  In x (window w t l) -> In x l.
Proof.
  unfold window. intros Hx.
  rewrite <- (firstn_skipn (t + 1) l). apply in_or_app. left.
  rewrite <- (firstn_skipn (t + 1 - w) (firstn (t + 1) l)).
  apply in_or_app. now right.
Qed.

Lemma Forall_window {A : Type} (P : A -> Prop) w t l :
  Forall P l -> Forall P (window w t l).
Proof.
  intros Hl. apply Forall_forall. intros x Hx.
  rewrite Forall_forall in Hl. apply Hl.
  apply (in_window w t l x Hx).
Qed.

Lemma window_map {A B : Type} (f : A -> B) w t l :
  window w t (map f l) = map f (window w t l).
Proof. unfold window. now rewrite firstn_map, skipn_map. Qed.

Lemma mean_finite qs :
  qs <> [] -> mean (map Fin qs) = Fin (q_mean qs).
Proof.
  intros Hne. unfold mean, count, q_mean.
  rewrite sum_finite, dropna_finite, length_map.
  unfold of_nat, of_Z, fdiv.
  rewrite Qeq_bool_of_nat_pos; [reflexivity|].
  destruct qs; [congruence | simpl; lia].
Qed.

Lemma fold_Qplus_bounds lo hi qs a :
  Forall (fun q => lo <= q /\ q <= hi) qs ->
  a + inject_Z (Z.of_nat (length qs)) * lo <= fold_left Qplus qs a /\
  fold_left Qplus qs a <= a + inject_Z (Z.of_nat (length qs)) * hi.
Proof.
  intros Hq. revert a; induction Hq as [|q qs [Hlo Hhi] _ IH]; intros a.
  - cbn [fold_left length]. change (inject_Z (Z.of_nat 0)) with 0. lra.
  - cbn [fold_left length]. destruct (IH (a + q)) as [I1 I2].
    rewrite Nat2Z.inj_succ, <- Z.add_1_r, inject_Z_plus.
    change (inject_Z 1) with 1. lra.
Qed.

Lemma q_mean_bounds lo hi qs :
  qs <> [] -> Forall (fun q => lo <= q /\ q <= hi) qs ->
  lo <= q_mean qs /\ q_mean qs <= hi.
Proof.
  intros Hne Hq. unfold q_mean.
  destruct (fold_Qplus_bounds lo hi qs 0 Hq) as [I1 I2].
  assert (Hn : 0 < inject_Z (Z.of_nat (length qs))).
  { change 0 with (inject_Z 0). rewrite <- Zlt_Qlt.
    destruct qs; [congruence | simpl; lia]. }
  split.
  - apply Qle_shift_div_l; [exact Hn | lra].
  - apply Qle_shift_div_r; [exact Hn | lra].
Qed.

Lemma filter_all {A : Type} (f : A -> bool) l :
  (length l <= length (filter f l))%nat -> Forall (fun x => f x = true) l.
Proof.
  induction l as [|x l IH]; intros Hl; [constructor|].
  cbn [filter] in Hl. destruct (f x) eqn:Hx.
  - constructor; [exact Hx|]. apply IH. simpl in Hl. lia.
  - pose proof (filter_length_le f l). simpl in Hl. lia.
Qed.

Lemma within_finite lo hi l :
  Forall (within lo hi) l ->
  exists qs, l = map Fin qs /\ Forall (fun q => lo <= q /\ q <= hi) qs.
Proof.
  induction 1 as [|x l Hx _ [qs [-> Hqs]]].
  - exists []. split; [reflexivity | constructor].
  - destruct x as [q| | |]; try contradiction.
    exists (q :: qs). split; [reflexivity | now constructor].
Qed.

Lemma mean_within lo hi l :
  l <> [] -> Forall (within lo hi) l -> within lo hi (mean l).
Proof.
  intros Hne Hl. destruct (within_finite lo hi l Hl) as [qs [-> Hqs]].
  assert (Hq : qs <> []) by (intros ->; apply Hne; reflexivity).
  rewrite mean_finite by exact Hq.
  apply q_mean_bounds; [exact Hq | exact Hqs].
Qed.

(** A rolling mean stays between the bounds of the series, where it is
    defined. *)
Lemma rolling_mean_bounds lo hi w s :
  Forall (nan_or_within lo hi) s ->
  Forall (nan_or_within lo hi) (rolling mean w s).
Proof.
  intros Hs. apply Forall_forall. intros x Hx.
  destruct (In_nth _ _ NaN Hx) as [t [Ht <-]].
  rewrite length_rolling in Ht. fold (at_ (rolling mean w s) t).
  rewrite at_rolling by exact Ht.
  destruct (Nat.ltb_spec (t + 1) w) as [|Hw]; [now left|].
  destruct (Nat.ltb_spec (count (window w t s)) w) as [|Hc]; [now left|].
  destruct w as [|w].
  - left. unfold window. replace (t + 1 - 0)%nat with (t + 1)%nat by lia.
    rewrite skipn_firstn_comm, Nat.sub_diag. reflexivity.
  - right. pose proof (length_window (S w) t s Ht Hw) as Hlen.
    apply mean_within.
    + intros E. rewrite E in Hlen. discriminate.
    + assert (Hnn : Forall (fun x => negb (isnan x) = true) (window (S w) t s)).
      { apply filter_all. unfold count, dropna in Hc. lia. }
      pose proof (Forall_window _ (S w) t s Hs) as Hb.
      rewrite Forall_forall in *. intros y Hy.
      destruct (Hb y Hy) as [->|Hin]; [|exact Hin].
      specialize (Hnn NaN Hy). discriminate.
Qed.

Lemma rolling_warmup agg w s t :
  (t < length s)%nat -> (t + 1 < w)%nat -> at_ (rolling agg w s) t = NaN.
Proof.
  intros Ht Hw. rewrite at_rolling by exact Ht.
  destruct (Nat.ltb_spec (t + 1) w); [reflexivity | lia].
Qed.

Lemma rolling_mean_finite w qs t :
  (t < length qs)%nat -> (1 <= w)%nat -> (w <= t + 1)%nat ->
  at_ (rolling mean w (map Fin qs)) t = Fin (q_mean (window w t qs)).
Proof.
  intros Ht H1 Hw. rewrite at_rolling by now rewrite length_map.
  destruct (Nat.ltb_spec (t + 1) w); [lia|].
  rewrite window_map. unfold count. rewrite dropna_finite, length_map.
  rewrite (length_window w t qs Ht Hw).
  destruct (Nat.ltb_spec w w); [lia|].
  apply mean_finite. intros E.
  pose proof (length_window w t qs Ht Hw) as Hl. rewrite E in Hl.
  simpl in Hl. lia.
Qed.

Lemma closes_within lo hi df :
  Forall (fun b => lo <= close b /\ close b <= hi) df ->
  Forall (nan_or_within lo hi) (close_column df).
Proof.
  unfold close_column. induction 1; cbn [map]; constructor; auto.
  now right.
Qed.

(** X15.  The simple moving average: for a window of [period >= 0]
    bars it is missing on the first [period - 1] bars, and from then on
    it is the mean of the last [period] closes, which lies between the
    lowest and the highest close. *)
Theorem sma_window_mean (df : DataFrame) (period : Z) (lo hi : Q) :
  (0 <= period)%Z ->
  Forall (fun b => lo <= close b /\ close b <= hi) df ->
  exists s,
    sma df period = Some s /\
    length s = length df /\
    Forall (nan_or_within lo hi) s /\
    forall t, (t < length df)%nat ->
      ((t + 1 < Z.to_nat period)%nat -> at_ s t = NaN) /\
      ((1 <= Z.to_nat period <= t + 1)%nat ->
       at_ s t = Fin (q_mean (window (Z.to_nat period) t (map close df)))).
Proof.
  intros Hp Hb. unfold sma.
  destruct (Z.ltb_spec period 0); [lia|].
  eexists. split; [reflexivity|].
  assert (Hl : length (close_column df) = length df)
    by (unfold close_column; now rewrite length_map).
  split; [now rewrite length_rolling|].
  split; [apply rolling_mean_bounds, closes_within, Hb|].
  intros t Ht. split.
  - intros Hw. apply rolling_warmup; [lia | exact Hw].
  - intros [H1 Hw]. unfold close_column.
    rewrite <- (map_map close Fin).
    apply rolling_mean_finite; [now rewrite length_map | exact H1 | exact Hw].
Qed.

Lemma sma_window_mean_witness :
  let df := bars_of [100; 110; 120; 130] in
  (0 <= 3)%Z /\
  Forall (fun b => 100 <= close b /\ close b <= 130) df /\
  exists s,
    sma df 3 = Some s /\ at_ s 1 = NaN /\ (at_ s 3 == Fin 120)%F.
Proof.
  intros df.
  assert (Hb : Forall (fun b => 100 <= close b /\ close b <= 130) df).
  { repeat constructor; cbn; discriminate. }
  split; [lia|]. split; [exact Hb|].
  destruct (sma_window_mean df 3 100 130 ltac:(lia) Hb)
    as [s [Hs [_ [_ Hat]]]].
  exists s. split; [exact Hs|]. split.
  - apply (Hat 1%nat); simpl; lia.
  - destruct (Hat 3%nat ltac:(simpl; lia)) as [_ Hv].
    rewrite Hv by (simpl; lia). vm_compute. reflexivity.
Defined.

Lemma ewm_from_bounds lo hi alpha y xs :
  0 <= alpha -> alpha <= 1 -> lo <= y -> y <= hi ->
  Forall (fun q => lo <= q /\ q <= hi) xs ->
  Forall (fun q => lo <= q /\ q <= hi) (ewm_from alpha y xs).
Proof.
  intros Ha0 Ha1 Hlo Hhi Hxs. revert y Hlo Hhi.
  induction Hxs as [|x xs [Hx1 Hx2] _ IH]; intros y Hlo Hhi;
    cbn [ewm_from]; constructor.
  - assert (H1 : 0 <= (1 - alpha) * (y - lo))
      by (apply Qmult_le_0_compat; lra).
    assert (H2 : 0 <= alpha * (x - lo)) by (apply Qmult_le_0_compat; lra).
    assert (H3 : 0 <= (1 - alpha) * (hi - y))
      by (apply Qmult_le_0_compat; lra).
    assert (H4 : 0 <= alpha * (hi - x)) by (apply Qmult_le_0_compat; lra).
    split; lra.
  - assert (H1 : 0 <= (1 - alpha) * (y - lo))
      by (apply Qmult_le_0_compat; lra).
    assert (H2 : 0 <= alpha * (x - lo)) by (apply Qmult_le_0_compat; lra).
    assert (H3 : 0 <= (1 - alpha) * (hi - y))
      by (apply Qmult_le_0_compat; lra).
    assert (H4 : 0 <= alpha * (hi - x)) by (apply Qmult_le_0_compat; lra).
    apply IH; lra.
Qed.

(** X16.  The exponential moving average starts at the first close, is
    defined on every bar and stays between the lowest and the highest
    close. *)
Theorem ema_bounded (df : DataFrame) (period : Z) (lo hi : Q) :
  (1 <= period)%Z ->
  Forall (fun b => lo <= close b /\ close b <= hi) df ->
  exists s,
    ema df period = Some s /\
    length s = length df /\
    Forall (within lo hi) s /\
    (df <> [] -> at_ s 0 = at_ (close_column df) 0).
Proof.
  intros Hp Hb. rewrite (ema_value df period Hp).
  eexists. split; [reflexivity|].
  destruct (alpha_range period Hp) as [Ha0 Ha1].
  destruct df as [|b df].
  - split; [reflexivity|]. split; [constructor|]. congruence.
  - cbn [map ewm_mean length]. rewrite length_map, length_ewm_from, length_map.
    split; [reflexivity|]. split; [|reflexivity].
    inversion Hb as [|? ? [Hb1 Hb2] Hb']; subst.
    constructor; [split; assumption|].
    assert (Hq : Forall (fun q => lo <= q /\ q <= hi) (map close df)).
    { clear -Hb'. induction Hb'; cbn [map]; constructor; auto. }
    pose proof (ewm_from_bounds lo hi _ (close b) _ (Qlt_le_weak _ _ Ha0)
                  Ha1 Hb1 Hb2 Hq) as Hf.
    clear -Hf. induction Hf; cbn [map]; constructor; auto.
Qed.

Lemma ema_bounded_witness :
  let df := bars_of [100; 110; 90] in
  (1 <= 5)%Z /\
  Forall (fun b => 90 <= close b /\ close b <= 110) df /\
  exists s, ema df 5 = Some s /\ Forall (within 90 110) s.
Proof.
  intros df.
  assert (Hb : Forall (fun b => 90 <= close b /\ close b <= 110) df).
  { repeat constructor; cbn; discriminate. }
  split; [lia|]. split; [exact Hb|].
  destruct (ema_bounded df 5 90 110 ltac:(lia) Hb) as [s [Hs [_ [Hw _]]]].
  exists s. split; assumption.
Defined.

(** ** RSI *)

Lemma diff_close_values qs :
  Forall (fun d => d = NaN \/ is_finite d) (diff (map Fin qs)).
Proof.
  apply Forall_forall. intros x Hx.
  destruct (In_nth _ _ NaN Hx) as [t [Ht <-]].
  rewrite length_diff in Ht. fold (at_ (diff (map Fin qs)) t).
  destruct t as [|t].
  - left. apply at_diff_0. destruct qs; [simpl in Ht; lia | discriminate].
  - right. rewrite at_diff_S by exact Ht. unfold at_.
    rewrite length_map in Ht.
    rewrite !(nth_map_in Fin 0 NaN) by lia. exact I.
Qed.

Lemma gains_nonneg delta :
  Forall (fun d => d = NaN \/ is_finite d) delta ->
  exists gq,
    map (fun d => if fgt d (Fin 0) then d else Fin 0) delta = map Fin gq /\
    Forall (fun q => 0 <= q) gq.
Proof.
  induction 1 as [|d delta Hd _ [gq [Hg Hq]]].
  - exists []. split; [reflexivity | constructor].
  - cbn [map]. rewrite Hg. destruct Hd as [->|Hd].
    + exists (0 :: gq). split; [reflexivity|]. constructor; [lra | exact Hq].
    + destruct d as [x| | |]; try contradiction.
      destruct (fgt (Fin x) (Fin 0)) eqn:E.
      * exists (x :: gq). split; [reflexivity|]. constructor; [|exact Hq].
        unfold fgt in E. destruct (Qlt_le_dec 0 x) as [|Hle]; [lra|].
        apply flt_finite_false in Hle. congruence.
      * exists (0 :: gq). split; [reflexivity|]. constructor; [lra | exact Hq].
Qed.

Lemma losses_nonneg delta :
  Forall (fun d => d = NaN \/ is_finite d) delta ->
  exists lq,
    map fopp (map (fun d => if flt d (Fin 0) then d else Fin 0) delta)
    = map Fin lq /\
    Forall (fun q => 0 <= q) lq.
Proof.
  induction 1 as [|d delta Hd _ [lq [Hl Hq]]].
  - exists []. split; [reflexivity | constructor].
  - cbn [map]. rewrite Hl. destruct Hd as [->|Hd].
    + exists (- 0 :: lq). split; [reflexivity|]. constructor; [lra | exact Hq].
    + destruct d as [x| | |]; try contradiction.
      destruct (flt (Fin x) (Fin 0)) eqn:E.
      * exists (- x :: lq). split; [reflexivity|]. constructor; [|exact Hq].
        destruct (Qlt_le_dec x 0) as [|Hle]; [lra|].
        apply flt_finite_false in Hle. congruence.
      * exists (- 0 :: lq). split; [reflexivity|]. constructor; [lra | exact Hq].
Qed.

Lemma exists_upper_bound qs :
  Forall (fun q => 0 <= q) qs ->
  exists hi, Forall (fun q => 0 <= q /\ q <= hi) qs.
Proof.
  induction 1 as [|q qs Hq _ [hi Hhi]].
  - exists 0. constructor.
  - exists (q + Qabs hi).
    pose proof (Qabs_nonneg hi) as Ha.
    pose proof (Qle_Qabs hi) as Hb.
    constructor; [split; lra|].
    eapply Forall_impl; [|exact Hhi]. cbv beta. intros a [H1 H2]. split; lra.
Qed.

Lemma rolling_mean_nonneg w qs t :
  Forall (fun q => 0 <= q) qs ->
  (t < length qs)%nat -> (1 <= w)%nat -> (w <= t + 1)%nat ->
  exists m, at_ (rolling mean w (map Fin qs)) t = Fin m /\ 0 <= m.
Proof.
  intros Hq Ht H1 Hw.
  rewrite rolling_mean_finite by assumption.
  eexists. split; [reflexivity|].
  destruct (exists_upper_bound qs Hq) as [hi Hhi].
  apply (q_mean_bounds 0 hi).
  - intros E. pose proof (length_window w t qs Ht Hw) as Hl.
    rewrite E in Hl. simpl in Hl. lia.
  - apply Forall_window, Hhi.
Qed.

Lemma rolling_mean_zero s t :
  (t < length s)%nat -> at_ (rolling mean 0 s) t = NaN.
Proof.
  intros Ht. rewrite at_rolling by exact Ht.
  unfold window. replace (t + 1 - 0)%nat with (t + 1)%nat by lia.
  rewrite skipn_firstn_comm, Nat.sub_diag. reflexivity.
Qed.

Lemma rsi_formula_range g l :
  0 <= g -> 0 <= l ->
  nan_or_within 0 100 (of_Z 100 - of_Z 100 / (Fin 1 + Fin g / Fin l))%F.
Proof.
  intros Hg Hl. unfold fdiv at 2.
  destruct (Qeq_bool l 0) eqn:El.
  - destruct (Qcompare_spec g 0) as [E|E|E]; cbn [inf_of].
    + now left.
    + lra.
    + right. cbn. split; discriminate.
  - assert (Hl0 : 0 < l).
    { apply Qeq_bool_neq in El. lra. }
    assert (Hx : 0 <= g / l) by (apply Qle_shift_div_l; lra).
    cbn [fadd]. unfold of_Z, fdiv.
    rewrite Qeq_bool_false_pos by lra.
    right. cbn [fsub within].
    assert (H1 : 0 <= inject_Z 100 / (1 + g / l)).
    { apply Qle_shift_div_l; [lra|]. change (inject_Z 100) with 100. lra. }
    assert (H2 : inject_Z 100 / (1 + g / l) <= 100).
    { apply Qle_shift_div_r; [lra|]. change (inject_Z 100) with 100. lra. }
    change (inject_Z 100) with 100 in *. split; lra.
Qed.

(** X17.  The RSI of every bar is missing or lies between 0 and 100; it
    is missing on the first [period - 1] bars. *)
Theorem rsi_range (df : DataFrame) (period : Z) :
  (0 <= period)%Z ->
  exists s,
    rsi df period = Some s /\
    length s = length df /\
    Forall (nan_or_within 0 100) s /\
    (forall t, (t < length df)%nat -> (t + 1 < Z.to_nat period)%nat ->
               at_ s t = NaN).
Proof.
  intros Hp. unfold rsi. destruct (Z.ltb_spec period 0); [lia|].
  eexists. split; [reflexivity|].
  unfold close_column. rewrite <- (map_map close Fin).
  destruct (gains_nonneg _ (diff_close_values (map close df))) as [gq [Eg Hg]].
  destruct (losses_nonneg _ (diff_close_values (map close df))) as [lq [El Hl]].
  assert (Lg : length gq = length df).
  { apply (f_equal (@length float)) in Eg.
    rewrite !length_map, length_diff, !length_map in Eg. lia. }
  assert (Ll : length lq = length df).
  { apply (f_equal (@length float)) in El.
    rewrite !length_map, length_diff, !length_map in El. lia. }
  change rolling_mean with (rolling mean). rewrite Eg, El.
  set (w := Z.to_nat period).
  assert (Lz : length (zip_with fdiv (rolling mean w (map Fin gq))
                         (rolling mean w (map Fin lq))) = length df).
  { rewrite length_zip_with, !length_rolling, !length_map. lia. }
  assert (Hat : forall t, (t < length df)%nat ->
    nth t (map (fun x => (of_Z 100 - of_Z 100 / (Fin 1 + x))%F)
             (zip_with fdiv (rolling mean w (map Fin gq))
                (rolling mean w (map Fin lq)))) NaN
    = (of_Z 100 - of_Z 100
       / (Fin 1 + at_ (rolling mean w (map Fin gq)) t
                  / at_ (rolling mean w (map Fin lq)) t))%F).
  { intros t Ht.
    rewrite (nth_map_in _ NaN NaN) by lia.
    rewrite (nth_zip_with fdiv NaN NaN NaN)
      by (rewrite !length_rolling, !length_map; lia).
    reflexivity. }
  split; [now rewrite length_map|]. split.
  - apply Forall_forall. intros x Hx.
    destruct (In_nth _ _ NaN Hx) as [t [Ht <-]].
    rewrite length_map, Lz in Ht. rewrite Hat by exact Ht.
    destruct (Nat.ltb_spec (t + 1) w) as [Hw|Hw].
    + left. rewrite (rolling_warmup mean w (map Fin gq) t)
        by (rewrite ?length_map; lia). reflexivity.
    + destruct w as [|w'].
      * left. rewrite (rolling_mean_zero (map Fin gq) t)
          by (rewrite length_map; lia). reflexivity.
      * destruct (rolling_mean_nonneg (S w') gq t Hg) as [g [-> Hg0]];
          try lia.
        destruct (rolling_mean_nonneg (S w') lq t Hl) as [l [-> Hl0]];
          try lia.
        now apply rsi_formula_range.
  - intros t Ht Hw. unfold at_. rewrite Hat by exact Ht.
    rewrite (rolling_warmup mean w (map Fin gq) t)
      by (rewrite ?length_map; lia). reflexivity.
Qed.

Lemma rsi_range_witness :
  (0 <= 2)%Z /\
  exists s,
    rsi (bars_of [100; 110; 105; 120]) 2 = Some s /\
    Forall (nan_or_within 0 100) s /\ at_ s 0 = NaN.
Proof.
  split; [lia|].
  destruct (rsi_range (bars_of [100; 110; 105; 120]) 2 ltac:(lia))
    as [s [Hs [_ [Hr Hn]]]].
  exists s. split; [exact Hs|]. split; [exact Hr|].
  apply Hn; simpl; lia.
Defined.

(** ** VWAP *)

Lemma typical_price_finite df :
  typical_price df = map Fin (map q_typical df).
Proof.
  unfold typical_price. rewrite map_map. apply map_ext. reflexivity.
Qed.

Lemma length_cumsum_from acc s : length (cumsum_from acc s) = length s.
Proof.
  revert acc; induction s as [|x s IH]; intros acc; [reflexivity|].
  cbn [cumsum_from]. destruct (isnan x); cbn [length]; now rewrite IH.
Qed.

(** A ratio of two numbers is missing exactly when both are zero. *)
Lemma fdiv_nan_iff a b : (Fin a / Fin b)%F = NaN <-> b == 0 /\ a == 0.
Proof.
  unfold fdiv. destruct (Qeq_bool b 0) eqn:E.
  - apply Qeq_bool_eq in E.
    destruct (Qcompare_spec a 0) as [H|H|H]; cbn [inf_of]; split;
      try discriminate; try (intros [_ H0]; lra); auto.
  - apply Qeq_bool_neq in E. split; [discriminate|].
    intros [H0 _]. contradiction.
Qed.

Lemma fdiv_nan_or_finite a b :
  (b == 0 -> a == 0) ->
  (Fin a / Fin b)%F = NaN \/ is_finite (Fin a / Fin b)%F.
Proof.
  intros Hab. destruct (Qeq_bool b 0) eqn:E.
  - left. apply Qeq_bool_eq in E. apply fdiv_nan_iff. auto.
  - right. unfold fdiv. rewrite E. exact I.
Qed.

(** The running sums started at [pv0] and [v0]: while the traded
    volume is zero so is the traded value. *)
Lemma vwap_from_missing pv0 v0 df t :
  0 <= v0 -> (v0 == 0 -> pv0 == 0) ->
  Forall (fun b => 0 <= volume b) df ->
  (t < length df)%nat ->
  let s :=
    zip_with fdiv
      (cumsum_from (Fin pv0)
         (zip_with fmul (map Fin (map q_typical df)) (volume_column df)))
      (cumsum_from (Fin v0) (volume_column df)) in
  (nth t s NaN = NaN <->
   v0 == 0 /\ Forall (fun b => volume b == 0) (firstn (S t) df)) /\
  (nth t s NaN = NaN \/ is_finite (nth t s NaN)).
Proof.
  intros Hv0 Hpv Hdf. revert pv0 v0 t Hv0 Hpv.
  induction Hdf as [|b df Hb _ IH]; intros pv0 v0 t Hv0 Hpv Ht;
    [simpl in Ht; lia|].
  cbv zeta.
  cbn [map volume_column zip_with cumsum_from fmul fadd isnan].
  fold (volume_column df).
  set (pv1 := pv0 + q_typical b * volume b).
  set (v1 := v0 + volume b).
  assert (Hv1 : 0 <= v1) by (unfold v1; lra).
  assert (Hz : v1 == 0 <-> v0 == 0 /\ volume b == 0)
    by (unfold v1; split; [intros; split; lra | intros [? ?]; lra]).
  assert (Hpv1 : v1 == 0 -> pv1 == 0).
  { intros E. apply Hz in E. destruct E as [E0 Eb].
    unfold pv1. rewrite (Hpv E0), Eb. ring. }
  destruct t as [|t].
  - cbn [nth firstn]. split.
    + rewrite fdiv_nan_iff. split.
      * intros [E _]. apply Hz in E. destruct E as [E0 Eb].
        split; [exact E0 | now constructor].
      * intros [E0 Hf]. inversion Hf as [|? ? Eb _]; subst.
        assert (E : v1 == 0) by (apply Hz; now split).
        split; [exact E | now apply Hpv1].
    + now apply fdiv_nan_or_finite.
  - cbn [nth]. simpl in Ht.
    destruct (IH pv1 v1 t Hv1 Hpv1 ltac:(lia)) as [I1 I2].
    cbv zeta in I1, I2. split; [|exact I2].
    rewrite I1, Hz.
    change (firstn (S (S t)) (b :: df)) with (b :: firstn (S t) df).
    split.
    + intros [[E0 Eb] Hf]. split; [exact E0 | now constructor].
    + intros [E0 Hf]. inversion Hf; subst. now repeat split.
Qed.

(** X18.  The cumulative VWAP has one value per bar; with volumes that
    are not negative, its value on a bar is missing exactly when no
    volume has traded up to and including that bar, and it is a number
    on every other bar. *)
Theorem vwap_missing_iff_no_volume (df : DataFrame) :
  Forall (fun b => 0 <= volume b) df ->
  length (vwap df) = length df /\
  forall t, (t < length df)%nat ->
    (at_ (vwap df) t = NaN <->
     Forall (fun b => volume b == 0) (firstn (S t) df)) /\
    (at_ (vwap df) t = NaN \/ is_finite (at_ (vwap df) t)).
Proof.
  intros Hdf. unfold vwap, cumsum. split.
  - rewrite length_zip_with, !length_cumsum_from, length_zip_with.
    unfold typical_price, volume_column. rewrite !length_map. lia.
  - intros t Ht. rewrite typical_price_finite. unfold at_.
    destruct (vwap_from_missing 0 0 df t ltac:(lra) ltac:(intros; reflexivity)
                Hdf Ht) as [I1 I2].
    cbv zeta in I1, I2. split; [|exact I2].
    rewrite I1. split; [now intros [_ Hf] | intros Hf; split; [reflexivity | exact Hf]].
Qed.

Lemma vwap_missing_iff_no_volume_witness :
  let df := [ {| timestamp := 0; open := 10; high := 12; low := 9;
                 close := 11; volume := 0 |};
              {| timestamp := 1; open := 11; high := 15; low := 11;
                 close := 14; volume := 3 |} ] in
  Forall (fun b => 0 <= volume b) df /\
  at_ (vwap df) 0 = NaN /\ is_finite (at_ (vwap df) 1).
Proof.
  intros df.
  assert (Hv : Forall (fun b => 0 <= volume b) df).
  { repeat constructor; cbn; discriminate. }
  split; [exact Hv|].
  destruct (vwap_missing_iff_no_volume df Hv) as [_ Hat].
  split.
  - apply (Hat 0%nat); [simpl; lia|]. repeat constructor.
  - destruct (Hat 1%nat ltac:(simpl; lia)) as [Hiff [Hn|Hfin]]; [|exact Hfin].
    apply Hiff in Hn. exfalso.
    inversion Hn as [|? ? _ Hn']; subst. inversion Hn' as [|? ? E _]; subst.
    cbn in E. discriminate.
Defined.

(** ** ATR *)

Lemma length_row_max3 a b c :
  length a = length b -> length b = length c ->
  length (row_max3 a b c) = length a.
Proof.
  revert b c; induction a as [|x a IH]; intros [|y b] [|z c] H1 H2;
    try discriminate; [reflexivity|].
  cbn [row_max3 length]. rewrite IH; [reflexivity | |]; simpl in *; lia.
Qed.

Lemma nth_row_max3 a b c t :
  length a = length b -> length b = length c -> (t < length a)%nat ->
  nth t (row_max3 a b c) NaN
  = series_max [nth t a NaN; nth t b NaN; nth t c NaN].
Proof.
  revert b c t; induction a as [|x a IH]; intros [|y b] [|z c] t H1 H2 Ht;
    try discriminate; [simpl in Ht; lia|].
  destruct t as [|t]; [reflexivity|].
  cbn [row_max3 nth]. apply IH; simpl in *; lia.
Qed.

Lemma series_max3_finite a b c :
  series_max [Fin a; Fin b; Fin c] = Fin (q_maximum (q_maximum a b) c).
Proof.
  unfold series_max. cbn [dropna filter isnan negb fold_left].
  now rewrite !np_maximum_finite.
Qed.

Lemma true_range_at df t :
  (t < length df)%nat ->
  exists q,
    at_ (true_range df) t = Fin q /\
    nth t (map high df) 0 - nth t (map low df) 0 <= q /\
    ((1 <= t)%nat -> 0 <= q).
Proof.
  intros Ht. unfold true_range, at_.
  assert (Lh : length (high_column df) = length df)
    by (unfold high_column; now rewrite length_map).
  assert (Ll : length (low_column df) = length df)
    by (unfold low_column; now rewrite length_map).
  assert (Lc : length (close_column df) = length df)
    by (unfold close_column; now rewrite length_map).
  rewrite nth_row_max3;
    rewrite ?length_map, ?length_zip_with, ?length_shift1, ?Lh, ?Ll, ?Lc;
    try lia.
  rewrite (nth_zip_with fsub NaN NaN NaN) by lia.
  rewrite !(nth_map_in fabs NaN NaN)
    by (rewrite length_zip_with, length_shift1; lia).
  rewrite !(nth_zip_with fsub NaN NaN NaN) by (rewrite ?length_shift1; lia).
  unfold high_column, low_column.
  rewrite <- (map_map high Fin), <- (map_map low Fin).
  rewrite !(nth_map_in Fin 0 NaN) by (rewrite length_map; lia).
  set (h := nth t (map high df) 0). set (l := nth t (map low df) 0).
  fold (at_ (shift1 (close_column df)) t).
  destruct t as [|t].
  - rewrite at_shift1_0. exists (h - l).
    split; [reflexivity|]. split; [lra | lia].
  - rewrite at_shift1_S by lia. unfold at_, close_column.
    rewrite <- (map_map close Fin).
    rewrite (nth_map_in Fin 0 NaN) by (rewrite length_map; lia).
    set (pc := nth t (map close df) 0).
    cbn [fsub fabs]. rewrite series_max3_finite.
    eexists. split; [reflexivity|].
    pose proof (Qabs_nonneg (h - pc)) as Ha.
    destruct (q_maximum_spec (h - l) (Qabs (h - pc))) as [[I1 ->]|[I1 ->]];
      match goal with |- context [q_maximum ?x ?y] =>
        destruct (q_maximum_spec x y) as [[I2 ->]|[I2 ->]] end;
      split; try lra; intros _; lra.
Qed.

Lemma nonneg_from_at s :
  (forall t, (t < length s)%nat -> exists q, at_ s t = Fin q /\ 0 <= q) ->
  exists qs, s = map Fin qs /\ Forall (fun q => 0 <= q) qs.
Proof.
  induction s as [|x s IH]; intros Hat.
  - exists []. split; [reflexivity | constructor].
  - destruct (Hat 0%nat ltac:(simpl; lia)) as [q [Hq Hq0]].
    destruct IH as [qs [-> Hqs]].
    { intros t Ht. apply (Hat (S t)). simpl. lia. }
    exists (q :: qs). unfold at_ in Hq. cbn [nth] in Hq. subst x.
    split; [reflexivity | now constructor].
Qed.

Lemma nonneg_within qs hi :
  Forall (fun q => 0 <= q /\ q <= hi) qs ->
  Forall (nan_or_within 0 hi) (map Fin qs).
Proof.
  induction 1; cbn [map]; constructor; auto. now right.
Qed.

Lemma within_nonneg hi s :
  Forall (nan_or_within 0 hi) s -> Forall nan_or_nonneg s.
Proof.
  intros Hs. eapply Forall_impl; [|exact Hs]. intros x [->|Hx]; [now left|].
  destruct x as [q| | |]; try contradiction.
  right. exists q. split; [reflexivity | apply Hx].
Qed.

(** X20.  The average true range is never negative: on bars whose low
    is not above their high, each of its values is missing (until the
    window is full) or at least 0. *)
Theorem atr_nonnegative (df : DataFrame) (period : Z) :
  (0 <= period)%Z ->
  Forall (fun b => low b <= high b) df ->
  exists s,
    atr df period = Some s /\
    length s = length df /\
    Forall nan_or_nonneg s /\
    (forall t, (t < length df)%nat -> (t + 1 < Z.to_nat period)%nat ->
               at_ s t = NaN).
Proof.
  intros Hp Hdf. unfold atr. destruct (Z.ltb_spec period 0); [lia|].
  eexists. split; [reflexivity|].
  assert (Ltr : length (true_range df) = length df).
  { unfold true_range. rewrite length_row_max3;
      rewrite ?length_map, ?length_zip_with, ?length_shift1;
      unfold high_column, low_column, close_column;
      rewrite ?length_map; lia. }
  destruct (nonneg_from_at (true_range df)) as [qs [Eq Hqs]].
  { intros t Ht. rewrite Ltr in Ht.
    destruct (true_range_at df t Ht) as [q [Hq [Hhl Hpos]]].
    exists q. split; [exact Hq|].
    destruct t as [|t]; [|apply Hpos; lia].
    assert (Hb : nth 0 (map low df) 0 <= nth 0 (map high df) 0).
    { destruct df as [|b df]; [simpl in Ht; lia|].
      inversion Hdf; subst. assumption. }
    lra. }
  split; [now rewrite length_rolling|]. split.
  - destruct (exists_upper_bound qs Hqs) as [hi Hhi].
    apply (within_nonneg hi). apply rolling_mean_bounds.
    rewrite Eq. now apply nonneg_within.
  - intros t Ht Hw. apply rolling_warmup; [lia | exact Hw].
Qed.

Lemma atr_nonnegative_witness :
  let df := [ {| timestamp := 0; open := 10; high := 12; low := 9;
                 close := 11; volume := 1 |};
              {| timestamp := 1; open := 11; high := 15; low := 11;
                 close := 14; volume := 1 |} ] in
  (0 <= 2)%Z /\
  Forall (fun b => low b <= high b) df /\
  exists s, atr df 2 = Some s /\ Forall nan_or_nonneg s.
Proof.
  intros df.
  assert (Hb : Forall (fun b => low b <= high b) df).
  { repeat constructor; cbn; discriminate. }
  split; [lia|]. split; [exact Hb|].
  destruct (atr_nonnegative df 2 ltac:(lia) Hb) as [s [Hs [_ [Hn _]]]].
  exists s. split; assumption.
Defined.

(** ** Stochastic oscillator *)

Lemma window_zero {A : Type} t (l : list A) : window 0 t l = [].
Proof.
  unfold window. replace (t + 1 - 0)%nat with (t + 1)%nat by lia.
  now rewrite skipn_firstn_comm, Nat.sub_diag.
Qed.

Lemma in_window_last {A : Type} w t (l : list A) d :
  (t < length l)%nat -> (1 <= w)%nat -> (w <= t + 1)%nat ->
  In (nth t l d) (window w t l).
Proof.
  intros Ht H1 Hw.
  assert (E : nth (w - 1) (window w t l) d = nth t l d).
  { unfold window. rewrite nth_skipn, nth_firstn.
    replace (t + 1 - w + (w - 1))%nat with t by lia.
    destruct (Nat.ltb_spec t (t + 1)); [reflexivity | lia]. }
  rewrite <- E. apply nth_In. rewrite length_window by assumption. lia.
Qed.

Lemma fold_np_maximum_finite l x :
  fold_left np_maximum (map Fin l) (Fin x) = Fin (fold_left q_maximum l x).
Proof.
  revert x; induction l as [|y l IH]; intros x; [reflexivity|].
  cbn [map fold_left]. now rewrite np_maximum_finite, IH.
Qed.

Lemma fold_q_minimum_le l x :
  fold_left q_minimum l x <= x /\
  Forall (fun q => fold_left q_minimum l x <= q) l.
Proof.
  revert x; induction l as [|y l IH]; intros x.
  - cbn [fold_left]. split; [apply Qle_refl | constructor].
  - cbn [fold_left]. destruct (IH (q_minimum x y)) as [I1 I2].
    destruct (q_minimum_spec x y) as [[H E]|[H E]]; rewrite E in *.
    + split; [lra|]. constructor; [exact I1 | exact I2].
    + split; [lra|]. constructor; [lra | exact I2].
Qed.

Lemma fold_q_maximum_ge l x :
  x <= fold_left q_maximum l x /\
  Forall (fun q => q <= fold_left q_maximum l x) l.
Proof.
  revert x; induction l as [|y l IH]; intros x.
  - cbn [fold_left]. split; [apply Qle_refl | constructor].
  - cbn [fold_left]. destruct (IH (q_maximum x y)) as [I1 I2].
    destruct (q_maximum_spec x y) as [[H E]|[H E]]; rewrite E in *.
    + split; [lra|]. constructor; [exact I1 | exact I2].
    + split; [lra|]. constructor; [lra | exact I2].
Qed.

Lemma series_min_finite l :
  l <> [] ->
  exists m, series_min (map Fin l) = Fin m /\ Forall (fun q => m <= q) l.
Proof.
  intros Hl. destruct l as [|x l]; [congruence|].
  unfold series_min. rewrite dropna_finite. cbn [map].
  rewrite fold_np_minimum_finite. eexists. split; [reflexivity|].
  destruct (fold_q_minimum_le l x) as [I1 I2]. now constructor.
Qed.

Lemma series_max_finite l :
  l <> [] ->
  exists m, series_max (map Fin l) = Fin m /\ Forall (fun q => q <= m) l.
Proof.
  intros Hl. destruct l as [|x l]; [congruence|].
  unfold series_max. rewrite dropna_finite. cbn [map].
  rewrite fold_np_maximum_finite. eexists. split; [reflexivity|].
  destruct (fold_q_maximum_ge l x) as [I1 I2]. now constructor.
Qed.

Lemma at_rolling_finite agg w qs t :
  (t < length qs)%nat -> (w <= t + 1)%nat ->
  at_ (rolling agg w (map Fin qs)) t = agg (map Fin (window w t qs)).
Proof.
  intros Ht Hw. rewrite at_rolling by now rewrite length_map.
  destruct (Nat.ltb_spec (t + 1) w); [lia|].
  rewrite window_map. unfold count. rewrite dropna_finite, length_map.
  rewrite (length_window w t qs Ht Hw).
  destruct (Nat.ltb_spec w w); [lia | reflexivity].
Qed.

(** A ratio of two numbers that are not negative, the upper zero only
    with the lower, is missing or not negative. *)
Lemma fdiv_nonneg a b :
  0 <= a -> 0 <= b -> (b == 0 -> a == 0) ->
  nan_or_nonneg (Fin a / Fin b)%F.
Proof.
  intros Ha Hb Hab. unfold fdiv.
  destruct (Qeq_bool b 0) eqn:E.
  - apply Qeq_bool_eq in E. left.
    pose proof (Hab E) as Ha0. apply Qeq_alt in Ha0. now rewrite Ha0.
  - apply Qeq_bool_neq in E. right. eexists. split; [reflexivity|].
    apply Qle_shift_div_l; lra.
Qed.

Lemma stoch_k_at df k t :
  Forall (fun b => low b <= close b /\ close b <= high b) df ->
  (t < length df)%nat ->
  nan_or_nonneg
    ((of_Z 100
      * (at_ (close_column df) t - at_ (rolling series_min k (low_column df)) t))
     / (at_ (rolling series_max k (high_column df)) t
        - at_ (rolling series_min k (low_column df)) t))%F.
Proof.
  intros Hdf Ht.
  unfold low_column, high_column.
  rewrite <- (map_map low Fin), <- (map_map high Fin).
  destruct (Nat.ltb_spec (t + 1) k) as [Hw|Hw].
  { left. rewrite (rolling_warmup series_min k _ t)
      by (rewrite ?length_map; lia).
    now destruct (at_ (close_column df) t). }
  rewrite !at_rolling_finite by (rewrite ?length_map; lia).
  destruct k as [|k].
  { left. rewrite !window_zero. cbn [map]. unfold series_min. cbn.
    now destruct (at_ (close_column df) t). }
  assert (Hnl : window (S k) t (map low df) <> []).
  { intros E. pose proof (length_window (S k) t (map low df)) as Hl.
    rewrite E, length_map in Hl. specialize (Hl Ht Hw). discriminate. }
  assert (Hnh : window (S k) t (map high df) <> []).
  { intros E. pose proof (length_window (S k) t (map high df)) as Hl.
    rewrite E, length_map in Hl. specialize (Hl Ht Hw). discriminate. }
  destruct (series_min_finite _ Hnl) as [m [-> Hm]].
  destruct (series_max_finite _ Hnh) as [M [-> HM]].
  rewrite Forall_forall in Hm, HM.
  pose proof (Hm _ (in_window_last (S k) t (map low df) 0
                      ltac:(rewrite length_map; lia) ltac:(lia) Hw)) as Hlo.
  pose proof (HM _ (in_window_last (S k) t (map high df) 0
                      ltac:(rewrite length_map; lia) ltac:(lia) Hw)) as Hhi.
  unfold at_, close_column. rewrite <- (map_map close Fin).
  rewrite (nth_map_in Fin 0 NaN) by (rewrite length_map; lia).
  assert (Hb : nth t (map low df) 0 <= nth t (map close df) 0 /\
               nth t (map close df) 0 <= nth t (map high df) 0).
  { rewrite Forall_forall in Hdf.
    pose proof (Hdf (nth t df (bar_at 0 0)) (nth_In _ _ Ht)) as Hbar.
    rewrite !(nth_map_in _ (bar_at 0 0) 0) by lia. exact Hbar. }
  cbn [fsub fmul of_Z]. change (inject_Z 100) with 100.
  apply fdiv_nonneg; lra.
Qed.

Lemma nonneg_upper_bound s :
  Forall nan_or_nonneg s -> exists hi, Forall (nan_or_within 0 hi) s.
Proof.
  induction 1 as [|x s Hx _ [hi Hhi]].
  - exists 0. constructor.
  - pose proof (Qabs_nonneg hi) as Ha. pose proof (Qle_Qabs hi) as Hb.
    destruct Hx as [->|[q [-> Hq]]].
    + exists hi. constructor; [now left | exact Hhi].
    + exists (q + Qabs hi). constructor.
      * right. cbn [within]. split; lra.
      * eapply Forall_impl; [|exact Hhi]. intros y [->|Hy]; [now left|].
        right. destruct y as [z| | |]; try contradiction.
        cbn [within] in *. split; lra.
Qed.

(** A rolling mean of values that are not negative is not negative. *)
Lemma rolling_mean_keeps_nonneg w s :
  Forall nan_or_nonneg s -> Forall nan_or_nonneg (rolling mean w s).
Proof.
  intros Hs. destruct (nonneg_upper_bound s Hs) as [hi Hhi].
  apply (within_nonneg hi), rolling_mean_bounds, Hhi.
Qed.

(** X21.  The stochastic oscillator is never negative: on bars whose
    close lies between their low and their high, every value of %K and
    of %D is missing or at least 0, and both have one value per bar. *)
Theorem stochastic_nonnegative (df : DataFrame) (k_period d_period : Z) :
  (0 <= k_period)%Z -> (0 <= d_period)%Z ->
  Forall (fun b => low b <= close b /\ close b <= high b) df ->
  exists stoch_k stoch_d,
    stochastic df k_period d_period = Some (stoch_k, stoch_d) /\
    length stoch_k = length df /\ length stoch_d = length df /\
    Forall nan_or_nonneg stoch_k /\
    Forall nan_or_nonneg stoch_d.
Proof.
  intros Hk Hd Hdf. unfold stochastic.
  destruct (Z.ltb_spec k_period 0); [lia|].
  destruct (Z.ltb_spec d_period 0); [lia|].
  cbn [orb]. eexists _, _. split; [reflexivity|].
  set (k := Z.to_nat k_period).
  set (ll := rolling series_min k (low_column df)).
  set (hh := rolling series_max k (high_column df)).
  assert (Lc : length (close_column df) = length df)
    by (unfold close_column; now rewrite length_map).
  assert (Lll : length ll = length df)
    by (unfold ll, low_column; now rewrite length_rolling, length_map).
  assert (Lhh : length hh = length df)
    by (unfold hh, high_column; now rewrite length_rolling, length_map).
  assert (Lk : length (zip_with fdiv
                  (map (fmul (of_Z 100)) (zip_with fsub (close_column df) ll))
                  (zip_with fsub hh ll)) = length df).
  { rewrite length_zip_with, length_map, !length_zip_with. lia. }
  assert (Hkr : Forall nan_or_nonneg
                  (zip_with fdiv
                     (map (fmul (of_Z 100))
                        (zip_with fsub (close_column df) ll))
                     (zip_with fsub hh ll))).
  { apply Forall_forall. intros x Hx.
    destruct (In_nth _ _ NaN Hx) as [t [Ht <-]]. rewrite Lk in Ht.
    rewrite (nth_zip_with fdiv NaN NaN NaN)
      by (rewrite ?length_map, ?length_zip_with; lia).
    rewrite (nth_map_in (fmul (of_Z 100)) NaN NaN)
      by (rewrite length_zip_with; lia).
    rewrite !(nth_zip_with fsub NaN NaN NaN) by lia.
    apply (stoch_k_at df k t Hdf Ht). }
  split; [exact Lk|]. split; [now rewrite length_rolling|].
  split; [exact Hkr|]. now apply rolling_mean_keeps_nonneg.
Qed.

Lemma stochastic_nonnegative_witness :
  let df := [ {| timestamp := 0; open := 10; high := 12; low := 9;
                 close := 11; volume := 1 |};
              {| timestamp := 1; open := 11; high := 15; low := 11;
                 close := 14; volume := 1 |} ] in
  (0 <= 2)%Z /\ (0 <= 1)%Z /\
  Forall (fun b => low b <= close b /\ close b <= high b) df /\
  exists stoch_k stoch_d,
    stochastic df 2 1 = Some (stoch_k, stoch_d) /\
    Forall nan_or_nonneg stoch_k /\ Forall nan_or_nonneg stoch_d.
Proof.
  intros df.
  assert (Hb : Forall (fun b => low b <= close b /\ close b <= high b) df).
  { repeat constructor; cbn; discriminate. }
  split; [lia|]. split; [lia|]. split; [exact Hb|].
  destruct (stochastic_nonnegative df 2 1 ltac:(lia) ltac:(lia) Hb)
    as [sk [sd [Hs [_ [_ [Hk Hd]]]]]].
  exists sk, sd. repeat split; assumption.
Defined.

(** ** MACD and the crossover *)

Lemma crossover_finite a b :
  crossover (map Fin a) (map Fin b)
  = map (fun d => sign_Z (Fin d)) (zip_with Qminus a b).
Proof.
  revert b; induction a as [|x a IH]; intros [|y b]; try reflexivity.
  cbn [map zip_with]. rewrite crossover_cons, IH. f_equal.
  unfold sign_Z, sign, fgt.
  destruct (Qcompare_spec (x - y) 0) as [E|E|E].
  - rewrite (proj2 (flt_finite_false x y)) by lra.
    rewrite (proj2 (flt_finite_false y x)) by lra. reflexivity.
  - rewrite flt_finite_true by lra. reflexivity.
  - rewrite (proj2 (flt_finite_false x y)) by lra.
    rewrite flt_finite_true by lra. reflexivity.
Qed.

Lemma length_ewm_mean alpha xs : length (ewm_mean alpha xs) = length xs.
Proof.
  destruct xs as [|x xs]; [reflexivity|].
  cbn [ewm_mean length]. now rewrite length_ewm_from.
Qed.

(** X22.  The signal of the simple crossover is the sign of the MACD
    line taken with the same two periods; the histogram is the line
    minus the signal line, and all three have one value per bar. *)
Theorem crossover_is_macd_sign (s : SimpleEMACross.t) (df : DataFrame)
  (signal_period : Z) :
  (1 <= SimpleEMACross.short_period s)%Z ->
  (1 <= SimpleEMACross.long_period s)%Z ->
  (1 <= signal_period)%Z ->
  exists out macd_line signal_line histogram,
    SimpleEMACross.calculate s df = Some out /\
    macd df (SimpleEMACross.short_period s) (SimpleEMACross.long_period s)
      signal_period = Some (macd_line, signal_line, histogram) /\
    length macd_line = length df /\
    length signal_line = length df /\
    length histogram = length df /\
    forall t, (t < length df)%nat ->
      signal_at out t = sign_Z (at_ macd_line t) /\
      at_ histogram t = (at_ macd_line t - at_ signal_line t)%F.
Proof.
  intros Hs Hl Hsig.
  destruct (simple_calculate_value s df Hs Hl) as [sig [Hc [Hlen Hsg]]].
  destruct (with_signal_columns df sig Hlen) as [_ Hr].
  unfold macd.
  destruct (Z.ltb_spec (SimpleEMACross.short_period s) 1); [lia|].
  destruct (Z.ltb_spec (SimpleEMACross.long_period s) 1); [lia|].
  destruct (Z.ltb_spec signal_period 1); [lia|]. cbn [orb].
  set (ef := ewm_mean (2 / (inject_Z (SimpleEMACross.short_period s) + 1))
               (map close df)) in *.
  set (el := ewm_mean (2 / (inject_Z (SimpleEMACross.long_period s) + 1))
               (map close df)) in *.
  set (line := zip_with Qminus ef el).
  set (sl := ewm_mean (2 / (inject_Z signal_period + 1)) line).
  assert (Lline : length line = length df).
  { unfold line, ef, el.
    rewrite length_zip_with, !length_ewm_mean, length_map. lia. }
  assert (Lsl : length sl = length df)
    by (unfold sl; now rewrite length_ewm_mean).
  eexists _, _, _, _. split; [exact Hc|]. split; [reflexivity|].
  rewrite !length_map, length_zip_with.
  split; [exact Lline|]. split; [exact Lsl|]. split; [lia|].
  intros t Ht. split.
  - unfold signal_at. rewrite Hr, Hsg, crossover_finite. fold line.
    unfold at_.
    rewrite (nth_map_in (fun d => sign_Z (Fin d)) 0 0%Z) by lia.
    rewrite (nth_map_in Fin 0 NaN) by lia. reflexivity.
  - unfold at_.
    rewrite !(nth_map_in Fin 0 NaN) by (rewrite ?length_zip_with; lia).
    rewrite (nth_zip_with Qminus 0 0 0) by lia. reflexivity.
Qed.

Lemma crossover_is_macd_sign_witness :
  let s := {| SimpleEMACross.short_period := 2;
              SimpleEMACross.long_period := 3 |} in
  (1 <= SimpleEMACross.short_period s)%Z /\
  (1 <= SimpleEMACross.long_period s)%Z /\ (1 <= 9)%Z /\
  exists out macd_line signal_line histogram,
    SimpleEMACross.calculate s (bars_of [100; 90; 95]) = Some out /\
    macd (bars_of [100; 90; 95]) 2 3 9
    = Some (macd_line, signal_line, histogram) /\
    signal_at out 1 = sign_Z (at_ macd_line 1).
Proof.
  intros s.
  assert (H1 : (1 <= SimpleEMACross.short_period s)%Z) by (simpl; lia).
  assert (H2 : (1 <= SimpleEMACross.long_period s)%Z) by (simpl; lia).
  split; [exact H1|]. split; [exact H2|]. split; [lia|].
  destruct (crossover_is_macd_sign s (bars_of [100; 90; 95]) 9 H1 H2
              ltac:(lia))
    as [out [ml [sl [h [Hc [Hm [_ [_ [_ Hat]]]]]]]]].
  exists out, ml, sl, h. split; [exact Hc|]. split; [exact Hm|].
  apply (Hat 1%nat). simpl. lia.
Defined.

(* ================================================================== *)
(** * The initial capital *)
(* ================================================================== *)

Lemma returns_with_capital e c df :
  frame_returns (with_capital e c) df = frame_returns e df.
Proof. reflexivity. Qed.

Lemma metrics_of_returns `{Libm} returns equity1 equity2 sigs m1 m2 :
  calculate_metrics returns equity1 sigs = Some m1 ->
  calculate_metrics returns equity2 sigs = Some m2 ->
  total_return m1 = total_return m2 /\
  annual_return m1 = annual_return m2 /\
  sharpe_ratio m1 = sharpe_ratio m2 /\
  win_rate m1 = win_rate m2 /\
  total_trades m1 = total_trades m2 /\
  profit_factor m1 = profit_factor m2 /\
  avg_trade_return m1 = avg_trade_return m2.
Proof.
  unfold calculate_metrics. intros H1 H2.
  destruct (length (dropna returns) =? 0)%nat.
  - inversion H1; inversion H2; subst. repeat split.
  - destruct (max_drawdown_of equity1); [|discriminate].
    destruct (max_drawdown_of equity2); [|discriminate].
    inversion H1; inversion H2; subst. repeat split.
Qed.

(** X23.  The initial capital does not enter the returns: two runs that
    differ only in [initial_capital] have the same strategy returns and
    signals and report the same total return, annual return, Sharpe
    ratio, win rate, number of trades, profit factor and average trade
    return.  (The maximum drawdown is computed from the equity curve.) *)
Theorem return_metrics_independent_of_capital `{Libm} (e : BacktestEngine)
  (c : Q) (bars : DataFrame) (strategy : Strategy) (df : SignalFrame) :
  calculate strategy bars = Some df ->
  exists r1 r2,
    run e bars strategy = Some r1 /\
    run (with_capital e c) bars strategy = Some r2 /\
    frame_returns (with_capital e c) df = frame_returns e df /\
    signals r1 = signals r2 /\
    total_return (metrics r1) = total_return (metrics r2) /\
    annual_return (metrics r1) = annual_return (metrics r2) /\
    sharpe_ratio (metrics r1) = sharpe_ratio (metrics r2) /\
    win_rate (metrics r1) = win_rate (metrics r2) /\
    total_trades (metrics r1) = total_trades (metrics r2) /\
    profit_factor (metrics r1) = profit_factor (metrics r2) /\
    avg_trade_return (metrics r1) = avg_trade_return (metrics r2).
Proof.
  intros Hc.
  destruct (run_returns e bars strategy df Hc)
    as [r1 [Hr1 [_ [Hs1 [_ [_ [_ Hm1]]]]]]].
  destruct (run_returns (with_capital e c) bars strategy df Hc)
    as [r2 [Hr2 [_ [Hs2 [_ [_ [_ Hm2]]]]]]].
  exists r1, r2. split; [exact Hr1|]. split; [exact Hr2|].
  split; [reflexivity|]. split; [congruence|].
  rewrite returns_with_capital in Hm2.
  exact (metrics_of_returns _ _ _ _ _ _ Hm1 Hm2).
Qed.

Lemma return_metrics_independent_of_capital_witness :
  let bars := bars_of [100; 110; 99] in
  exists r1 r2,
    @run libm_coarse default_engine bars (fixed_signals [1; 0; 1]%Z) = Some r1 /\
    @run libm_coarse (with_capital default_engine 500) bars
      (fixed_signals [1; 0; 1]%Z) = Some r2 /\
    sharpe_ratio (metrics r1) = sharpe_ratio (metrics r2) /\
    total_return (metrics r1) = total_return (metrics r2).
Proof.
  intros bars.
  destruct (@return_metrics_independent_of_capital libm_coarse default_engine
              500 bars (fixed_signals [1; 0; 1]%Z)
              (frame_of [100; 110; 99] [1; 0; 1]%Z) eq_refl)
    as [r1 [r2 [Hr1 [Hr2 [_ [_ [Ht [_ [Hs _]]]]]]]]].
  exists r1, r2. auto.
Defined.

(** ** Bollinger bands *)

Lemma std_short `{Libm} s : (count s < 2)%nat -> std s = NaN.
Proof.
  intros Hc. unfold std.
  destruct (Nat.ltb_spec (count s) 2); [reflexivity | lia].
Qed.

Lemma rolling_std_short `{Libm} w s t :
  (t < length s)%nat -> (w <= 1)%nat -> at_ (rolling std w s) t = NaN.
Proof.
  intros Ht Hw. rewrite at_rolling by exact Ht.
  destruct (Nat.ltb_spec (t + 1) w); [reflexivity|].
  destruct (Nat.ltb_spec (count (window w t s)) w); [reflexivity|].
  apply std_short.
  pose proof (length_window w t s Ht ltac:(lia)) as Hl.
  unfold count, dropna.
  pose proof (filter_length_le (fun x => negb (isnan x)) (window w t s)).
  lia.
Qed.

(** X24.  Bollinger bands: the middle band is the simple moving
    average; all three bands have one value per bar and are missing
    until the window is full; with a window of 0 or 1 bar the upper and
    lower bands are missing on every bar (the sample standard deviation
    of one value is not defined). *)
Theorem bollinger_bands_shape `{Libm} (df : DataFrame) (period : Z)
  (std_dev : Q) :
  (0 <= period)%Z ->
  exists upper middle lower,
    bollinger_bands df period std_dev = Some (upper, middle, lower) /\
    sma df period = Some middle /\
    length upper = length df /\ length middle = length df /\
    length lower = length df /\
    forall t, (t < length df)%nat ->
      ((t + 1 < Z.to_nat period)%nat ->
       at_ upper t = NaN /\ at_ middle t = NaN /\ at_ lower t = NaN) /\
      ((period <= 1)%Z -> at_ upper t = NaN /\ at_ lower t = NaN).
Proof.
  intros Hp. unfold bollinger_bands, sma.
  destruct (Z.ltb_spec period 0); [lia|].
  set (w := Z.to_nat period).
  set (middle := rolling mean w (close_column df)).
  set (width := map (fun s => (s * Fin std_dev)%F)
                  (rolling std w (close_column df))).
  assert (Lc : length (close_column df) = length df)
    by (unfold close_column; now rewrite length_map).
  assert (Lm : length middle = length df)
    by (unfold middle; now rewrite length_rolling).
  assert (Lw : length width = length df)
    by (unfold width; now rewrite length_map, length_rolling).
  eexists _, _, _. split; [reflexivity|]. split; [reflexivity|].
  rewrite !length_zip_with.
  split; [lia|]. split; [exact Lm|]. split; [lia|].
  intros t Ht.
  assert (Hu : at_ (zip_with fadd middle width) t
               = (at_ middle t + at_ width t)%F).
  { unfold at_. now rewrite (nth_zip_with fadd NaN NaN NaN) by lia. }
  assert (Hl : at_ (zip_with fsub middle width) t
               = (at_ middle t - at_ width t)%F).
  { unfold at_. now rewrite (nth_zip_with fsub NaN NaN NaN) by lia. }
  assert (Hwd : at_ width t
                = (at_ (rolling std w (close_column df)) t * Fin std_dev)%F).
  { unfold at_, width.
    now rewrite (nth_map_in (fun s => (s * Fin std_dev)%F) NaN NaN)
      by (rewrite length_rolling; lia). }
  rewrite Hu, Hl. split.
  - intros Hw.
    assert (Hmid : at_ middle t = NaN)
      by (apply rolling_warmup; [lia | exact Hw]).
    rewrite Hmid. repeat split.
  - intros H1. rewrite Hwd, rolling_std_short by (unfold w; lia).
    cbn [fmul]. now destruct (at_ middle t).
Qed.

Lemma bollinger_bands_shape_witness :
  (0 <= 1)%Z /\
  exists upper middle lower,
    @bollinger_bands libm_coarse (bars_of [100; 110]) 1 2
    = Some (upper, middle, lower) /\
    at_ upper 1 = NaN /\ at_ lower 1 = NaN.
Proof.
  split; [lia|].
  destruct (@bollinger_bands_shape libm_coarse (bars_of [100; 110]) 1 2
              ltac:(lia)) as [u [m [l [Hb [_ [_ [_ [_ Hat]]]]]]]].
  exists u, m, l. split; [exact Hb|].
  destruct (Hat 1%nat ltac:(simpl; lia)) as [_ Hn].
  apply Hn. lia.
Defined.
